(** * PyGdbRemoteClient: packet codec and stream transport, verified

    A shallow embedding of [gdb_remote_client/utils.py] (the packet codec) and
    [gdb_remote_client/client_base.py] (the buffered, deadline-bounded
    transport) together with the properties the specification states about
    them.

    Python values are modelled as follows.
    - [bytes] is [list byte]; a one-byte slice such as [data[pos:pos+1]] stays
      a list, so the [assert len(c) == 1] of the source are kept.
    - Python slicing [s[lo:hi]] is [Py.slice], with Python's treatment of
      negative and out-of-range bounds.
    - An exception is a value of [exn]; a function that may raise returns
      [result].  A message is kept as the list of its pieces (literal text and
      formatted values) instead of a formatted string.
    - Times ([time.time()], the receive timeout) are Python [float]s, that is
      IEEE 754 binary64 numbers: [spec_float] of the Standard Library with its
      subtraction (rounded to nearest, ties to even) and its comparisons.
    - The socket is a script of what its successive [recv] and [send] calls
      do (deliver bytes, time out, fail), and every socket call is appended
      to a call log (as the mocked socket of the test-suite records them). *)

From Stdlib Require Import String Strings.Byte.
From Stdlib Require Import List ZArith NArith Lia Bool Permutation SpecFloat.
Import ListNotations.

Open Scope byte_scope.
Open Scope nat_scope.

(* ================================================================= *)
(** ** Python primitives *)

Module Py.

Definition bytes := list byte.

(** [b"..."] for printable text. *)
Definition b (s : string) : bytes := list_byte_of_string s.

Definition byte_of_N (n : N) : byte :=
  match Byte.of_N n with Some x => x | None => x00 end.

Definition ord (c : byte) : N := Byte.to_N c.

Fixpoint bytes_eqb (x y : bytes) : bool :=
  match x, y with
  | [], [] => true
  | c :: x', d :: y' => Byte.eqb c d && bytes_eqb x' y'
  | _, _ => false
  end.

(** Normalisation of one slice bound against a sequence of length [n]. *)
Definition clamp (n i : Z) : Z :=
  if (i <? 0)%Z then Z.max (i + n) 0 else Z.min i n.

(** [l[lo:hi]]. *)
Definition slice {A} (l : list A) (lo hi : Z) : list A :=
  let n := Z.of_nat (length l) in
  let lo' := clamp n lo in
  let hi' := clamp n hi in
  firstn (Z.to_nat (hi' - lo')) (skipn (Z.to_nat lo') l).

(** [l[lo:]]. *)
Definition slice_from {A} (l : list A) (lo : Z) : list A :=
  slice l lo (Z.of_nat (length l)).

Fixpoint starts_with (needle hay : bytes) : bool :=
  match needle, hay with
  | [], _ => true
  | c :: needle', d :: hay' => Byte.eqb c d && starts_with needle' hay'
  | _ :: _, [] => false
  end.

(** [needle in hay] for two [bytes] objects: a substring test. *)
Fixpoint bytes_in (needle hay : bytes) : bool :=
  starts_with needle hay
  || match hay with
     | [] => false
     | _ :: hay' => bytes_in needle hay'
     end.

(** [c in hay] for an [int] [c]: an element test. *)
Definition int_in (c : byte) (hay : bytes) : bool :=
  existsb (Byte.eqb c) hay.

(** [c * n] for [bytes] [c]. *)
Definition repeat_bytes (c : bytes) (n : nat) : bytes :=
  concat (repeat c n).

End Py.

Import Py.

(* ================================================================= *)
(** ** Python's [float] *)

(** A [float] is a binary64 number: 53 bits of precision, exponents below
    1024. *)
Definition float := spec_float.

Definition prec : Z := 53.
Definition emax : Z := 1024.

(** [x - y] *)
Definition fsub (x y : float) : float := SFsub prec emax x y.

(** [x < y], [x <= y], [x == y] *)
Definition fltb (x y : float) : bool := SFltb x y.
Definition fleb (x y : float) : bool := SFleb x y.
Definition feqb (x y : float) : bool := SFeqb x y.

(** The float of an integer: [fl 5] is [5.0]. *)
Definition fl (z : Z) : float := binary_normalize prec emax z 0 false.

Arguments fsub : simpl never.
Arguments fltb : simpl never.
Arguments fleb : simpl never.
Arguments feqb : simpl never.
Arguments fl : simpl never.

(** [0.1] and [5.1], as [float.hex] shows them: [0x1.999999999999ap-4] and
    [0x1.4666666666666p+2]. *)
Definition f0_1 : float := S754_finite false 7205759403792794 (-56).
Definition f5_1 : float := S754_finite false 5742089524897382 (-50).

(* ================================================================= *)
(** ** errors.py, and the built-in exceptions the code raises *)

Inductive piece :=
| Lit (text : string)       (* literal message text *)
| Repr (value : bytes)      (* [repr(value)] *)
| Num (value : nat)         (* an integer put in by [format] *)
| Secs (value : float).     (* a duration put in by [format] *)

Definition message := list piece.

Inductive exn :=
| PacketFormatError (msg : message)
| ProtocolError (msg : message)
| RecvTimeoutError (msg : message)
| RuntimeError (msg : message)
| ValueError (msg : message)
| AssertionError
| UnicodeEncodeError
| SocketTimeout             (* [socket.timeout] *)
| SocketError               (* any other error of a socket call *)
| OutOfFuel.
(** [OutOfFuel] is no exception of the program: it is what the model of a
    loop answers when the number of turns it was given does not suffice.  The
    lemmas [decode_loop_fuel], [recv_bytes_loop_fuel] and
    [recv_packet_loop_fuel] show that it never comes out of a function of the
    program. *)

Inductive result (A : Type) :=
| Ok (value : A)
| Raise (e : exn).

Arguments Ok {A} value.
Arguments Raise {A} e.

Definition bind_result {A B} (r : result A) (k : A -> result B) : result B :=
  match r with
  | Ok a => k a
  | Raise e => Raise e
  end.

Declare Scope result_scope.
Delimit Scope result_scope with result.
Notation "'let?' x ':=' r 'in' k" :=
  (bind_result r (fun x => k))
  (at level 10, x name, r at level 100, k at level 200)
  : result_scope.

(** [assert cond] *)
Definition assert (cond : bool) : result unit :=
  if cond then Ok tt else Raise AssertionError.

(* ================================================================= *)
(** ** utils.py *)

Module Utils.

Local Open Scope result_scope.

Definition msg_missing_after_escape : message :=
  [Lit "Missing one more character after }"].
Definition msg_missing_after_star : message :=
  [Lit "Invalid run-length sequence: Missing one more character after *"].
Definition msg_bad_count_byte : message :=
  [Lit "Invalid run-length sequence: Bytes # or $ cannot be used for repetition count"].
Definition msg_count_out_of_range : message :=
  [Lit "Invalid run-length sequence: The ASCII code of the run-length repetiton byte must be in range 32 - 126"].

Definition _needs_escape (c : bytes) : result bool :=
  let? _ := assert (length c =? 1) in
  Ok (bytes_in c (b "}$#")).

(** [chr(c[0] ^ 0x20).encode("ascii")]: the [ascii] codec rejects code
    points from 128 on. *)
Definition _escape_byte (c : bytes) : result bytes :=
  let? _ := assert (length c =? 1) in
  let v := N.lxor (ord (hd x00 c)) 32 in
  if (v <? 128)%N then Ok [byte_of_N v] else Raise UnicodeEncodeError.

Definition _unescape_byte (c : bytes) : result bytes :=
  _escape_byte c.

Definition _expand_run_length_sequence (seq : bytes) : result bytes :=
  let? _ := assert (length seq =? 3) in
  let? _ := assert (bytes_eqb (slice seq 1 2) (b "*")) in
  let orig_byte := slice seq 0 1 in
  let repetition_byte := slice seq 2 3 in
  if bytes_in repetition_byte (b "#$") then
    Raise (PacketFormatError msg_bad_count_byte)
  else
    let code := ord (hd x00 repetition_byte) in
    if negb ((32 <=? code)%N && (code <=? 126)%N) then
      Raise (PacketFormatError msg_count_out_of_range)
    else
      let repetition_count := (code - 28)%N in
      Ok (repeat_bytes orig_byte (N.to_nat repetition_count)).

(** The [while pos < len(data)] loop of [decode_packet_data].  Every turn
    advances [pos] by at least one, so [len(data)] turns are enough;
    [fuel] counts the turns that remain. *)
Fixpoint decode_loop (fuel : nat) (data : bytes) (pos : nat) (res : bytes)
  : result bytes :=
  if pos <? length data then
    match fuel with
    | O => Raise OutOfFuel
    | S fuel' =>
        (* Peek at the next three bytes. *)
        let c := slice data (Z.of_nat pos) (Z.of_nat pos + 3) in
        if bytes_eqb (slice c 0 1) (b "}") then
          if bytes_eqb (slice c 1 2) [] then
            Raise (PacketFormatError msg_missing_after_escape)
          else
            let? u := _unescape_byte (slice c 1 2) in
            decode_loop fuel' data (pos + 2) (res ++ u)
        else if bytes_eqb (slice c 1 2) (b "*") then
          if length c <? 3 then
            Raise (PacketFormatError msg_missing_after_star)
          else
            let? e := _expand_run_length_sequence c in
            decode_loop fuel' data (pos + 3) (res ++ e)
        else
          decode_loop fuel' data (pos + 1) (res ++ slice c 0 1)
    end
  else Ok res.

Definition decode_packet_data (data : bytes) : result bytes :=
  decode_loop (length data) data 0 [].

(** The [for pos in range(len(data))] loop of [encode_packet_data];
    [todo] counts the positions still to visit. *)
Fixpoint encode_loop (todo : nat) (data : bytes) (pos : nat) (res : bytes)
  : result bytes :=
  match todo with
  | O => Ok res
  | S todo' =>
      let c := slice data (Z.of_nat pos) (Z.of_nat pos + 1) in
      let? esc := _needs_escape c in
      if esc then
        let? e := _escape_byte c in
        encode_loop todo' data (pos + 1) (res ++ b "}" ++ e)
      else
        encode_loop todo' data (pos + 1) (res ++ c)
  end.

Definition encode_packet_data (data : bytes) : result bytes :=
  encode_loop (length data) data 0 [].

Definition hex_digit (d : N) : byte :=
  nth (N.to_nat d) (b "0123456789abcdef") "0".

(** ["{:02x}".format(v)] for [0 <= v < 256]: two lower-case digits. *)
Definition format_02x (v : N) : bytes :=
  [hex_digit (v / 16); hex_digit (v mod 16)].

Definition sum_bytes (data : bytes) : N :=
  fold_left (fun acc x => (acc + ord x)%N) data 0%N.

Definition compute_checksum (packet_data : bytes) : bytes :=
  let checksum_val := (sum_bytes packet_data mod 256)%N in
  format_02x checksum_val.

(** [string.hexdigits] *)
Definition hexdigits : bytes := b "0123456789abcdefABCDEF".

Definition is_hex_char (c : byte) : bool := int_in c hexdigits.

Definition _check_checksum_syntax (checksum : bytes) : bool :=
  if negb (length checksum =? 2) then false
  else forallb is_hex_char checksum.

Definition msg_bad_custom_checksum : message :=
  [Lit "Invalid checksum, expected two hex digits"].

Definition create_packet (packet_data : bytes) (custom_checksum : option bytes)
  : result bytes :=
  let? _ :=
    match custom_checksum with
    | Some cs =>
        if negb (_check_checksum_syntax cs)
        then Raise (ValueError msg_bad_custom_checksum)
        else Ok tt
    | None => Ok tt
    end in
  let? packet_data_encoded := encode_packet_data packet_data in
  let res := b "$" ++ packet_data_encoded ++ b "#" in
  let checksum :=
    match custom_checksum with
    | Some cs => cs
    | None => compute_checksum packet_data_encoded
    end in
  Ok (res ++ checksum).

Definition split_packet (packet : bytes) : bytes * bytes * bytes * bytes :=
  let first_char := slice packet 0 1 in
  let packet_data := slice packet 1 (-3) in
  let hash_char := slice packet (-3) (-2) in
  let checksum := slice_from packet (-2) in
  (first_char, packet_data, hash_char, checksum).

Definition msg_too_short : message :=
  [Lit "Too short packet to be valid, expected at least 4 bytes"].
Definition msg_bad_first (first_char : bytes) : message :=
  [Lit "Expected first packet byte to be $, found "; Repr first_char].
Definition msg_bad_hash (hash_char : bytes) : message :=
  [Lit "Expected # character before the checksum, found "; Repr hash_char].
Definition msg_dollar_in_data : message :=
  [Lit "Found special character $ in packet data"].
Definition msg_hash_in_data : message :=
  [Lit "Found special character # in packet data"].
Definition msg_checksum_syntax (checksum : bytes) : message :=
  [Lit "Received checksum has incorrect syntax. ";
   Lit "Expected two hex digits, found: "; Repr checksum].
Definition msg_checksum_mismatch (expected checksum : bytes) : message :=
  [Lit "Packet has invalid checksum. Expected "; Repr expected;
   Lit ", found "; Repr checksum; Lit "."].

Definition validate_packet (packet : bytes) : result unit :=
  let '(first_char, packet_data, hash_char, checksum) := split_packet packet in
  if length packet <? 4 then
    Raise (PacketFormatError msg_too_short)
  else if negb (bytes_eqb first_char (b "$")) then
    Raise (PacketFormatError (msg_bad_first first_char))
  else if negb (bytes_eqb hash_char (b "#")) then
    Raise (PacketFormatError (msg_bad_hash hash_char))
  (* Should not happen, but kept here for extra safety: *)
  else if bytes_in (b "$") packet_data then
    Raise (PacketFormatError msg_dollar_in_data)
  else if bytes_in (b "#") packet_data then
    Raise (PacketFormatError msg_hash_in_data)
  else if negb (_check_checksum_syntax checksum) then
    Raise (PacketFormatError (msg_checksum_syntax checksum))
  else
    let checksum_expected := compute_checksum packet_data in
    if negb (bytes_eqb checksum checksum_expected) then
      Raise (PacketFormatError (msg_checksum_mismatch checksum_expected checksum))
    else Ok tt.

End Utils.

Import Utils.

(* ================================================================= *)
(** ** client_base.py *)

Module ClientBase.

(** *** The world outside the client *)

(** What one [socket.recv] call does: it delivers some bytes, or its
    timeout expires first and it raises [socket.timeout], or it raises
    another [socket.error] (a connection reset, say). *)
Inductive recv_event :=
| Chunk (data : bytes)
| TimedOut
| RecvFails.

(** What one [socket.send] call does: it returns, or it raises
    [socket.timeout], or it raises another [socket.error] (a broken pipe,
    say). *)
Inductive send_event :=
| Sent
| SendTimedOut
| SendFails.

(** A socket: the script of its future [recv] calls (once the script is
    used up nothing arrives any more, and a [recv] times out), the script of
    its future [send] calls (once it is used up every [send] returns), and
    whether [connect], [shutdown] and [close] raise [socket.error]. *)
Record Socket := {
  sock_rx : list recv_event;
  sock_tx : list send_event;
  connect_raises : bool;
  shutdown_raises : bool;
  close_raises : bool
}.

(** The calls made on the socket, in order. *)
Inductive call :=
| CallConnect
| CallSetNoDelay
| CallSetTimeout (bound : float)
| CallRecv (bufsize : nat)
| CallSend (data : bytes)
| CallShutdown
| CallClose.

(** *** The client object, with the world it runs in *)

Record Client := {
  _socket : option Socket;
  _recv_timeout : float;
  _recv_time_start : float;
  _recv_buf : bytes;
  _no_ack_mode : bool;
  (* the world *)
  clock : nat -> float;          (* the successive readings of [time.time()] *)
  clock_reads : nat;         (* how many readings were taken *)
  new_socket : Socket;       (* what [socket.socket(...)] returns *)
  calls : list call          (* the socket calls made so far *)
}.

Definition with_socket (s : Client) (v : option Socket) : Client :=
  {| _socket := v; _recv_timeout := _recv_timeout s;
     _recv_time_start := _recv_time_start s; _recv_buf := _recv_buf s;
     _no_ack_mode := _no_ack_mode s; clock := clock s;
     clock_reads := clock_reads s; new_socket := new_socket s;
     calls := calls s |}.

Definition with_recv_timeout (s : Client) (v : float) : Client :=
  {| _socket := _socket s; _recv_timeout := v;
     _recv_time_start := _recv_time_start s; _recv_buf := _recv_buf s;
     _no_ack_mode := _no_ack_mode s; clock := clock s;
     clock_reads := clock_reads s; new_socket := new_socket s;
     calls := calls s |}.

Definition with_recv_time_start (s : Client) (v : float) : Client :=
  {| _socket := _socket s; _recv_timeout := _recv_timeout s;
     _recv_time_start := v; _recv_buf := _recv_buf s;
     _no_ack_mode := _no_ack_mode s; clock := clock s;
     clock_reads := clock_reads s; new_socket := new_socket s;
     calls := calls s |}.

Definition with_recv_buf (s : Client) (v : bytes) : Client :=
  {| _socket := _socket s; _recv_timeout := _recv_timeout s;
     _recv_time_start := _recv_time_start s; _recv_buf := v;
     _no_ack_mode := _no_ack_mode s; clock := clock s;
     clock_reads := clock_reads s; new_socket := new_socket s;
     calls := calls s |}.

Definition with_no_ack_mode (s : Client) (v : bool) : Client :=
  {| _socket := _socket s; _recv_timeout := _recv_timeout s;
     _recv_time_start := _recv_time_start s; _recv_buf := _recv_buf s;
     _no_ack_mode := v; clock := clock s;
     clock_reads := clock_reads s; new_socket := new_socket s;
     calls := calls s |}.

Definition with_clock_reads (s : Client) (v : nat) : Client :=
  {| _socket := _socket s; _recv_timeout := _recv_timeout s;
     _recv_time_start := _recv_time_start s; _recv_buf := _recv_buf s;
     _no_ack_mode := _no_ack_mode s; clock := clock s;
     clock_reads := v; new_socket := new_socket s;
     calls := calls s |}.

Definition with_calls (s : Client) (v : list call) : Client :=
  {| _socket := _socket s; _recv_timeout := _recv_timeout s;
     _recv_time_start := _recv_time_start s; _recv_buf := _recv_buf s;
     _no_ack_mode := _no_ack_mode s; clock := clock s;
     clock_reads := clock_reads s; new_socket := new_socket s;
     calls := v |}.

(** *** Methods run in a state-and-exception monad: a raised exception
    keeps the changes made to the object before it. *)

Definition M (A : Type) := Client -> result A * Client.

Definition ret {A} (a : A) : M A := fun s => (Ok a, s).

Definition raise {A} (e : exn) : M A := fun s => (Raise e, s).

Definition bind {A B} (m : M A) (k : A -> M B) : M B :=
  fun s =>
    match m s with
    | (Ok a, s') => k a s'
    | (Raise e, s') => (Raise e, s')
    end.

Definition get : M Client := fun s => (Ok s, s).

Definition modify (f : Client -> Client) : M unit := fun s => (Ok tt, f s).

Definition lift {A} (r : result A) : M A := fun s => (r, s).

(** [try: m  except cls: handler], where [catches e] says whether [e] is
    an instance of [cls]. *)
Definition try_except {A} (m : M A) (catches : exn -> bool) (handler : M A)
  : M A :=
  fun s =>
    match m s with
    | (Ok a, s') => (Ok a, s')
    | (Raise e, s') => if catches e then handler s' else (Raise e, s')
    end.

Declare Scope client_scope.
Delimit Scope client_scope with client.
Notation "x <- m ;; k" := (bind m (fun x => k))
  (at level 61, m at next level, right associativity) : client_scope.
Notation "m ;; k" := (bind m (fun _ => k))
  (at level 61, right associativity) : client_scope.
Local Open Scope client_scope.

(** [time.time()] *)
Definition time_time : M float :=
  fun s => (Ok (clock s (clock_reads s)), with_clock_reads s (S (clock_reads s))).

Definition is_socket_timeout (e : exn) : bool :=
  match e with SocketTimeout => true | _ => false end.

(** [socket.timeout] is a [socket.error] too. *)
Definition is_socket_error (e : exn) : bool :=
  match e with SocketTimeout | SocketError => true | _ => false end.

Definition log (c : call) : M unit :=
  modify (fun s => with_calls s (calls s ++ [c])).

(** A socket call that raises [socket.error] when [fails] says so. *)
Definition sock_call (c : call) (fails : Socket -> bool) : M unit :=
  log c;;
  s <- get;;
  match _socket s with
  | Some sock => if fails sock then raise SocketError else ret tt
  | None => ret tt
  end.

(** [self._socket.settimeout(bound)]: recorded, and it returns. *)
Definition sock_settimeout (bound : float) : M unit :=
  log (CallSetTimeout bound).

(** The socket with the rest of a script. *)
Definition with_rx (sock : Socket) (rx : list recv_event) : Socket :=
  {| sock_rx := rx; sock_tx := sock_tx sock;
     connect_raises := connect_raises sock;
     shutdown_raises := shutdown_raises sock;
     close_raises := close_raises sock |}.

Definition with_tx (sock : Socket) (tx : list send_event) : Socket :=
  {| sock_rx := sock_rx sock; sock_tx := tx;
     connect_raises := connect_raises sock;
     shutdown_raises := shutdown_raises sock;
     close_raises := close_raises sock |}.

(** [self._socket.send(data)]: the next event of the script.  The number of
    bytes [send] returns is not looked at by the code. *)
Definition sock_send (data : bytes) : M unit :=
  log (CallSend data);;
  s <- get;;
  match _socket s with
  | Some sock =>
      match sock_tx sock with
      | [] => ret tt
      | ev :: tx' =>
          modify (fun s => with_socket s (Some (with_tx sock tx')));;
          match ev with
          | Sent => ret tt
          | SendTimedOut => raise SocketTimeout
          | SendFails => raise SocketError
          end
      end
  | None => ret tt
  end.

(** [self._socket.recv(bufsize)]: the next event of the script. *)
Definition sock_recv (bufsize : nat) : M bytes :=
  log (CallRecv bufsize);;
  s <- get;;
  match _socket s with
  | Some sock =>
      match sock_rx sock with
      | Chunk data :: rx' =>
          modify (fun s => with_socket s (Some (with_rx sock rx')));;
          ret data
      | TimedOut :: rx' =>
          modify (fun s => with_socket s (Some (with_rx sock rx')));;
          raise SocketTimeout
      | RecvFails :: rx' =>
          modify (fun s => with_socket s (Some (with_rx sock rx')));;
          raise SocketError
      | [] => raise SocketTimeout
      end
  | None => raise SocketTimeout
  end.

(** *** class GdbRemoteClientBase *)

(* Larger timeout value is used for safety on slower target. *)
Definition DEFALUT_RECV_TIMEOUT : float := (fl 5).
(* Maximum number of bytes to receive from the socket in one go. *)
Definition RECV_BLOCK_SIZE : nat := 1024.
(* Maximum size of one received packet - safety limit. *)
Definition MAX_RECV_PACKET : nat := 128 * 1024.

Definition msg_bad_port : message :=
  [Lit "Invalid TCP port number. Expected number in range 1 - 65535."].

(** [__init__]; the host and the port are not kept, the world is given. *)
Definition init (port : Z) (clk : nat -> float) (sock : Socket) : result Client :=
  if negb ((1 <=? port)%Z && (port <=? 65535)%Z) then
    Raise (ValueError msg_bad_port)
  else
    Ok {| _socket := None;
          _recv_timeout := DEFALUT_RECV_TIMEOUT;
          _recv_time_start := (fl 0);
          _recv_buf := [];
          _no_ack_mode := false;
          clock := clk; clock_reads := 0; new_socket := sock; calls := [] |}.

Definition set_recv_timeout (timeout : float) : M unit :=
  lift (assert (fltb (fl 0) timeout));;
  modify (fun s => with_recv_timeout s timeout).

Definition set_no_ack_mode (no_ack_mode : bool) : M unit :=
  modify (fun s => with_no_ack_mode s no_ack_mode).

Definition msg_already_connected : message := [Lit "Already connected"].

Definition connect : M unit :=
  s <- get;;
  match _socket s with
  | Some _ => raise (RuntimeError msg_already_connected)
  | None =>
      modify (fun s => with_socket s (Some (new_socket s)));;
      sock_call CallConnect connect_raises;;
      sock_call CallSetNoDelay (fun _ => false);;
      modify (fun s => with_recv_buf s []);;
      (* Each connection starts with ACKs enabled *)
      modify (fun s => with_no_ack_mode s false)
  end.

Definition disconnect : M unit :=
  s <- get;;
  match _socket s with
  | Some _ =>
      try_except (sock_call CallShutdown shutdown_raises)
                 is_socket_error (ret tt);;
      try_except (sock_call CallClose close_raises)
                 is_socket_error (ret tt)
  | None => ret tt
  end;;
  modify (fun s => with_recv_buf s []);;
  modify (fun s => with_socket s None).

Definition msg_cant_send : message := [Lit "Can't send data, not connected"].

Definition _send_bytes (data : bytes) : M unit :=
  lift (assert (0 <? length data));;
  s <- get;;
  match _socket s with
  | None => raise (RuntimeError msg_cant_send)
  | Some _ => sock_send data
  end.

Definition msg_cant_recv : message := [Lit "Can't receive data, not connected"].

Definition msg_timeout (recv_timeout : float) : message :=
  [Lit "Timeout elapsed. Did not manage to receive required data within ";
   Secs recv_timeout; Lit " sec"].

Definition _start_recv_timeout : M unit :=
  now <- time_time;;
  modify (fun s => with_recv_time_start s now).

Definition _get_recv_time_left : M float :=
  s <- get;;
  lift (assert (fltb (fl 0) (_recv_time_start s)));;
  now <- time_time;;
  let time_elapsed := fsub now (_recv_time_start s) in
  let time_left := fsub (_recv_timeout s) time_elapsed in
  if fltb time_left (fl 0) then
    ret (fl 0)
  else if fltb (fl 0) time_left && fltb time_left (fl 1) then
    (* Safety: round up to 1 sec *)
    ret (fl 1)
  else
    lift (assert (fleb (fl 1) time_left));;
    ret time_left.

(** The [while len(self._recv_buf) < requested] loop of [_recv_bytes].  A
    turn that does not raise uses up one event of the socket's script, and
    a turn on a used-up script raises; [fuel] counts the turns that
    remain. *)
Fixpoint recv_bytes_loop (fuel : nat) (requested : nat) : M unit :=
  s <- get;;
  if length (_recv_buf s) <? requested then
    match fuel with
    | O => raise OutOfFuel
    | S fuel' =>
        let timeout_msg := msg_timeout (_recv_timeout s) in
        (* Determine how much time is left to complete the receive operation *)
        time_left <- _get_recv_time_left;;
        (if fltb (fl 0) time_left then
           sock_settimeout time_left;;
           data <- try_except (sock_recv RECV_BLOCK_SIZE) is_socket_timeout
                     (* Timeout exhausted while blocked on recv() *)
                     (raise (RecvTimeoutError timeout_msg));;
           modify (fun s => with_recv_buf s (_recv_buf s ++ data))
         else
           (* Timeout exhausted before we even attempted the next recv() *)
           raise (RecvTimeoutError timeout_msg));;
        recv_bytes_loop fuel' requested
    end
  else ret tt.

Definition _recv_bytes (requested : nat) : M bytes :=
  lift (assert (0 <? requested));;
  s <- get;;
  match _socket s with
  | None => raise (RuntimeError msg_cant_recv)
  | Some sock =>
      recv_bytes_loop (S (length (sock_rx sock))) requested;;
      s <- get;;
      let res := slice (_recv_buf s) 0 (Z.of_nat requested) in
      modify (fun s => with_recv_buf s (slice_from (_recv_buf s) (Z.of_nat requested)));;
      ret res
  end.

Definition _recv_byte : M bytes := _recv_bytes 1.

Definition _unrecv_bytes (bs : bytes) : M unit :=
  modify (fun s => with_recv_buf s (bs ++ _recv_buf s)).

Definition msg_nack : message :=
  [Lit "Received negative acknowledgement (NACK)"].
Definition msg_not_ack (c : bytes) : message :=
  [Lit "Received unexpected character, neither ACK or NACK: "; Repr c].

Definition check_ack : M unit :=
  _start_recv_timeout;;
  c <- _recv_byte;;
  let is_ack := bytes_eqb c (b "+") in
  let is_nack := bytes_eqb c (b "-") in
  if is_ack then
    (* All OK *)
    ret tt
  else if is_nack then
    raise (ProtocolError msg_nack)
  else
    _unrecv_bytes c;;
    raise (ProtocolError (msg_not_ack c)).

Definition send_packet (packet_data : bytes) (custom_checksum : option bytes)
    (do_check_ack : bool) : M unit :=
  data <- lift (create_packet packet_data custom_checksum);;
  _send_bytes data;;
  s <- get;;
  if do_check_ack && negb (_no_ack_mode s) then check_ack else ret tt.

Definition send_ack : M unit := _send_bytes (b "+").

Definition send_nack : M unit := _send_bytes (b "-").

Definition send_ctrl_c : M unit := _send_bytes [x03].

Definition msg_bad_start (c : bytes) : message :=
  [Lit "Unexpected character at the start of packet. Expected '$', found ";
   Repr c].
Definition msg_excessive : message :=
  [Lit "Excessive packet received - larger than "; Num MAX_RECV_PACKET;
   Lit " bytes"].

(** The [while True] loop of [recv_packet].  [packet] grows by one byte a
    turn and the turn that takes it past [MAX_RECV_PACKET] raises; [fuel]
    counts the turns that remain. *)
Fixpoint recv_packet_loop (fuel : nat) (packet : bytes) : M bytes :=
  match fuel with
  | O => raise OutOfFuel
  | S fuel' =>
      c <- _recv_byte;;
      let packet := packet ++ c in
      if MAX_RECV_PACKET <? length packet then
        (* Safety limit reached *)
        raise (ProtocolError msg_excessive)
      else if bytes_eqb c (b "#") then
        (* End of packet body *)
        ret packet
      else recv_packet_loop fuel' packet
  end.

Definition recv_packet (validate_and_ack : bool) : M bytes :=
  _start_recv_timeout;;
  let packet := [] in
  c <- _recv_byte;;
  if negb (bytes_eqb c (b "$")) then
    raise (ProtocolError (msg_bad_start c))
  else
    let packet := packet ++ c in
    packet <- recv_packet_loop MAX_RECV_PACKET packet;;
    (* Checksum *)
    cs <- _recv_bytes 2;;
    let packet := packet ++ cs in
    (if validate_and_ack then
       lift (validate_packet packet);;
       s <- get;;
       if negb (_no_ack_mode s) then send_ack else ret tt
     else ret tt);;
    ret packet.

Definition recv_and_decode_packet_data : M bytes :=
  packet <- recv_packet true;;
  let '(_, packet_data, _, _) := split_packet packet in
  lift (decode_packet_data packet_data).

End ClientBase.

Import ClientBase.
Local Open Scope client_scope.

(* ================================================================= *)
(** ** The codec as the specification words it *)

Module Spec.

Local Open Scope result_scope.

(** The bytes the encoder escapes. *)
Definition special (c : byte) : bool :=
  Byte.eqb c "}" || Byte.eqb c "$" || Byte.eqb c "#".

(** [c XOR 0x20]. *)
Definition xor20 (c : byte) : byte := byte_of_N (N.lxor (ord c) 32).

(** One payload byte on the wire: an escape pair for a special byte, the
    byte itself otherwise. *)
Definition escape_one (c : byte) : bytes :=
  if special c then ["}"; xor20 c] else [c].

Definition encode_spec (data : bytes) : bytes := flat_map escape_one data.

(** What the byte after an escape marker stands for; the [ascii] codec of
    the source refuses the result when it is 128 or more. *)
Definition unescape_one (c : byte) : result bytes :=
  if (N.lxor (ord c) 32 <? 128)%N then Ok [xor20 c] else Raise UnicodeEncodeError.

(** The run [c0 * c2]. *)
Definition expand_one (c0 c2 : byte) : result bytes :=
  if Byte.eqb c2 "#" || Byte.eqb c2 "$" then
    Raise (PacketFormatError msg_bad_count_byte)
  else if negb ((32 <=? ord c2)%N && (ord c2 <=? 126)%N) then
    Raise (PacketFormatError msg_count_out_of_range)
  else Ok (repeat c0 (N.to_nat (ord c2 - 28))).

(** The three cases of the decoder, in the order they are tried, on the
    part of the input that is still to be read. *)
Fixpoint decode_spec (data : bytes) : result bytes :=
  match data with
  | [] => Ok []
  | c0 :: t1 =>
      if Byte.eqb c0 "}" then
        match t1 with
        | [] => Raise (PacketFormatError msg_missing_after_escape)
        | c1 :: t2 =>
            let? u := unescape_one c1 in
            let? r := decode_spec t2 in
            Ok (u ++ r)
        end
      else
        match t1 with
        | c1 :: t2 =>
            if Byte.eqb c1 "*" then
              match t2 with
              | [] => Raise (PacketFormatError msg_missing_after_star)
              | c2 :: t3 =>
                  let? e := expand_one c0 c2 in
                  let? r := decode_spec t3 in
                  Ok (e ++ r)
              end
            else
              let? r := decode_spec t1 in Ok (c0 :: r)
        | [] => Ok [c0]
        end
  end.

(** The checks of [validate_packet] in the order the specification lists
    them, each stated on the packet by position: the first byte, the byte
    before the last two, the bytes in between, the last two bytes. *)
Definition validate_spec (packet : bytes) : result unit :=
  let n := length packet in
  let payload := firstn (n - 4) (skipn 1 packet) in
  let checksum := skipn (n - 2) packet in
  let first := nth 0 packet x00 in
  let delim := nth (n - 3) packet x00 in
  if n <? 4 then
    Raise (PacketFormatError msg_too_short)
  else if negb (Byte.eqb first "$") then
    Raise (PacketFormatError (msg_bad_first [first]))
  else if negb (Byte.eqb delim "#") then
    Raise (PacketFormatError (msg_bad_hash [delim]))
  else if existsb (Byte.eqb "$") payload then
    Raise (PacketFormatError msg_dollar_in_data)
  else if existsb (Byte.eqb "#") payload then
    Raise (PacketFormatError msg_hash_in_data)
  else if negb (forallb is_hex_char checksum) then
    Raise (PacketFormatError (msg_checksum_syntax checksum))
  else if negb (bytes_eqb checksum (compute_checksum payload)) then
    Raise (PacketFormatError
             (msg_checksum_mismatch (compute_checksum payload) checksum))
  else Ok tt.

(** No byte of the payload is directly followed by [*]. *)
Definition star_only_first (data : bytes) : Prop :=
  ~ In "*" (tl data).

(** Every [*] after the first byte follows a byte that gets escaped. *)
Fixpoint star_guarded (data : bytes) : Prop :=
  match data with
  | c :: (d :: _) as t => (special c = true \/ d <> "*") /\ star_guarded t
  | _ => True
  end.

(** The decoder raises nothing but a format error and the codec's refusal
    of an escaped byte of 128 or more. *)
Definition decode_failure (e : exn) : Prop :=
  e = UnicodeEncodeError \/ exists msg, e = PacketFormatError msg.

(** *** The transport as the specification words it *)

(** Arming the timeout window: one reading of the clock, kept as the start
    of the window. *)
Definition armed (s : Client) : Client :=
  with_recv_time_start (with_clock_reads s (S (clock_reads s)))
                       (clock s (clock_reads s)).

(** The script of the socket the client holds; nothing when it holds none. *)
Definition rx_of (s : Client) : list recv_event :=
  match _socket s with
  | Some sock => sock_rx sock
  | None => []
  end.

(** The script of the sends of the socket the client holds. *)
Definition tx_of (s : Client) : list send_event :=
  match _socket s with
  | Some sock => sock_tx sock
  | None => []
  end.

(** What the next [send] on the socket does. *)
Definition send_outcome (s : Client) : result unit :=
  match tx_of s with
  | SendTimedOut :: _ => Raise SocketTimeout
  | SendFails :: _ => Raise SocketError
  | _ => Ok tt
  end.

(** The client after a [send] of [data] on its socket: the call is logged
    and the script of the sends moves on. *)
Definition after_send (s : Client) (data : bytes) : Client :=
  let s1 := with_calls s (calls s ++ [CallSend data]) in
  match _socket s with
  | Some sock =>
      match sock_tx sock with
      | [] => s1
      | _ :: tx' => with_socket s1 (Some (with_tx sock tx'))
      end
  | None => s1
  end.


(** Blocking for more transport bytes until [n] are buffered: the buffer and
    the script once enough bytes are there, nothing when the transport times
    out first. *)
Fixpoint fill (rx : list recv_event) (buf : bytes) (n : nat)
  : option (bytes * list recv_event) :=
  if n <=? length buf then Some (buf, rx)
  else match rx with
       | Chunk data :: rx' => fill rx' (buf ++ data) n
       | _ => None
       end.

(** The remaining time as the code computes it when the clock reads [now]:
    [self._recv_timeout - (now - self._recv_time_start)], each subtraction
    rounded. *)
Definition time_left_at (s : Client) (now : float) : float :=
  fsub (_recv_timeout s) (fsub now (_recv_time_start s)).


(** What a read leaves as it was: the settings of the client and the clock;
    the clock is only read further, the socket is kept, the call log grows. *)
Definition same_settings (s s' : Client) : Prop :=
  _recv_timeout s' = _recv_timeout s
  /\ _recv_time_start s' = _recv_time_start s
  /\ _no_ack_mode s' = _no_ack_mode s
  /\ clock s' = clock s
  /\ new_socket s' = new_socket s
  /\ clock_reads s <= clock_reads s'
  /\ (_socket s = None <-> _socket s' = None)
  /\ (exists extra, calls s' = calls s ++ extra).


(** A socket on which [connect], [send], [shutdown] and [close] do not
    raise and [recv] follows the script [rx]. *)
Definition plain_socket (rx : list recv_event) : Socket :=
  {| sock_rx := rx; sock_tx := []; connect_raises := false;
     shutdown_raises := false; close_raises := false |}.

(** The client [GdbRemoteClientBase("localhost", 3333)] in a world where the
    clock reads [clk] and the next socket is [plain_socket rx]; the lemma
    [fresh_client_init] shows it is what [init] returns. *)
Definition fresh_client (rx : list recv_event) (clk : nat -> float) : Client :=
  {| _socket := None;
     _recv_timeout := DEFALUT_RECV_TIMEOUT;
     _recv_time_start := (fl 0);
     _recv_buf := [];
     _no_ack_mode := false;
     clock := clk; clock_reads := 0;
     new_socket := plain_socket rx;
     calls := [] |}.

(** A clock that gives the listed readings in turn, as the tests mock
    [time.time]. *)
Definition test_clock (readings : list Z) : nat -> float :=
  fun k => fl (nth k readings 0%Z).

(** That client after [connect()]. *)
Definition connected_client (rx : list recv_event) (clk : nat -> float) : Client :=
  snd (connect (fresh_client rx clk)).

End Spec.

Import Spec.

(* ================================================================= *)
(** ** Python text, and [utils.ascii_from_hex] *)

Module Text.

(** A [str] is the list of its code points. *)
Definition str := list N.

(** ["..."] for ASCII text. *)
Definition text (x : string) : str := map ord (list_byte_of_string x).

(** The exceptions of the layers above the transport: those of [exn], and
    two more built-in ones. *)
Inductive pyexn :=
| Below (e : exn)
| UnicodeDecodeError
| TypeError (msg : message).

Inductive outcome (A : Type) :=
| Done (value : A)
| Fail (e : pyexn).

Arguments Done {A} value.
Arguments Fail {A} e.

Definition bind_outcome {A B} (r : outcome A) (k : A -> outcome B) : outcome B :=
  match r with
  | Done a => k a
  | Fail e => Fail e
  end.

Declare Scope outcome_scope.
Delimit Scope outcome_scope with outcome.
Notation "'let!' x ':=' r 'in' k" :=
  (bind_outcome r (fun x => k))
  (at level 10, x name, r at level 100, k at level 200)
  : outcome_scope.
Local Open Scope outcome_scope.

Definition from_result {A} (r : result A) : outcome A :=
  match r with
  | Ok a => Done a
  | Raise e => Fail (Below e)
  end.

(** [bs.decode("ascii")] *)
Definition decode_ascii (bs : bytes) : outcome str :=
  if forallb (fun c => (ord c <? 128)%N) bs then Done (map ord bs)
  else Fail UnicodeDecodeError.

(** [t.encode("ascii")] *)
Definition encode_ascii (t : str) : outcome bytes :=
  if forallb (fun c => (c <? 128)%N) t then Done (map byte_of_N t)
  else Fail (Below UnicodeEncodeError).

(** [t.startswith(prefix)] *)
Fixpoint startswith (t prefix : str) : bool :=
  match prefix, t with
  | [], _ => true
  | p :: prefix', c :: t' => (c =? p)%N && startswith t' prefix'
  | _ :: _, [] => false
  end.

(** ASCII whitespace, as [bytes.fromhex] skips it: tab, line feed, vertical
    tab, form feed, carriage return, space. *)
Definition is_space (c : N) : bool :=
  ((9 <=? c)%N && (c <=? 13)%N) || (c =? 32)%N.

(** The value of a hexadecimal digit, of either case. *)
Definition digit_value (c : N) : option N :=
  if ((48 <=? c) && (c <=? 57))%N then Some (c - 48)%N
  else if ((97 <=? c) && (c <=? 102))%N then Some (c - 87)%N
  else if ((65 <=? c) && (c <=? 70))%N then Some (c - 55)%N
  else None.

(** The text of this [ValueError] differs between versions of the
    interpreter and is not modelled. *)
Definition msg_fromhex : message :=
  [Lit "non-hexadecimal number found in fromhex() arg"].

(** [bytes.fromhex(t)] (CPython 3.7 and later): whitespace is skipped in
    front of a pair of digits, never inside one; anything else that is no
    hexadecimal digit, a code point of 128 or more included, and a pair cut
    short by the end of the text, is refused. *)
Fixpoint fromhex (t : str) : outcome bytes :=
  match t with
  | [] => Done []
  | c :: t1 =>
      if is_space c then fromhex t1
      else
        match digit_value c with
        | None => Fail (Below (ValueError msg_fromhex))
        | Some top =>
            match t1 with
            | [] => Fail (Below (ValueError msg_fromhex))
            | d :: t2 =>
                match digit_value d with
                | None => Fail (Below (ValueError msg_fromhex))
                | Some bot =>
                    let! r := fromhex t2 in
                    Done (byte_of_N (16 * top + bot) :: r)
                end
            end
        end
  end.

Definition msg_odd_hex : message :=
  [Lit "Expected even number (whole pairs) of hex digits"].

(** [utils.ascii_from_hex] *)
Definition ascii_from_hex (hex_digits : str) : outcome str :=
  if negb (length hex_digits mod 2 =? 0) then
    Fail (Below (ValueError msg_odd_hex))
  else
    let! bs := fromhex hex_digits in
    decode_ascii bs.

End Text.

Import Text.

(* ================================================================= *)
(** ** client.py *)

Module Client.

(** Methods of [GdbRemoteClient] run on the state of the
    [GdbRemoteClientBase] they wrap, and may raise the further exceptions
    of [pyexn]. *)
Definition C (A : Type) := ClientBase.Client -> outcome A * ClientBase.Client.

Definition cret {A} (a : A) : C A := fun s => (Done a, s).

Definition cfail {A} (e : pyexn) : C A := fun s => (Fail e, s).

Definition cbind {A B} (m : C A) (k : A -> C B) : C B :=
  fun s =>
    match m s with
    | (Done a, s') => k a s'
    | (Fail e, s') => (Fail e, s')
    end.

(** A method of the wrapped object. *)
Definition base {A} (m : M A) : C A :=
  fun s => let (r, s') := m s in (from_result r, s').

(** A computation without effect on the object. *)
Definition pure {A} (r : outcome A) : C A := fun s => (r, s).

(** [try: m  except cls: handler] *)
Definition ctry {A} (m : C A) (catches : pyexn -> bool) (handler : C A) : C A :=
  fun s =>
    match m s with
    | (Done a, s') => (Done a, s')
    | (Fail e, s') => if catches e then handler s' else (Fail e, s')
    end.

Declare Scope gdb_scope.
Delimit Scope gdb_scope with gdb.
Notation "x <~ m ;; k" := (cbind m (fun x => k))
  (at level 61, m at next level, right associativity) : gdb_scope.
Local Open Scope gdb_scope.

Definition is_unicode_decode_error (e : pyexn) : bool :=
  match e with UnicodeDecodeError => true | _ => false end.

(** The argument [cmd_text : Union[str, bytes]], or a value of another type. *)
Inductive cmd_text :=
| CmdBytes (value : bytes)
| CmdStr (value : str)
| CmdOther.

Definition msg_non_ascii_command : message :=
  [Lit "Provided string contains non-ascii characters. ";
   Lit "Binary commands should be provided as 'bytes', not 'str'."].
Definition msg_command_type : message :=
  [Lit "Expected command text to be an ASCII string or bytes"].
Definition msg_binary_response : message :=
  [Lit "Expected ASCII-only response but received binary characters"].

Definition _do_send_cmd (cmd : cmd_text) : C unit :=
  cmd_bytes <~
    match cmd with
    | CmdBytes value => cret value
    | CmdStr value =>
        ctry (pure (encode_ascii value)) is_unicode_decode_error
             (cfail (Below (ValueError msg_non_ascii_command)))
    | CmdOther => cfail (TypeError msg_command_type)
    end;;
  base (send_packet cmd_bytes None true).

Definition cmd_bin_reply (cmd : cmd_text) : C bytes :=
  _ <~ _do_send_cmd cmd;;
  reply <~ base recv_and_decode_packet_data;;
  cret reply.

Definition cmd (c : cmd_text) : C str :=
  reply <~ cmd_bin_reply c;;
  ctry (pure (decode_ascii reply)) is_unicode_decode_error
       (cfail (Below (RuntimeError msg_binary_response))).

Definition cmd_no_reply (c : cmd_text) : C unit := _do_send_cmd c.

Definition ctrl_c : C unit := base send_ctrl_c.

(** The bytes the script of a socket still holds. *)
Fixpoint stream_bytes (rx : list recv_event) : nat :=
  match rx with
  | [] => 0
  | Chunk data :: rx' => length data + stream_bytes rx'
  | _ :: rx' => stream_bytes rx'
  end.

(** The [while True] loop of [get_stop_reply].  A turn that does not raise
    takes a whole packet from the buffer and the socket's script; [fuel]
    counts the turns that remain. *)
Fixpoint get_stop_reply_loop (fuel : nat) (console_text : str) : C (str * str) :=
  match fuel with
  | O => cfail (Below OutOfFuel)
  | S fuel' =>
      reply <~ base recv_and_decode_packet_data;;
      reply_str <~ pure (decode_ascii reply);;
      if startswith reply_str (text "O") then
        (* Received console output ("O" message). Keep waiting
           for the actual stop reply that will arrive later. *)
        shown <~ pure (ascii_from_hex (slice_from reply_str 1));;
        get_stop_reply_loop fuel' (console_text ++ shown)
      else
        (* Stop reply was received. *)
        cret (reply_str, console_text)
  end.

Definition get_stop_reply : C (str * str) :=
  fun s =>
    get_stop_reply_loop
      (S (length (_recv_buf s) + stream_bytes (rx_of s))) [] s.

End Client.

Import Client.

(* ================================================================= *)
(** ** What further properties are stated with *)

Module Observe.

(** A call a receive makes on the socket: a blocking read of at most
    [RECV_BLOCK_SIZE] bytes, or the setting of its bound to one unit or
    more. *)
Definition is_read_call (c : call) : bool :=
  match c with
  | CallSetTimeout bound => fleb (fl 1) bound
  | CallRecv bufsize => bufsize =? RECV_BLOCK_SIZE
  | _ => false
  end.



(** Two lower-case hexadecimal digits for each code point, as the peer
    writes console output. *)
Definition hexlify (t : str) : str :=
  flat_map (fun c => map ord (format_02x c)) t.

(** The value of the two digits of a checksum. *)
Definition checksum_value (cs : bytes) : option N :=
  match cs with
  | [h; l] =>
      match digit_value (ord h), digit_value (ord l) with
      | Some hi, Some lo => Some (16 * hi + lo)%N
      | _, _ => None
      end
  | _ => None
  end.

(** The client [GdbRemoteClientBase(host, 3333)] in a world where the clock
    reads [clk] and the next socket is [sock]. *)
Definition client_on (sock : Socket) (clk : nat -> float) : Client :=
  {| _socket := None;
     _recv_timeout := DEFALUT_RECV_TIMEOUT;
     _recv_time_start := (fl 0);
     _recv_buf := [];
     _no_ack_mode := false;
     clock := clk; clock_reads := 0;
     new_socket := sock;
     calls := [] |}.

(** A socket that refuses the connection. *)
Definition refusing_socket : Socket :=
  {| sock_rx := []; sock_tx := []; connect_raises := true;
     shutdown_raises := true; close_raises := false |}.

(** Going from [s] to [s'] took the bytes [r] off the front of the stream:
    the buffer of [s] followed by the chunks fetched in between is [r]
    followed by the buffer of [s']. *)
Definition takes (s : Client) (r : bytes) (s' : Client) : Prop :=
  exists chunks,
    rx_of s = map Chunk chunks ++ rx_of s'
    /\ _recv_buf s ++ concat chunks = r ++ _recv_buf s'.

(** The bytes that can still be read: those buffered and those the
    transport holds. *)
Definition pending (s : Client) : nat :=
  length (_recv_buf s) + stream_bytes (rx_of s).

(** The calls a receive adds to the log are reads. *)
Definition only_reads (s s' : Client) : Prop :=
  exists reads, calls s' = calls s ++ reads /\ forallb is_read_call reads = true.

End Observe.

Import Observe.

(* ================================================================= *)
(** * Proofs: Python slices *)

Section Slices.

Context {A : Type}.

Lemma slice_nat (l : list A) (lo hi : nat) :
  slice l (Z.of_nat lo) (Z.of_nat hi) = firstn (hi - lo) (skipn lo l).
Proof.
  unfold slice, clamp.
  destruct (Z.ltb_spec (Z.of_nat lo) 0); [lia|].
  destruct (Z.ltb_spec (Z.of_nat hi) 0); [lia|].
  destruct (Nat.le_gt_cases lo (length l)) as [Hlo|Hlo].
  - rewrite (Z.min_l (Z.of_nat lo)) by lia. rewrite Nat2Z.id.
    destruct (Nat.le_gt_cases hi (length l)) as [Hhi|Hhi].
    + rewrite Z.min_l by lia. f_equal. lia.
    + rewrite Z.min_r by lia.
      rewrite !firstn_all2; try reflexivity; rewrite length_skipn; lia.
  - rewrite (Z.min_r (Z.of_nat lo)) by lia. rewrite Nat2Z.id.
    rewrite skipn_all, (skipn_all2 l) by lia. now rewrite !firstn_nil.
Qed.

Lemma slice_peek (l : list A) (pos k : nat) :
  slice l (Z.of_nat pos) (Z.of_nat pos + Z.of_nat k) = firstn k (skipn pos l).
Proof.
  rewrite <- Nat2Z.inj_add, slice_nat. f_equal. lia.
Qed.

Lemma slice_prefix (l : list A) (k : nat) :
  slice l 0 (Z.of_nat k) = firstn k l.
Proof.
  change 0%Z with (Z.of_nat 0). rewrite slice_nat, Nat.sub_0_r. reflexivity.
Qed.

Lemma slice_from_nat (l : list A) (k : nat) :
  slice_from l (Z.of_nat k) = skipn k l.
Proof.
  unfold slice_from. rewrite slice_nat.
  apply firstn_all2. rewrite length_skipn. lia.
Qed.

Lemma skipn_cons_inv (l : list A) pos x t :
  skipn pos l = x :: t -> pos < length l /\ skipn (S pos) l = t.
Proof.
  intros H. split.
  - destruct (Nat.le_gt_cases (length l) pos) as [Hle|]; [|assumption].
    rewrite skipn_all2 in H by assumption. discriminate.
  - change (S pos) with (1 + pos). rewrite <- skipn_skipn, H. reflexivity.
Qed.

End Slices.

(* ================================================================= *)
(** * Proofs: the codec *)

Lemma byte_eqb_refl c : Byte.eqb c c = true.
Proof. now apply Byte.byte_dec_lb. Qed.

Lemma byte_eqb_eq c d : Byte.eqb c d = true <-> c = d.
Proof.
  split; [apply Byte.byte_dec_bl | apply Byte.byte_dec_lb].
Qed.

Lemma byte_eqb_neq c d : Byte.eqb c d = false <-> c <> d.
Proof.
  split.
  - apply Byte.eqb_false.
  - intros H. destruct (Byte.eqb c d) eqn:E; [|reflexivity].
    apply byte_eqb_eq in E. contradiction.
Qed.

Lemma bytes_eqb_eq x y : bytes_eqb x y = true <-> x = y.
Proof.
  revert y. induction x as [|c x IH]; intros [|d y]; simpl; split; intros H;
    try discriminate; try reflexivity.
  - apply andb_true_iff in H as [H1 H2]. apply byte_eqb_eq in H1.
    apply IH in H2. congruence.
  - injection H as Hc Hx. apply andb_true_iff. split.
    + now apply byte_eqb_eq.
    + now apply IH.
Qed.

Lemma bytes_eqb_refl x : bytes_eqb x x = true.
Proof. now apply bytes_eqb_eq. Qed.

Lemma bytes_eqb_neq x y : bytes_eqb x y = false <-> x <> y.
Proof.
  split.
  - intros H E. apply bytes_eqb_eq in E. congruence.
  - intros H. destruct (bytes_eqb x y) eqn:E; [|reflexivity].
    apply bytes_eqb_eq in E. contradiction.
Qed.

Lemma bytes_in_single c l : bytes_in [c] l = existsb (Byte.eqb c) l.
Proof.
  induction l as [|d l IH]; simpl; [reflexivity|].
  now rewrite IH, andb_true_r.
Qed.

Lemma existsb_eqb_In c l : existsb (Byte.eqb c) l = true <-> In c l.
Proof.
  rewrite existsb_exists. split.
  - intros [d [Hin E]]. apply byte_eqb_eq in E. now subst.
  - intros H. exists c. split; [assumption | apply byte_eqb_refl].
Qed.

Lemma repeat_bytes_single c n : repeat_bytes [c] n = repeat c n.
Proof.
  unfold repeat_bytes. induction n as [|n IH]; simpl; [reflexivity|].
  now rewrite IH.
Qed.

Lemma needs_escape_single c : _needs_escape [c] = Ok (special c).
Proof.
  unfold _needs_escape, special. simpl.
  destruct (Byte.eqb c "}"), (Byte.eqb c "$"), (Byte.eqb c "#"); reflexivity.
Qed.

Lemma escape_byte_single c : _escape_byte [c] = unescape_one c.
Proof. reflexivity. Qed.

Lemma special_cases c :
  special c = true <-> c = "}" \/ c = "$" \/ c = "#".
Proof.
  unfold special. rewrite !orb_true_iff, !byte_eqb_eq. tauto.
Qed.

Lemma unescape_special c :
  special c = true -> unescape_one c = Ok [xor20 c].
Proof.
  intros H. apply special_cases in H as [-> | [-> | ->]]; reflexivity.
Qed.

Lemma expand_run_length_single c0 c2 :
  _expand_run_length_sequence [c0; "*"; c2] = expand_one c0 c2.
Proof.
  unfold _expand_run_length_sequence, expand_one. simpl.
  rewrite !andb_true_r, orb_false_r.
  destruct (Byte.eqb c2 "#" || Byte.eqb c2 "$"); [reflexivity|].
  change (slice [c0; "*"; c2] 0 1) with [c0].
  now rewrite repeat_bytes_single.
Qed.

(** *** The encoder *)

Lemma encode_loop_spec todo : forall data pos res,
  pos + todo <= length data ->
  encode_loop todo data pos res
  = Ok (res ++ encode_spec (firstn todo (skipn pos data))).
Proof.
  induction todo as [|todo IH]; intros data pos res Hlen; simpl.
  - now rewrite app_nil_r.
  - change 1%Z with (Z.of_nat 1). rewrite slice_peek.
    destruct (skipn pos data) as [|c t] eqn:E.
    + assert (length (skipn pos data) = 0) as H0 by now rewrite E.
      rewrite length_skipn in H0. lia.
    + apply skipn_cons_inv in E as [_ E].
      simpl firstn. rewrite needs_escape_single. simpl bind_result.
      unfold encode_spec at 1. simpl flat_map. fold (encode_spec (firstn todo t)).
      unfold escape_one. destruct (special c) eqn:Hs.
      * rewrite escape_byte_single, (unescape_special c Hs). simpl bind_result.
        rewrite Nat.add_1_r, IH by lia. rewrite E.
        f_equal. rewrite <- app_assoc. reflexivity.
      * rewrite Nat.add_1_r, IH by lia. rewrite E.
        f_equal. rewrite <- app_assoc. reflexivity.
Qed.

Lemma encode_packet_data_spec data :
  encode_packet_data data = Ok (encode_spec data).
Proof.
  unfold encode_packet_data. rewrite encode_loop_spec by (simpl; lia).
  simpl. now rewrite firstn_all.
Qed.

(** *** The decoder *)

Lemma decode_spec_escape c1 t2 :
  decode_spec ("}" :: c1 :: t2)
  = (let? u := unescape_one c1 in
     let? r := decode_spec t2 in Ok (u ++ r))%result.
Proof. reflexivity. Qed.

Lemma decode_spec_run c0 c2 t3 :
  c0 <> "}" ->
  decode_spec (c0 :: "*" :: c2 :: t3)
  = (let? e := expand_one c0 c2 in
     let? r := decode_spec t3 in Ok (e ++ r))%result.
Proof.
  intros H. apply byte_eqb_neq in H. cbn [decode_spec]. now rewrite H.
Qed.

Lemma decode_spec_plain c0 c1 t2 :
  c0 <> "}" -> c1 <> "*" ->
  decode_spec (c0 :: c1 :: t2)
  = (let? r := decode_spec (c1 :: t2) in Ok (c0 :: r))%result.
Proof.
  intros H0 H1. apply byte_eqb_neq in H0, H1.
  change (decode_spec (c0 :: c1 :: t2))
    with (if Byte.eqb c0 "}"
          then (let? u := unescape_one c1 in
                let? r := decode_spec t2 in Ok (u ++ r))%result
          else if Byte.eqb c1 "*"
               then match t2 with
                    | [] => Raise (PacketFormatError msg_missing_after_star)
                    | c2 :: t3 =>
                        (let? e := expand_one c0 c2 in
                         let? r := decode_spec t3 in Ok (e ++ r))%result
                    end
               else (let? r := decode_spec (c1 :: t2) in Ok (c0 :: r))%result).
  now rewrite H0, H1.
Qed.

Ltac app_done :=
  simpl; rewrite <- ?app_assoc; simpl; rewrite ?app_nil_r; reflexivity.

Lemma decode_loop_spec fuel : forall data pos res,
  length data - pos <= fuel ->
  decode_loop fuel data pos res
  = (let? r := decode_spec (skipn pos data) in Ok (res ++ r))%result.
Proof.
  induction fuel as [|fuel IH]; intros data pos res Hfuel.
  - assert (length data <= pos) as Hpos by lia.
    simpl. destruct (Nat.ltb_spec pos (length data)); [lia|].
    rewrite skipn_all2 by assumption. simpl. now rewrite app_nil_r.
  - simpl. destruct (Nat.ltb_spec pos (length data)) as [Hlt|Hge].
    2:{ rewrite skipn_all2 by assumption. simpl. now rewrite app_nil_r. }
    change 3%Z with (Z.of_nat 3). rewrite slice_peek.
    destruct (skipn pos data) as [|c0 t1] eqn:E0.
    { assert (length (skipn pos data) = 0) as H0 by now rewrite E0.
      rewrite length_skipn in H0. lia. }
    pose proof (skipn_cons_inv _ _ _ _ E0) as [_ E1].
    assert (skipn (pos + 1) data = t1) as E1' by now rewrite Nat.add_1_r.
    change (b "}") with ["}"]. change (b "*") with ["*"].
    destruct t1 as [|c1 t2].
    + (* one byte left *)
      cbn [firstn]. change (slice [c0] 0 1) with [c0].
      change (slice [c0] 1 2) with (@nil byte).
      simpl bytes_eqb. rewrite andb_true_r. simpl decode_spec.
      destruct (Byte.eqb c0 "}"); [reflexivity|].
      rewrite IH by lia. rewrite E1'. simpl. now rewrite app_nil_r.
    + pose proof (skipn_cons_inv _ _ _ _ E1) as [_ E2].
      assert (skipn (pos + 2) data = t2) as E2'.
      { now replace (pos + 2) with (S (S pos)) by lia. }
      assert (firstn 3 (c0 :: c1 :: t2) = c0 :: c1 :: firstn 1 t2) as -> by reflexivity.
      destruct t2 as [|c2 t3].
      * (* two bytes left *)
        cbn [firstn]. change (slice [c0; c1] 0 1) with [c0].
        change (slice [c0; c1] 1 2) with [c1].
        simpl bytes_eqb. rewrite !andb_true_r. simpl decode_spec.
        destruct (Byte.eqb c0 "}").
        -- unfold _unescape_byte. rewrite escape_byte_single.
           destruct (unescape_one c1) as [u|e]; [|reflexivity].
           cbn [bind_result]. rewrite IH by lia. rewrite E2'. app_done.
        -- destruct (Byte.eqb c1 "*"); [reflexivity|].
           rewrite IH by lia. rewrite E1'. simpl.
           destruct (Byte.eqb c1 "}"); [reflexivity|]. app_done.
      * (* three bytes or more left *)
        pose proof (skipn_cons_inv _ _ _ _ E2) as [_ E3].
        assert (skipn (pos + 3) data = t3) as E3'.
        { now replace (pos + 3) with (S (S (S pos))) by lia. }
        cbn [firstn]. change (slice [c0; c1; c2] 0 1) with [c0].
        change (slice [c0; c1; c2] 1 2) with [c1].
        simpl bytes_eqb. rewrite !andb_true_r.
        destruct (Byte.eqb c0 "}") eqn:Hesc.
        -- apply byte_eqb_eq in Hesc. subst c0. rewrite decode_spec_escape.
           unfold _unescape_byte. rewrite escape_byte_single.
           destruct (unescape_one c1) as [u|e]; [|reflexivity].
           cbn [bind_result]. rewrite IH by lia. rewrite E2'.
           destruct (decode_spec (c2 :: t3)); [app_done | reflexivity].
        -- apply byte_eqb_neq in Hesc.
           destruct (Byte.eqb c1 "*") eqn:Hstar.
           ++ apply byte_eqb_eq in Hstar. subst c1.
              rewrite decode_spec_run by assumption.
              simpl (length _ <? 3). cbv iota.
              rewrite expand_run_length_single.
              destruct (expand_one c0 c2) as [e|e]; [|reflexivity].
              cbn [bind_result]. rewrite IH by lia. rewrite E3'.
              destruct (decode_spec t3); [app_done | reflexivity].
           ++ apply byte_eqb_neq in Hstar.
              rewrite decode_spec_plain by assumption.
              rewrite IH by lia. rewrite E1'.
              destruct (decode_spec (c1 :: c2 :: t3)); [app_done | reflexivity].
Qed.

Lemma decode_packet_data_spec data :
  decode_packet_data data = decode_spec data.
Proof.
  unfold decode_packet_data. rewrite decode_loop_spec by lia.
  simpl. now destruct (decode_spec data).
Qed.

Lemma decode_spec_failure n : forall d e,
  length d <= n -> decode_spec d = Raise e -> decode_failure e.
Proof.
  unfold decode_failure.
  induction n as [|n IH]; intros d e Hd H.
  - destruct d; simpl in *; [discriminate | lia].
  - destruct d as [|c0 [|c1 t2]].
    + discriminate.
    + simpl in H. destruct (Byte.eqb c0 "}"); inversion H; eauto.
    + simpl in Hd.
      destruct (Byte.eqb c0 "}") eqn:Hesc.
      { apply byte_eqb_eq in Hesc. subst c0. rewrite decode_spec_escape in H.
        unfold unescape_one in H.
        destruct (_ <? _)%N; cbn [bind_result] in H; [|inversion H; eauto].
        destruct (decode_spec t2) eqn:E2; cbn [bind_result] in H; [discriminate|].
        inversion H; subst. apply (IH t2); [lia | assumption]. }
      apply byte_eqb_neq in Hesc.
      destruct (Byte.eqb c1 "*") eqn:Hstar.
      { apply byte_eqb_eq in Hstar. subst c1.
        destruct t2 as [|c2 t3].
        - cbn [decode_spec] in H. apply byte_eqb_neq in Hesc. rewrite Hesc in H.
          simpl in H. inversion H; eauto.
        - rewrite decode_spec_run in H by assumption. unfold expand_one in H.
          destruct (_ || _); [inversion H; eauto|].
          destruct (negb _); [inversion H; eauto|].
          cbn [bind_result] in H.
          destruct (decode_spec t3) eqn:E3; cbn [bind_result] in H; [discriminate|].
          inversion H; subst. apply (IH t3); [simpl in Hd; lia | assumption]. }
      apply byte_eqb_neq in Hstar.
      rewrite decode_spec_plain in H by assumption.
      destruct (decode_spec (c1 :: t2)) eqn:E1; cbn [bind_result] in H; [discriminate|].
      inversion H; subst. apply (IH (c1 :: t2)); [simpl; lia | assumption].
Qed.

(** The decoder never runs out of turns. *)
Lemma decode_loop_fuel data : decode_packet_data data <> Raise OutOfFuel.
Proof.
  rewrite decode_packet_data_spec. intros H.
  apply (decode_spec_failure (length data)) in H; [|lia].
  destruct H as [H | [msg H]]; discriminate.
Qed.

Lemma xor20_ord c : ord (xor20 c) = N.lxor (ord c) 32.
Proof. destruct c; reflexivity. Qed.

Lemma escape_one_special c :
  c = "}" \/ c = "$" \/ c = "#" -> escape_one c = ["}"; xor20 c].
Proof.
  intros H. apply special_cases in H. unfold escape_one. now rewrite H.
Qed.

Lemma escape_one_plain c :
  c <> "}" -> c <> "$" -> c <> "#" -> escape_one c = [c].
Proof.
  intros H1 H2 H3. unfold escape_one.
  destruct (special c) eqn:E; [|reflexivity].
  apply special_cases in E. tauto.
Qed.

(** C9. [encode_packet_data] replaces each of the three bytes [}], [$], [#]
    by [}] followed by the byte XOR 0x20 and copies every other byte, [*]
    included; [encode_packet_data(b"}$#*") == b"}]}\x04}\x03*"]. *)
Theorem C9_encode_escapes_exactly_three (data : bytes) :
  encode_packet_data data
  = Ok (flat_map (fun c => if special c then ["}"; xor20 c] else [c]) data)
  /\ (forall c, special c = true <-> c = "}" \/ c = "$" \/ c = "#")
  /\ (forall c, ord (xor20 c) = N.lxor (ord c) 32)
  /\ special "*" = false
  /\ encode_packet_data (b "}$#*") = Ok ["}"; "]"; "}"; x04; "}"; x03; "*"].
Proof.
  split; [apply encode_packet_data_spec|].
  split; [apply special_cases|].
  split; [apply xor20_ord|].
  split; reflexivity.
Qed.

(** C3. The decoder on an escape marker followed by a byte of 0x80 or more:
    the specification has it output that byte XOR 0x20; the code raises
    [UnicodeEncodeError], because [_unescape_byte] builds its result with
    [chr(...).encode("ascii")]. *)
Theorem C3_escaped_high_byte_raises (c1 : byte) (rest : bytes) :
  (128 <= ord c1)%N ->
  decode_packet_data ("}" :: c1 :: rest) = Raise UnicodeEncodeError.
Proof.
  intros H. rewrite decode_packet_data_spec, decode_spec_escape.
  unfold unescape_one.
  assert ((N.lxor (ord c1) 32 <? 128)%N = false) as ->; [|reflexivity].
  revert H. destruct c1; cbv; congruence.
Qed.

Lemma C3_escaped_high_byte_raises_witness :
  decode_packet_data ["}"; x80] = Raise UnicodeEncodeError.
Proof.
  apply (C3_escaped_high_byte_raises x80 []). vm_compute. discriminate.
Defined.

(** *** Round trip *)

Lemma xor20_involutive_special c :
  special c = true -> unescape_one (xor20 c) = Ok [c].
Proof.
  intros H. apply special_cases in H as [-> | [-> | ->]]; reflexivity.
Qed.

Lemma encode_spec_cons c t : encode_spec (c :: t) = escape_one c ++ encode_spec t.
Proof. reflexivity. Qed.

(** The first byte of an encoded payload is the escape marker or the
    payload's own first byte. *)
Lemma encode_spec_head d t :
  exists e rest, encode_spec (d :: t) = e :: rest
    /\ (special d = true /\ e = "}" \/ special d = false /\ e = d).
Proof.
  rewrite encode_spec_cons. unfold escape_one.
  destruct (special d); simpl; eauto 6.
Qed.

Lemma special_false_not_escape c : special c = false -> c <> "}".
Proof. intros H ->. discriminate. Qed.

Lemma roundtrip_star_guarded data :
  star_guarded data -> decode_spec (encode_spec data) = Ok data.
Proof.
  induction data as [|c t IH]; intros Hg; [reflexivity|].
  assert (star_guarded t) as Ht by (destruct t; [exact I | apply Hg]).
  specialize (IH Ht).
  rewrite encode_spec_cons. unfold escape_one.
  destruct (special c) eqn:Hs.
  - cbn [app]. rewrite decode_spec_escape, (xor20_involutive_special c Hs).
    cbn [bind_result]. rewrite IH. reflexivity.
  - cbn [app]. pose proof (special_false_not_escape c Hs) as Hc.
    destruct t as [|d t'].
    + simpl. apply byte_eqb_neq in Hc. now rewrite Hc.
    + destruct (encode_spec_head d t') as [e [rest [He Hcase]]].
      rewrite He in *. rewrite decode_spec_plain, IH; [reflexivity | assumption |].
      destruct Hg as [[Hg | Hg] _]; [congruence|].
      destruct Hcase as [[_ ->] | [_ ->]]; [discriminate | assumption].
Qed.

Lemma star_only_first_guarded data : star_only_first data -> star_guarded data.
Proof.
  unfold star_only_first.
  induction data as [|c t IH]; intros H; [exact I|].
  destruct t as [|d t']; [exact I|]. simpl in H. split.
  - right. intros ->. apply H. now left.
  - apply IH. simpl. intros Hin. apply H. now right.
Qed.

Lemma encode_spec_no_special data :
  Forall (fun c => special c = false) data -> encode_spec data = data.
Proof.
  induction 1 as [|c t Hc _ IH]; [reflexivity|].
  rewrite encode_spec_cons, IH. unfold escape_one. now rewrite Hc.
Qed.

(** C1, as the claim states it, fails: [b"a* "] holds none of [}], [$], [#];
    it is encoded as itself and decoded as the run [b"aaaa"]. *)
Lemma C1_roundtrip_fails_on_star :
  Forall (fun c => c <> "}" /\ c <> "$" /\ c <> "#") (b "a* ")
  /\ encode_packet_data (b "a* ") = Ok (b "a* ")
  /\ decode_packet_data (b "a* ") = Ok (b "aaaa")
  /\ b "aaaa" <> b "a* ".
Proof.
  split.
  - repeat constructor; discriminate.
  - repeat split; try reflexivity. discriminate.
Qed.

Lemma expand_one_length c0 c2 e : expand_one c0 c2 = Ok e -> 4 <= length e.
Proof.
  unfold expand_one. destruct (_ || _); [discriminate|].
  destruct (N.leb_spec 32 (ord c2)) as [Hlo|]; [|discriminate].
  destruct (ord c2 <=? 126)%N; [|discriminate]. simpl.
  intros H. injection H as <-. rewrite repeat_length. lia.
Qed.

(** Without escape markers the decoder never shortens its input, and it
    lengthens it as soon as some byte is directly followed by [*]. *)
Lemma decode_spec_grows n : forall t r,
  length t <= n -> ~ In "}" t -> decode_spec t = Ok r ->
  length t <= length r /\ (In "*" (tl t) -> length t < length r).
Proof.
  induction n as [|n IH]; intros t r Hn Hesc H.
  - destruct t; [|simpl in Hn; lia]. injection H as <-. simpl.
    split; [lia | tauto].
  - destruct t as [|c0 [|c1 t2]].
    + injection H as <-. simpl. split; [lia | tauto].
    + assert (c0 <> "}") as Hc0 by (intros ->; apply Hesc; now left).
      apply byte_eqb_neq in Hc0. simpl in H. rewrite Hc0 in H.
      injection H as <-. simpl. split; [lia | tauto].
    + assert (c0 <> "}") as Hc0 by (intros ->; apply Hesc; now left).
      destruct (Byte.eqb c1 "*") eqn:Hstar.
      * apply byte_eqb_eq in Hstar. subst c1.
        destruct t2 as [|c2 t3].
        { cbn [decode_spec] in H. apply byte_eqb_neq in Hc0. rewrite Hc0 in H.
          discriminate. }
        rewrite decode_spec_run in H by assumption.
        destruct (expand_one c0 c2) as [e|] eqn:He; [|discriminate].
        apply expand_one_length in He. cbn [bind_result] in H.
        destruct (decode_spec t3) as [r3|] eqn:H3; [|discriminate].
        injection H as <-.
        apply IH in H3 as [H3 _].
        -- rewrite length_app. simpl. split; intros; lia.
        -- simpl in Hn. lia.
        -- intros Hin. apply Hesc. simpl. tauto.
      * apply byte_eqb_neq in Hstar.
        rewrite decode_spec_plain in H by assumption.
        destruct (decode_spec (c1 :: t2)) as [r1|] eqn:H1; [|discriminate].
        injection H as <-.
        apply IH in H1 as [Hle Hlt].
        -- simpl in *. split; [lia|].
           intros [Hin | Hin]; [congruence|]. apply Hlt in Hin. lia.
        -- simpl in Hn. simpl. lia.
        -- intros Hin. apply Hesc. now right.
Qed.

Lemma no_special_no_escape p :
  Forall (fun c => c <> "}" /\ c <> "$" /\ c <> "#") p ->
  ~ In "}" p /\ Forall (fun c => special c = false) p.
Proof.
  intros H. split.
  - intros Hin. rewrite Forall_forall in H. apply H in Hin.
    destruct Hin as [Hne _]. now apply Hne.
  - eapply Forall_impl; [|exact H]. intros c Hc. cbv beta in Hc.
    destruct (special c) eqn:E; [|reflexivity].
    apply special_cases in E. tauto.
Qed.

(** C1, amended.  For every payload holding none of [}], [$], [#], decoding
    the encoding of the payload yields the payload again exactly when no
    byte of the payload is directly followed by [*]. *)
Theorem C1_roundtrip_without_star_runs (p : bytes) :
  Forall (fun c => c <> "}" /\ c <> "$" /\ c <> "#") p ->
  ((exists e, encode_packet_data p = Ok e /\ decode_packet_data e = Ok p)
   <-> star_only_first p).
Proof.
  intros Hp. apply no_special_no_escape in Hp as [Hesc Hplain]. split.
  - intros [e [He Hd]]. rewrite encode_packet_data_spec in He.
    injection He as <-. rewrite (encode_spec_no_special p Hplain) in Hd.
    rewrite decode_packet_data_spec in Hd.
    apply (decode_spec_grows (length p)) in Hd as [_ Hlt]; [|lia|assumption].
    intros Hin. apply Hlt in Hin. lia.
  - intros Hstar. exists (encode_spec p). split.
    + apply encode_packet_data_spec.
    + rewrite decode_packet_data_spec.
      apply roundtrip_star_guarded, star_only_first_guarded, Hstar.
Qed.

Lemma C1_roundtrip_without_star_runs_witness :
  exists e, encode_packet_data (b "*abc") = Ok e
            /\ decode_packet_data e = Ok (b "*abc").
Proof.
  apply (C1_roundtrip_without_star_runs (b "*abc")).
  - repeat constructor; discriminate.
  - unfold star_only_first. simpl. intros [H | [H | [H | []]]]; discriminate.
Defined.

(** *** Splitting and validating *)

Lemma clamp_nonneg n i : (0 <= i)%Z -> clamp n i = Z.min i n.
Proof.
  intros H. unfold clamp. destruct (Z.ltb_spec i 0); [lia | reflexivity].
Qed.

Lemma clamp_neg n i : (i < 0)%Z -> clamp n i = Z.max (i + n) 0.
Proof.
  intros H. unfold clamp. destruct (Z.ltb_spec i 0); [reflexivity | lia].
Qed.

Lemma slice_bounds {A} (l : list A) lo hi (i j : nat) :
  clamp (Z.of_nat (length l)) lo = Z.of_nat i ->
  clamp (Z.of_nat (length l)) hi = Z.of_nat j ->
  slice l lo hi = firstn (j - i) (skipn i l).
Proof.
  intros Hlo Hhi. unfold slice. rewrite Hlo, Hhi, Nat2Z.id.
  f_equal. lia.
Qed.

Lemma firstn_1_skipn {A} (l : list A) k d :
  k < length l -> firstn 1 (skipn k l) = [nth k l d].
Proof.
  revert k. induction l as [|x l IH]; intros k Hk; simpl in Hk; [lia|].
  destruct k as [|k]; [reflexivity|]. simpl. apply IH. lia.
Qed.

(** [split_packet] on a packet of four bytes or more, by position. *)
Lemma split_packet_long packet :
  4 <= length packet ->
  split_packet packet
  = ([nth 0 packet x00],
     firstn (length packet - 4) (skipn 1 packet),
     [nth (length packet - 3) packet x00],
     skipn (length packet - 2) packet).
Proof.
  intros Hn. unfold split_packet, slice_from.
  rewrite (slice_bounds packet 0 1 0 1),
          (slice_bounds packet 1 (-3) 1 (length packet - 3)),
          (slice_bounds packet (-3) (-2) (length packet - 3) (length packet - 2)),
          (slice_bounds packet (-2) _ (length packet - 2) (length packet));
    try (first [rewrite clamp_neg by lia | rewrite clamp_nonneg by lia]; lia).
  replace (1 - 0) with 1 by lia.
  replace (length packet - 2 - (length packet - 3)) with 1 by lia.
  replace (length packet - 3 - 1) with (length packet - 4) by lia.
  change (skipn 0 packet) with packet.
  rewrite <- (skipn_O packet) at 1.
  rewrite (firstn_1_skipn packet 0 x00), (firstn_1_skipn packet _ x00) by lia.
  f_equal. apply firstn_all2. rewrite length_skipn. lia.
Qed.

Lemma validate_packet_spec packet : validate_packet packet = validate_spec packet.
Proof.
  unfold validate_packet, validate_spec.
  destruct (Nat.ltb_spec (length packet) 4) as [Hlt|Hge].
  - destruct (split_packet packet) as [[[f d] h] c].
    destruct (Nat.ltb_spec (length packet) 4); [reflexivity | lia].
  - rewrite split_packet_long by assumption.
    destruct (Nat.ltb_spec (length packet) 4); [lia|].
    change (b "$") with ["$"]. change (b "#") with ["#"].
    rewrite !bytes_in_single. simpl bytes_eqb. rewrite !andb_true_r.
    unfold _check_checksum_syntax.
    rewrite length_skipn.
    replace (length packet - (length packet - 2)) with 2 by lia.
    reflexivity.
Qed.

Lemma forallb_is_hex l : forallb is_hex_char l = true <-> Forall (fun c => is_hex_char c = true) l.
Proof.
  rewrite forallb_forall, Forall_forall. reflexivity.
Qed.

Lemma not_existsb_eqb c l : existsb (Byte.eqb c) l = false <-> ~ In c l.
Proof.
  rewrite <- existsb_eqb_In. destruct (existsb _ l); split; congruence.
Qed.

Lemma validate_spec_ok packet :
  validate_spec packet = Ok tt <->
  4 <= length packet
  /\ nth 0 packet x00 = "$"
  /\ nth (length packet - 3) packet x00 = "#"
  /\ ~ In "$" (firstn (length packet - 4) (skipn 1 packet))
  /\ ~ In "#" (firstn (length packet - 4) (skipn 1 packet))
  /\ Forall (fun c => is_hex_char c = true) (skipn (length packet - 2) packet)
  /\ skipn (length packet - 2) packet
     = compute_checksum (firstn (length packet - 4) (skipn 1 packet)).
Proof.
  unfold validate_spec.
  rewrite <- !not_existsb_eqb, <- forallb_is_hex, <- !byte_eqb_eq, <- bytes_eqb_eq.
  destruct (Nat.ltb_spec (length packet) 4);
    [split; [discriminate | lia]|].
  destruct (Byte.eqb (nth 0 packet x00) "$"); simpl;
    [|split; [discriminate | intuition discriminate]].
  destruct (Byte.eqb (nth (length packet - 3) packet x00) "#"); simpl;
    [|split; [discriminate | intuition discriminate]].
  destruct (existsb (Byte.eqb "$") _); simpl;
    [split; [discriminate | intuition discriminate]|].
  destruct (existsb (Byte.eqb "#") _); simpl;
    [split; [discriminate | intuition discriminate]|].
  destruct (forallb is_hex_char _); simpl;
    [|split; [discriminate | intuition discriminate]].
  destruct (bytes_eqb _ _); simpl;
    [|split; [discriminate | intuition discriminate]].
  intuition.
Qed.

Lemma validate_spec_failure packet :
  validate_spec packet = Ok tt
  \/ exists msg, validate_spec packet = Raise (PacketFormatError msg).
Proof.
  unfold validate_spec.
  repeat match goal with
         | |- context [if ?c then _ else _] => destruct c
         end; eauto.
Qed.

Lemma format_messages_distinct first delim checksum expected :
  NoDup [msg_too_short; msg_bad_first first; msg_bad_hash delim;
         msg_dollar_in_data; msg_hash_in_data;
         msg_checksum_syntax checksum;
         msg_checksum_mismatch expected checksum].
Proof.
  repeat constructor; simpl; intuition discriminate.
Qed.

(** C4. [validate_packet] makes the six checks in the stated order and
    raises the format error of the first one that fails; it returns exactly
    when none fails, and raises nothing but format errors; the messages of
    the checks differ from one another; the packets the specification lists
    are accepted and rejected as it says. *)
Theorem C4_validate_packet_conditions (packet : bytes) :
  validate_packet packet = validate_spec packet
  /\ (validate_packet packet = Ok tt <->
      4 <= length packet
      /\ nth 0 packet x00 = "$"
      /\ nth (length packet - 3) packet x00 = "#"
      /\ ~ In "$" (firstn (length packet - 4) (skipn 1 packet))
      /\ ~ In "#" (firstn (length packet - 4) (skipn 1 packet))
      /\ Forall (fun c => is_hex_char c = true) (skipn (length packet - 2) packet)
      /\ skipn (length packet - 2) packet
         = compute_checksum (firstn (length packet - 4) (skipn 1 packet)))
  /\ (validate_packet packet = Ok tt
      \/ exists msg, validate_packet packet = Raise (PacketFormatError msg))
  /\ (forall first delim checksum expected,
        NoDup [msg_too_short; msg_bad_first first; msg_bad_hash delim;
               msg_dollar_in_data; msg_hash_in_data;
               msg_checksum_syntax checksum;
               msg_checksum_mismatch expected checksum])
  /\ validate_packet (b "$abc#26") = Ok tt
  /\ validate_packet (b "$#00") = Ok tt
  /\ validate_packet (b "$a#") = Raise (PacketFormatError msg_too_short)
  /\ validate_packet (b "a#00") = Raise (PacketFormatError (msg_bad_first (b "a")))
  /\ validate_packet (b "$b00") = Raise (PacketFormatError (msg_bad_hash (b "b")))
  /\ validate_packet (b "$#xx")
     = Raise (PacketFormatError (msg_checksum_syntax (b "xx")))
  /\ validate_packet (b "$#01")
     = Raise (PacketFormatError (msg_checksum_mismatch (b "00") (b "01"))).
Proof.
  rewrite validate_packet_spec.
  split; [reflexivity|].
  split; [apply validate_spec_ok|].
  split; [apply validate_spec_failure|].
  split; [apply format_messages_distinct|].
  repeat split; reflexivity.
Qed.

(** *** Building a packet *)

Lemma hex_digit_is_hex d : (d < 16)%N -> is_hex_char (hex_digit d) = true.
Proof.
  intros H. unfold hex_digit.
  assert (N.to_nat d < 16) as Hn by lia. clear H.
  generalize dependent (N.to_nat d). intros n Hn.
  do 16 (destruct n as [|n]; [reflexivity|]). lia.
Qed.

Lemma compute_checksum_syntax data :
  _check_checksum_syntax (compute_checksum data) = true.
Proof.
  unfold _check_checksum_syntax, compute_checksum, format_02x. simpl.
  rewrite !hex_digit_is_hex; [reflexivity | |].
  - apply N.mod_lt. discriminate.
  - apply N.Div0.div_lt_upper_bound.
    change (16 * 16)%N with 256%N. apply N.mod_lt. discriminate.
Qed.

Lemma compute_checksum_length data : length (compute_checksum data) = 2.
Proof. reflexivity. Qed.

Lemma escape_one_framing c x :
  In x (escape_one c) -> x <> "$" /\ x <> "#".
Proof.
  unfold escape_one. destruct (special c) eqn:Hs.
  - apply special_cases in Hs.
    intros [<- | [<- | []]]; [split; discriminate|].
    destruct Hs as [-> | [-> | ->]]; split; discriminate.
  - intros [<- | []]. split; intros ->; discriminate.
Qed.

(** An encoded payload holds no framing byte. *)
Lemma encode_spec_framing data :
  ~ In "$" (encode_spec data) /\ ~ In "#" (encode_spec data).
Proof.
  unfold encode_spec. split; intros H; apply in_flat_map in H as [c [_ H]];
    apply escape_one_framing in H; tauto.
Qed.

Lemma split_packet_framed first enc delim cs :
  length cs = 2 ->
  split_packet (first :: enc ++ delim :: cs) = ([first], enc, [delim], cs).
Proof.
  intros Hcs.
  assert (length (first :: enc ++ delim :: cs) = length enc + 4) as Hlen.
  { simpl. rewrite length_app. simpl. lia. }
  rewrite split_packet_long by lia. rewrite Hlen.
  replace (length enc + 4 - 4) with (length enc) by lia.
  replace (length enc + 4 - 3) with (S (length enc)) by lia.
  replace (length enc + 4 - 2) with (S (S (length enc))) by lia.
  cbn [nth]. rewrite !skipn_cons, skipn_O.
  rewrite firstn_app, firstn_all, Nat.sub_diag, firstn_O, app_nil_r.
  rewrite app_nth2, Nat.sub_diag by lia. cbn [nth].
  rewrite skipn_app, skipn_all2 by lia.
  replace (S (length enc) - length enc) with 1 by lia. reflexivity.
Qed.

(** C10. The packet [create_packet] builds for a payload without a custom
    checksum passes [validate_packet], and [split_packet] takes it apart into
    [$], the encoded payload, [#] and the checksum of the encoded payload. *)
Theorem C10_created_packet_validates (p : bytes) :
  exists enc pkt,
    encode_packet_data p = Ok enc
    /\ create_packet p None = Ok pkt
    /\ validate_packet pkt = Ok tt
    /\ split_packet pkt = (b "$", enc, b "#", compute_checksum enc).
Proof.
  exists (encode_spec p), ("$" :: encode_spec p ++ "#" :: compute_checksum (encode_spec p)).
  pose proof (split_packet_framed "$" (encode_spec p) "#"
                (compute_checksum (encode_spec p)) eq_refl) as Hsplit.
  split; [apply encode_packet_data_spec|].
  split.
  { unfold create_packet. rewrite encode_packet_data_spec. simpl.
    now rewrite <- app_assoc. }
  split; [|exact Hsplit].
  unfold validate_packet. rewrite Hsplit.
  assert ((length ("$" :: encode_spec p ++ "#" :: compute_checksum (encode_spec p)) <? 4)
          = false) as ->.
  { apply Nat.ltb_ge. simpl. rewrite length_app. simpl. lia. }
  change (b "$") with ["$"]. change (b "#") with ["#"].
  rewrite !bytes_eqb_refl, !bytes_in_single. cbn [negb].
  destruct (encode_spec_framing p) as [Hd Hh].
  apply not_existsb_eqb in Hd, Hh. rewrite Hd, Hh.
  rewrite compute_checksum_syntax. reflexivity.
Qed.

(* ================================================================= *)
(** * Proofs: the connection *)

Local Open Scope client_scope.

Lemma connect_when_connected s sock :
  _socket s = Some sock ->
  connect s = (Raise (RuntimeError msg_already_connected), s).
Proof.
  intros H. unfold connect, bind, get. rewrite H. reflexivity.
Qed.

Lemma connect_outcome s s' :
  connect s = (Ok tt, s') ->
  _socket s = None /\ _socket s' = Some (new_socket s)
  /\ _no_ack_mode s' = false /\ _recv_buf s' = [].
Proof.
  unfold connect, bind, get. destruct (_socket s) eqn:Hs; [discriminate|].
  unfold sock_call, log, modify, bind, get, raise, ret. simpl.
  destruct (connect_raises (new_socket s)); [discriminate|].
  intros H. injection H as <-. simpl. auto.
Qed.

Lemma connect_succeeds s :
  _socket s = None -> connect_raises (new_socket s) = false ->
  exists s', connect s = (Ok tt, s').
Proof.
  intros Hs Hc. unfold connect, bind, get. rewrite Hs.
  unfold sock_call, log, modify, bind, get, raise, ret. simpl.
  rewrite Hc. eexists. reflexivity.
Qed.

Lemma disconnect_outcome s :
  exists s', disconnect s = (Ok tt, s')
    /\ _socket s' = None /\ _recv_buf s' = []
    /\ (_socket s = None -> s' = with_socket (with_recv_buf s []) None).
Proof.
  unfold disconnect, bind, get. destruct (_socket s) as [sock|] eqn:Hs.
  - unfold try_except, sock_call, log, modify, bind, get, raise, ret. simpl.
    rewrite Hs.
    destruct (shutdown_raises sock); simpl; rewrite Hs;
      destruct (close_raises sock); simpl;
      eexists; (split; [reflexivity|]); simpl; repeat split; discriminate.
  - unfold modify, ret. simpl. eexists. split; [reflexivity|]. simpl. auto.
Qed.

Lemma send_bytes_disconnected s data :
  _socket s = None -> 0 < length data ->
  _send_bytes data s = (Raise (RuntimeError msg_cant_send), s).
Proof.
  intros Hs Hd. unfold _send_bytes, bind, lift, get, assert.
  apply Nat.ltb_lt in Hd. rewrite Hd, Hs. reflexivity.
Qed.

Lemma recv_bytes_disconnected s n :
  _socket s = None -> 0 < n ->
  _recv_bytes n s = (Raise (RuntimeError msg_cant_recv), s).
Proof.
  intros Hs Hn. unfold _recv_bytes, bind, lift, get, assert.
  apply Nat.ltb_lt in Hn. rewrite Hn, Hs. reflexivity.
Qed.

Lemma start_recv_timeout_run s : _start_recv_timeout s = (Ok tt, armed s).
Proof. reflexivity. Qed.

Lemma check_ack_disconnected s :
  _socket s = None ->
  check_ack s = (Raise (RuntimeError msg_cant_recv), armed s).
Proof.
  intros Hs. unfold check_ack, bind. rewrite start_recv_timeout_run.
  unfold _recv_byte. rewrite recv_bytes_disconnected; auto.
Qed.

Lemma recv_packet_disconnected s v :
  _socket s = None ->
  recv_packet v s = (Raise (RuntimeError msg_cant_recv), armed s).
Proof.
  intros Hs. unfold recv_packet, bind. rewrite start_recv_timeout_run.
  unfold _recv_byte. rewrite recv_bytes_disconnected; auto.
Qed.

Lemma recv_and_decode_disconnected s :
  _socket s = None ->
  recv_and_decode_packet_data s = (Raise (RuntimeError msg_cant_recv), armed s).
Proof.
  intros Hs. unfold recv_and_decode_packet_data, bind.
  now rewrite recv_packet_disconnected.
Qed.

Lemma create_packet_run data custom :
  create_packet data custom
  = match custom with
    | Some cs =>
        if _check_checksum_syntax cs
        then Ok (b "$" ++ encode_spec data ++ b "#" ++ cs)
        else Raise (ValueError msg_bad_custom_checksum)
    | None =>
        Ok (b "$" ++ encode_spec data ++ b "#" ++ compute_checksum (encode_spec data))
    end.
Proof.
  unfold create_packet. rewrite encode_packet_data_spec.
  destruct custom as [cs|]; simpl.
  - destruct (_check_checksum_syntax cs); simpl; [|reflexivity].
    now rewrite <- app_assoc.
  - now rewrite <- app_assoc.
Qed.

Lemma send_packet_disconnected s data custom ack :
  _socket s = None ->
  send_packet data custom ack s
  = (Raise (match custom with
            | Some cs =>
                if _check_checksum_syntax cs
                then RuntimeError msg_cant_send
                else ValueError msg_bad_custom_checksum
            | None => RuntimeError msg_cant_send
            end), s).
Proof.
  intros Hs. unfold send_packet, bind, lift. rewrite create_packet_run.
  destruct custom as [cs|]; [destruct (_check_checksum_syntax cs)|];
    try reflexivity;
    rewrite send_bytes_disconnected; auto; simpl; lia.
Qed.

(** C8, as the claim states it, fails for one send operation: on a client
    that was never connected, [send_packet] with a malformed custom checksum
    raises the [ValueError] of [create_packet], not the [RuntimeError] that
    reports the missing connection. *)
Lemma C8_bad_checksum_while_disconnected :
  _socket (fresh_client [] (fun _ => (fl 1000))) = None
  /\ send_packet (b "abc") (Some (b "xx")) true (fresh_client [] (fun _ => (fl 1000)))
     = (Raise (ValueError msg_bad_custom_checksum), fresh_client [] (fun _ => (fl 1000)))
  /\ ValueError msg_bad_custom_checksum <> RuntimeError msg_cant_send.
Proof.
  repeat split; try reflexivity. discriminate.
Qed.

(** C8, amended.  [connect] on a connected client raises the
    invalid-operation error; on a disconnected client every receive
    operation and every send operation raises the invalid-operation error,
    except [send_packet] with a malformed custom checksum, which raises the
    invalid-argument error first; [disconnect] never raises, leaves the
    client disconnected with an empty buffer, and changes nothing when
    repeated; every successful [connect] leaves ACK-mode enabled and the
    buffer empty. *)
Theorem C8_connection_lifecycle (s : Client) :
  (forall sock, _socket s = Some sock ->
     connect s = (Raise (RuntimeError msg_already_connected), s))
  /\ (_socket s = None ->
      send_ack s = (Raise (RuntimeError msg_cant_send), s)
      /\ send_nack s = (Raise (RuntimeError msg_cant_send), s)
      /\ send_ctrl_c s = (Raise (RuntimeError msg_cant_send), s)
      /\ (forall data custom ack,
            send_packet data custom ack s
            = (Raise (match custom with
                      | Some cs =>
                          if _check_checksum_syntax cs
                          then RuntimeError msg_cant_send
                          else ValueError msg_bad_custom_checksum
                      | None => RuntimeError msg_cant_send
                      end), s))
      /\ (forall n, 0 < n ->
            _recv_bytes n s = (Raise (RuntimeError msg_cant_recv), s))
      /\ check_ack s = (Raise (RuntimeError msg_cant_recv), armed s)
      /\ (forall v, recv_packet v s = (Raise (RuntimeError msg_cant_recv), armed s))
      /\ recv_and_decode_packet_data s
         = (Raise (RuntimeError msg_cant_recv), armed s)
      /\ _socket (armed s) = None /\ _recv_buf (armed s) = _recv_buf s)
  /\ (exists s', disconnect s = (Ok tt, s')
                 /\ _socket s' = None /\ _recv_buf s' = []
                 /\ disconnect s' = (Ok tt, s'))
  /\ (_socket s = None -> _recv_buf s = [] -> disconnect s = (Ok tt, s))
  /\ (forall s', connect s = (Ok tt, s') ->
        _no_ack_mode s' = false /\ _recv_buf s' = []
        /\ _socket s' = Some (new_socket s))
  /\ (_socket s = None -> connect_raises (new_socket s) = false ->
      exists s', connect s = (Ok tt, s')).
Proof.
  split; [intros sock; apply connect_when_connected|].
  split.
  { intros Hs.
    split; [apply send_bytes_disconnected; simpl; auto|].
    split; [apply send_bytes_disconnected; simpl; auto|].
    split; [apply send_bytes_disconnected; simpl; auto|].
    split; [intros; now apply send_packet_disconnected|].
    split; [intros; now apply recv_bytes_disconnected|].
    split; [now apply check_ack_disconnected|].
    split; [intros; now apply recv_packet_disconnected|].
    split; [now apply recv_and_decode_disconnected|].
    split; [exact Hs | reflexivity]. }
  split.
  { destruct (disconnect_outcome s) as [s' [Hd [Hs' [Hb _]]]].
    exists s'. repeat split; try assumption.
    destruct (disconnect_outcome s') as [s'' [Hd' [_ [_ Heq]]]].
    rewrite Hd'. f_equal. rewrite (Heq Hs').
    destruct s'; simpl in *. now subst. }
  split.
  { intros Hs Hb. destruct (disconnect_outcome s) as [s' [Hd [_ [_ Heq]]]].
    rewrite Hd, (Heq Hs). f_equal. destruct s; simpl in *. now subst. }
  split.
  { intros s' H. apply connect_outcome in H. tauto. }
  apply connect_succeeds.
Qed.

(* ================================================================= *)
(** * Proofs: the receive buffer and the timeout window *)

(** *** The order of [float]s, as far as the timeout policy needs it *)

Lemma fl_0 : fl 0 = S754_zero false.
Proof. reflexivity. Qed.

Lemma fl_1 : fl 1 = S754_finite false 4503599627370496 (-52).
Proof. vm_compute. reflexivity. Qed.

Ltac float_cases x :=
  rewrite ?fl_0, ?fl_1 in *;
  unfold fltb, fleb, feqb, SFltb, SFleb, SFeqb, SFcompare in *;
  destruct x as [[|]|[|]| |[|] ?m ?e]; try discriminate; auto.

(** A positive float is not below zero. *)
Lemma float_positive x : fltb (fl 0) x = true -> fltb x (fl 0) = false.
Proof. intros H. float_cases x. Qed.


(** A float that is one or more is positive, and not below one. *)
Lemma float_one_or_more x :
  fleb (fl 1) x = true ->
  fltb x (fl 0) = false /\ fltb (fl 0) x = true /\ fltb x (fl 1) = false.
Proof.
  intros H. float_cases x.
  rewrite (Z.compare_antisym (-52) e).
  destruct (-52 ?= e)%Z; cbn [CompOpp] in *; try discriminate; auto.
  rewrite <- (Pos.compare_cont_antisym _ _ Eq). cbn [CompOpp].
  destruct (Pos.compare_cont Eq 4503599627370496 m); try discriminate; auto.
Qed.

(** A float that equals zero is neither below nor above zero, nor one or
    more. *)
Lemma float_zero x :
  feqb x (fl 0) = true ->
  fltb x (fl 0) = false /\ fltb (fl 0) x = false /\ fleb (fl 1) x = false.
Proof. intros H. float_cases x. Qed.

Lemma get_recv_time_left_run s :
  _get_recv_time_left s
  = if fltb (fl 0) (_recv_time_start s) then
      let time_left := time_left_at s (clock s (clock_reads s)) in
      let s1 := with_clock_reads s (S (clock_reads s)) in
      if fltb time_left (fl 0) then (Ok (fl 0), s1)
      else if fltb (fl 0) time_left && fltb time_left (fl 1) then (Ok (fl 1), s1)
      else if fleb (fl 1) time_left then (Ok time_left, s1)
      else (Raise AssertionError, s1)
    else (Raise AssertionError, s).
Proof.
  unfold _get_recv_time_left, time_left_at, bind, get, lift, assert, time_time, ret.
  destruct (fltb (fl 0) (_recv_time_start s)); [|reflexivity]. simpl.
  destruct (fltb _ (fl 0)); [reflexivity|].
  destruct (fltb (fl 0) _ && fltb _ (fl 1)); [reflexivity|].
  destruct (fleb (fl 1) _); reflexivity.
Qed.

Lemma sock_recv_run s bufsize :
  sock_recv bufsize s
  = let s1 := with_calls s (calls s ++ [CallRecv bufsize]) in
    match _socket s with
    | Some sock =>
        match sock_rx sock with
        | Chunk data :: rx' => (Ok data, with_socket s1 (Some (with_rx sock rx')))
        | TimedOut :: rx' =>
            (Raise SocketTimeout, with_socket s1 (Some (with_rx sock rx')))
        | RecvFails :: rx' =>
            (Raise SocketError, with_socket s1 (Some (with_rx sock rx')))
        | [] => (Raise SocketTimeout, s1)
        end
    | None => (Raise SocketTimeout, s1)
    end.
Proof.
  unfold sock_recv, log, bind, get, modify, ret, raise. simpl.
  destruct (_socket s) as [sock|]; [|reflexivity].
  destruct (sock_rx sock) as [|[d| |] rx']; reflexivity.
Qed.

(** One turn of the loop of [_recv_bytes]. *)
Lemma recv_bytes_loop_unfold fuel n s :
  recv_bytes_loop fuel n s
  = if length (_recv_buf s) <? n then
      match fuel with
      | O => (Raise OutOfFuel, s)
      | S fuel' =>
          match _get_recv_time_left s with
          | (Ok time_left, s1) =>
              if fltb (fl 0) time_left then
                match sock_recv RECV_BLOCK_SIZE
                        (with_calls s1 (calls s1 ++ [CallSetTimeout time_left])) with
                | (Ok data, s2) =>
                    recv_bytes_loop fuel' n (with_recv_buf s2 (_recv_buf s2 ++ data))
                | (Raise e, s2) =>
                    if is_socket_timeout e
                    then (Raise (RecvTimeoutError (msg_timeout (_recv_timeout s))), s2)
                    else (Raise e, s2)
                end
              else (Raise (RecvTimeoutError (msg_timeout (_recv_timeout s))), s1)
          | (Raise e, s1) => (Raise e, s1)
          end
      end
    else (Ok tt, s).
Proof.
  destruct fuel as [|fuel']; simpl; unfold bind at 1, get;
    destruct (length (_recv_buf s) <? n); try reflexivity.
  unfold bind at 1. destruct (_get_recv_time_left s) as [[t|e] s1]; [|reflexivity].
  unfold bind at 1.
  destruct (fltb (fl 0) t); [|reflexivity].
  unfold bind at 1, sock_settimeout, log, modify. unfold bind at 1.
  unfold try_except.
  destruct (sock_recv RECV_BLOCK_SIZE _) as [[d|e] s2]; [reflexivity|].
  destruct (is_socket_timeout e); reflexivity.
Qed.

(** *** [fill] *)

Lemma fill_enough rx buf n : n <= length buf -> fill rx buf n = Some (buf, rx).
Proof.
  intros H. apply Nat.leb_le in H. destruct rx; simpl; now rewrite H.
Qed.

Lemma fill_more d rx buf n :
  length buf < n -> fill (Chunk d :: rx) buf n = fill rx (buf ++ d) n.
Proof.
  intros H. simpl. destruct (Nat.leb_spec n (length buf)); [lia | reflexivity].
Qed.

Lemma fill_stuck rx buf n :
  length buf < n -> (forall d rx', rx <> Chunk d :: rx') ->
  fill rx buf n = None.
Proof.
  intros H Hno. destruct rx as [|[d| |] rx']; simpl;
    destruct (Nat.leb_spec n (length buf)); try lia; try reflexivity.
  now destruct (Hno d rx').
Qed.

(** What [fill] answers: the chunks it took, each of them needed. *)
Lemma fill_spec rx : forall buf n buf' rx',
  fill rx buf n = Some (buf', rx') ->
  n <= length buf'
  /\ exists chunks,
       rx = map Chunk chunks ++ rx'
       /\ buf' = buf ++ concat chunks
       /\ forall i, i < length chunks ->
            length (buf ++ concat (firstn i chunks)) < n.
Proof.
  induction rx as [|ev rx IH]; intros buf n buf' rx' H.
  - simpl in H. destruct (Nat.leb_spec n (length buf)); [|discriminate].
    injection H as <- <-. split; [assumption|].
    exists []. simpl. rewrite app_nil_r. repeat split. intros i Hi. lia.
  - destruct (Nat.le_gt_cases n (length buf)) as [Hle|Hgt].
    + rewrite fill_enough in H by assumption. injection H as <- <-.
      split; [assumption|].
      exists []. simpl. rewrite app_nil_r. repeat split. intros i Hi. lia.
    + destruct ev as [d| |].
      2,3: (rewrite fill_stuck in H; [discriminate | assumption | intros; discriminate]).
      rewrite fill_more in H by assumption.
      apply IH in H as [Hn [chunks [-> [-> Hneed]]]].
      split; [assumption|].
      exists (d :: chunks). simpl. rewrite <- app_assoc. repeat split.
      intros [|i] Hi; simpl.
      * now rewrite app_nil_r.
      * rewrite app_assoc. apply Hneed. simpl in Hi. lia.
Qed.




(** *** [_recv_bytes] *)

Lemma same_settings_refl s : same_settings s s.
Proof.
  unfold same_settings. repeat split; auto. exists []. now rewrite app_nil_r.
Qed.

Lemma same_settings_trans s1 s2 s3 :
  same_settings s1 s2 -> same_settings s2 s3 -> same_settings s1 s3.
Proof.
  unfold same_settings.
  intros (A1 & A2 & A3 & A4 & A5 & A6 & A7 & [e1 A8])
         (B1 & B2 & B3 & B4 & B5 & B6 & B7 & [e2 B8]).
  repeat split; try congruence; try lia; try tauto.
  exists (e1 ++ e2). rewrite B8, A8. now rewrite app_assoc.
Qed.


Lemma get_recv_time_left_ok s t s1 :
  _get_recv_time_left s = (Ok t, s1) ->
  s1 = with_clock_reads s (S (clock_reads s)).
Proof.
  rewrite get_recv_time_left_run. cbv zeta.
  destruct (fltb (fl 0) (_recv_time_start s)); [|discriminate].
  destruct (fltb _ (fl 0)); [intros H; inversion H; reflexivity|].
  destruct (_ && _); [intros H; inversion H; reflexivity|].
  destruct (fleb (fl 1) _); intros H; inversion H; reflexivity.
Qed.


Lemma recv_bytes_loop_sound fuel : forall n s s',
  recv_bytes_loop fuel n s = (Ok tt, s') ->
  fill (rx_of s) (_recv_buf s) n = Some (_recv_buf s', rx_of s')
  /\ same_settings s s'.
Proof.
  induction fuel as [|fuel IH]; intros n s s' H;
    rewrite recv_bytes_loop_unfold in H;
    destruct (Nat.ltb_spec (length (_recv_buf s)) n) as [Hlt|Hge];
    try discriminate;
    try (injection H as <-; split;
         [now apply fill_enough | apply same_settings_refl]).
  destruct (_get_recv_time_left s) as [[t|e] s1] eqn:Ht; [|discriminate].
  apply get_recv_time_left_ok in Ht. subst s1.
  destruct (fltb (fl 0) t); [|discriminate].
  rewrite sock_recv_run in H. cbv zeta in H. simpl in H.
  unfold rx_of at 1.
  destruct (_socket s) as [sock|] eqn:Hsock; [|discriminate].
  destruct (sock_rx sock) as [|[d| |] rx'] eqn:Hrx; try discriminate.
  apply IH in H as [Hfill Hsame]. simpl in Hfill.
  rewrite fill_more by assumption. split; [exact Hfill|].
  eapply same_settings_trans; [|exact Hsame].
  unfold same_settings. simpl. rewrite Hsock.
  repeat split; auto; try discriminate.
  eexists. rewrite <- app_assoc. reflexivity.
Qed.


Lemma recv_bytes_unfold n s :
  _recv_bytes n s
  = if 0 <? n then
      match _socket s with
      | None => (Raise (RuntimeError msg_cant_recv), s)
      | Some sock =>
          match recv_bytes_loop (S (length (sock_rx sock))) n s with
          | (Ok _, s1) =>
              (Ok (firstn n (_recv_buf s1)),
               with_recv_buf s1 (skipn n (_recv_buf s1)))
          | (Raise e, s1) => (Raise e, s1)
          end
      end
    else (Raise AssertionError, s).
Proof.
  unfold _recv_bytes, bind at 1, lift, assert.
  destruct (0 <? n); [|reflexivity].
  unfold bind at 1, get. destruct (_socket s) as [sock|]; [|reflexivity].
  unfold bind at 1.
  destruct (recv_bytes_loop _ n s) as [[[]|e] s1]; [|reflexivity].
  unfold bind, get, modify, ret.
  now rewrite slice_prefix, slice_from_nat.
Qed.

Lemma recv_bytes_sound n s r s' :
  _recv_bytes n s = (Ok r, s') ->
  0 < n /\ _socket s <> None
  /\ exists buf',
       fill (rx_of s) (_recv_buf s) n = Some (buf', rx_of s')
       /\ r = firstn n buf' /\ _recv_buf s' = skipn n buf'
       /\ length r = n
       /\ same_settings s s'.
Proof.
  rewrite recv_bytes_unfold.
  destruct (Nat.ltb_spec 0 n) as [Hn|]; [|discriminate].
  destruct (_socket s) as [sock|] eqn:Hsock; [|discriminate].
  destruct (recv_bytes_loop _ n s) as [[[]|e] s1] eqn:Hloop; [|discriminate].
  intros H. injection H as <- <-.
  apply recv_bytes_loop_sound in Hloop as [Hfill Hsame].
  split; [assumption|]. split; [discriminate|].
  exists (_recv_buf s1). split; [exact Hfill|].
  split; [reflexivity|]. split; [reflexivity|].
  split.
  - apply fill_spec in Hfill as [Hlen _]. rewrite length_firstn. lia.
  - eapply same_settings_trans; [exact Hsame|].
    unfold same_settings. simpl. repeat split; auto; try tauto.
    exists []. now rewrite app_nil_r.
Qed.


(** The loop of [_recv_bytes] never runs out of turns. *)
Lemma recv_bytes_loop_fuel fuel : forall n s,
  length (rx_of s) < fuel ->
  fst (recv_bytes_loop fuel n s) <> Raise OutOfFuel.
Proof.
  induction fuel as [|fuel IH]; intros n s Hfuel; [lia|].
  rewrite recv_bytes_loop_unfold.
  destruct (length (_recv_buf s) <? n); [|discriminate].
  rewrite get_recv_time_left_run. cbv zeta.
  destruct (fltb (fl 0) (_recv_time_start s)); [|discriminate].
  assert (forall t,
            fst (if fltb (fl 0) t
                 then match sock_recv RECV_BLOCK_SIZE
                              (with_calls (with_clock_reads s (S (clock_reads s)))
                                 (calls (with_clock_reads s (S (clock_reads s)))
                                  ++ [CallSetTimeout t])) with
                      | (Ok data, s2) =>
                          recv_bytes_loop fuel n
                            (with_recv_buf s2 (_recv_buf s2 ++ data))
                      | (Raise e, s2) =>
                          if is_socket_timeout e
                          then (Raise (RecvTimeoutError (msg_timeout (_recv_timeout s))), s2)
                          else (Raise e, s2)
                      end
                 else (Raise (RecvTimeoutError (msg_timeout (_recv_timeout s))),
                       with_clock_reads s (S (clock_reads s))))
            <> Raise OutOfFuel) as Hturn.
  { intros t. destruct (fltb (fl 0) t); [|discriminate].
    rewrite sock_recv_run. cbv zeta. simpl.
    unfold rx_of in Hfuel.
    destruct (_socket s) as [sock|]; [|discriminate].
    destruct (sock_rx sock) as [|[d| |] rx'] eqn:Hrx; try discriminate.
    apply IH. unfold rx_of. simpl. simpl in Hfuel. lia. }
  destruct (fltb _ (fl 0)); [apply Hturn|].
  destruct (_ && _); [apply Hturn|].
  destruct (fleb (fl 1) _); [apply Hturn | discriminate].
Qed.

Lemma recv_bytes_fuel n s : fst (_recv_bytes n s) <> Raise OutOfFuel.
Proof.
  rewrite recv_bytes_unfold.
  destruct (0 <? n); [|discriminate].
  destruct (_socket s) as [sock|] eqn:Hsock; [|discriminate].
  pose proof (recv_bytes_loop_fuel (S (length (sock_rx sock))) n s) as H.
  destruct (recv_bytes_loop _ n s) as [[[]|e] s1]; [discriminate|].
  simpl in *. intros Heq. injection Heq as ->.
  apply H; [unfold rx_of; rewrite Hsock; lia | reflexivity].
Qed.

(** *** [recv_packet] *)

Lemma MAX_RECV_PACKET_large : 1024 <= MAX_RECV_PACKET.
Proof. unfold MAX_RECV_PACKET. lia. Qed.

Lemma recv_packet_loop_unfold fuel packet s :
  recv_packet_loop (S fuel) packet s
  = match _recv_byte s with
    | (Ok c, s1) =>
        if MAX_RECV_PACKET <? length (packet ++ c) then
          (Raise (ProtocolError msg_excessive), s1)
        else if bytes_eqb c (b "#") then (Ok (packet ++ c), s1)
        else recv_packet_loop fuel (packet ++ c) s1
    | (Raise e, s1) => (Raise e, s1)
    end.
Proof.
  cbn [recv_packet_loop]. unfold bind at 1.
  destruct (_recv_byte s) as [[c|e] s1]; [|reflexivity].
  destruct (MAX_RECV_PACKET <? length (packet ++ c)); [reflexivity|].
  destruct (bytes_eqb c (b "#")); reflexivity.
Qed.

Lemma sock_send_run data s :
  sock_send data s = (send_outcome s, after_send s data).
Proof.
  unfold sock_send, send_outcome, after_send, tx_of, log, bind, get, modify, ret, raise.
  simpl. destruct (_socket s) as [sock|]; [|reflexivity].
  destruct (sock_tx sock) as [|[| |] tx']; reflexivity.
Qed.

Lemma send_bytes_run data s :
  _send_bytes data s
  = if 0 <? length data then
      match _socket s with
      | None => (Raise (RuntimeError msg_cant_send), s)
      | Some _ => (send_outcome s, after_send s data)
      end
    else (Raise AssertionError, s).
Proof.
  unfold _send_bytes, bind at 1, lift, assert.
  destruct (0 <? length data); [|reflexivity].
  unfold bind, get.
  destruct (_socket s); [apply sock_send_run | reflexivity].
Qed.

Lemma send_outcome_fuel s : send_outcome s <> Raise OutOfFuel.
Proof. unfold send_outcome. destruct (tx_of s) as [|[| |] tx']; discriminate. Qed.

Lemma send_ack_connected s :
  _socket s <> None ->
  send_ack s = (send_outcome s, after_send s (b "+")).
Proof.
  intros H. unfold send_ack. rewrite send_bytes_run. simpl.
  destruct (_socket s); [reflexivity | contradiction].
Qed.

(** What a [send] leaves as it was. *)
Lemma after_send_same s data :
  same_settings s (after_send s data)
  /\ _recv_buf (after_send s data) = _recv_buf s
  /\ rx_of (after_send s data) = rx_of s
  /\ clock_reads (after_send s data) = clock_reads s
  /\ calls (after_send s data) = calls s ++ [CallSend data]
  /\ tx_of (after_send s data) = tl (tx_of s).
Proof.
  unfold after_send, same_settings, rx_of, tx_of.
  destruct (_socket s) as [sock|] eqn:Hsock; [destruct (sock_tx sock) eqn:Htx|];
    simpl; rewrite ?Hsock, ?Htx; simpl;
    (split; [|auto]);
    (split; [reflexivity|]); (split; [reflexivity|]); (split; [reflexivity|]);
    (split; [reflexivity|]); (split; [reflexivity|]); (split; [lia|]);
    (split; [split; intros; congruence|]); eexists; reflexivity.
Qed.



Lemma recv_packet_unfold v s :
  recv_packet v s
  = match _recv_byte (armed s) with
    | (Raise e, s1) => (Raise e, s1)
    | (Ok c, s1) =>
        if negb (bytes_eqb c (b "$")) then
          (Raise (ProtocolError (msg_bad_start c)), s1)
        else
          match recv_packet_loop MAX_RECV_PACKET c s1 with
          | (Raise e, s2) => (Raise e, s2)
          | (Ok packet, s2) =>
              match _recv_bytes 2 s2 with
              | (Raise e, s3) => (Raise e, s3)
              | (Ok cs, s3) =>
                  if v then
                    match validate_packet (packet ++ cs) with
                    | Raise e => (Raise e, s3)
                    | Ok _ =>
                        if negb (_no_ack_mode s3) then
                          match send_ack s3 with
                          | (Ok _, s4) => (Ok (packet ++ cs), s4)
                          | (Raise e, s4) => (Raise e, s4)
                          end
                        else (Ok (packet ++ cs), s3)
                    end
                  else (Ok (packet ++ cs), s3)
              end
          end
    end.
Proof.
  unfold recv_packet, bind at 1. rewrite start_recv_timeout_run.
  unfold bind at 1. destruct (_recv_byte (armed s)) as [[c|e] s1]; [|reflexivity].
  destruct (negb (bytes_eqb c (b "$"))); [reflexivity|].
  cbn [app]. unfold bind at 1.
  destruct (recv_packet_loop MAX_RECV_PACKET c s1) as [[packet|e] s2]; [|reflexivity].
  unfold bind at 1. destruct (_recv_bytes 2 s2) as [[cs|e] s3]; [|reflexivity].
  unfold bind at 1. destruct v; [|reflexivity].
  unfold bind at 1, lift.
  destruct (validate_packet (packet ++ cs)) as [[]|e]; [|reflexivity].
  unfold bind at 1, get.
  destruct (negb (_no_ack_mode s3)); [|reflexivity].
  destruct (send_ack s3) as [[[]|e] s4]; reflexivity.
Qed.

(** What the loop returns is the start of the packet it was given, at least
    one byte longer and within the limit. *)
Lemma recv_packet_loop_bound fuel : forall packet s pkt s',
  recv_packet_loop fuel packet s = (Ok pkt, s') ->
  length packet < length pkt <= MAX_RECV_PACKET.
Proof.
  induction fuel as [|fuel IH]; intros packet s pkt s' H; [discriminate|].
  rewrite recv_packet_loop_unfold in H.
  destruct (_recv_byte s) as [[c|e] s1] eqn:Hc; [|discriminate].
  apply recv_bytes_sound in Hc as (_ & _ & _ & _ & _ & _ & Hlen & _).
  destruct (Nat.ltb_spec MAX_RECV_PACKET (length (packet ++ c))) as [|Hmax];
    [discriminate|].
  rewrite length_app, Hlen in Hmax.
  destruct (bytes_eqb c (b "#")).
  - injection H as <- <-. rewrite length_app, Hlen. lia.
  - apply IH in H. rewrite length_app, Hlen in H. lia.
Qed.

(** The loop of [recv_packet] never runs out of turns. *)
Lemma recv_packet_loop_fuel fuel : forall packet s,
  length packet <= MAX_RECV_PACKET ->
  MAX_RECV_PACKET < fuel + length packet ->
  fst (recv_packet_loop fuel packet s) <> Raise OutOfFuel.
Proof.
  induction fuel as [|fuel IH]; intros packet s Hlen Hfuel; [simpl in Hfuel; lia|].
  rewrite recv_packet_loop_unfold.
  pose proof (recv_bytes_fuel 1 s) as Hbyte. unfold _recv_byte.
  destruct (_recv_bytes 1 s) as [[c|e] s1] eqn:Hc.
  2:{ simpl in *. exact Hbyte. }
  apply recv_bytes_sound in Hc as (_ & _ & _ & _ & _ & _ & Hc & _).
  destruct (Nat.ltb_spec MAX_RECV_PACKET (length (packet ++ c))) as [|Hmax];
    [discriminate|].
  destruct (bytes_eqb c (b "#")); [discriminate|].
  apply IH; [assumption|]. rewrite length_app, Hc. lia.
Qed.

Lemma recv_packet_fuel v s : fst (recv_packet v s) <> Raise OutOfFuel.
Proof.
  rewrite recv_packet_unfold.
  pose proof (recv_bytes_fuel 1 (armed s)) as Hbyte. unfold _recv_byte.
  destruct (_recv_bytes 1 (armed s)) as [[c|e] s1] eqn:Hc; [|exact Hbyte].
  apply recv_bytes_sound in Hc as (_ & _ & _ & _ & _ & _ & Hc & _).
  destruct (negb (bytes_eqb c (b "$"))); [discriminate|].
  pose proof (recv_packet_loop_fuel MAX_RECV_PACKET c s1) as Hloop.
  destruct (recv_packet_loop MAX_RECV_PACKET c s1) as [[packet|e] s2].
  2:{ pose proof MAX_RECV_PACKET_large. apply Hloop; rewrite Hc; lia. }
  pose proof (recv_bytes_fuel 2 s2) as Hcs.
  destruct (_recv_bytes 2 s2) as [[cs|e] s3]; [|exact Hcs].
  destruct v; [|discriminate].
  rewrite validate_packet_spec.
  destruct (validate_spec_failure (packet ++ cs)) as [-> | [msg ->]];
    [|discriminate].
  destruct (negb (_no_ack_mode s3)); [|discriminate].
  unfold send_ack. rewrite send_bytes_run. simpl.
  destruct (_socket s3); [|discriminate].
  pose proof (send_outcome_fuel s3) as Hsend.
  destruct (send_outcome s3) as [[]|e]; [discriminate|].
  simpl. congruence.
Qed.














(** What [recv_packet] returns is at most two bytes longer than the limit. *)
Lemma recv_packet_bound v s pkt s' :
  recv_packet v s = (Ok pkt, s') ->
  4 <= length pkt <= MAX_RECV_PACKET + 2.
Proof.
  rewrite recv_packet_unfold. unfold _recv_byte.
  destruct (_recv_bytes 1 (armed s)) as [[c|e] s1] eqn:Hc; [|discriminate].
  apply recv_bytes_sound in Hc as (_ & _ & _ & _ & _ & _ & Hc & _).
  destruct (negb (bytes_eqb c (b "$"))); [discriminate|].
  destruct (recv_packet_loop MAX_RECV_PACKET c s1) as [[packet|e] s2] eqn:Hloop;
    [|discriminate].
  apply recv_packet_loop_bound in Hloop. rewrite Hc in Hloop.
  destruct (_recv_bytes 2 s2) as [[cs|e] s3] eqn:Hcs; [|discriminate].
  apply recv_bytes_sound in Hcs as (_ & _ & _ & _ & _ & _ & Hcs & _).
  assert (length (packet ++ cs) = length packet + 2) as Hlen
    by now rewrite length_app, Hcs.
  intros H.
  assert (pkt = packet ++ cs) as ->; [|lia].
  destruct v; [|now injection H as <-].
  destruct (validate_packet (packet ++ cs)) as [[]|e]; [|discriminate].
  destruct (negb (_no_ack_mode s3)); [|now injection H as <-].
  destruct (send_ack s3) as [[[]|e] s4]; [|discriminate]. now injection H as <-.
Qed.








(** *** [check_ack] *)

Lemma check_ack_unfold s :
  check_ack s
  = match _recv_byte (armed s) with
    | (Raise e, s1) => (Raise e, s1)
    | (Ok c, s1) =>
        if bytes_eqb c (b "+") then (Ok tt, s1)
        else if bytes_eqb c (b "-") then (Raise (ProtocolError msg_nack), s1)
        else (Raise (ProtocolError (msg_not_ack c)),
              with_recv_buf s1 (c ++ _recv_buf s1))
    end.
Proof.
  unfold check_ack, bind at 1. rewrite start_recv_timeout_run.
  unfold bind at 1. destruct (_recv_byte (armed s)) as [[c|e] s1]; [|reflexivity].
  destruct (bytes_eqb c (b "+")); [reflexivity|].
  destruct (bytes_eqb c (b "-")); reflexivity.
Qed.

Lemma length_one {A} (l : list A) : length l = 1 -> exists x, l = [x].
Proof.
  destruct l as [|x [|y l]]; try discriminate. eauto.
Qed.

(** C6, as the claim states it, fails: with an empty buffer the read has to
    fetch from the transport, and after the unexpected byte [g] is pushed
    back the buffer holds the whole chunk [b"garbage"], not what it held
    before the read. *)
Lemma C6_buffer_not_as_before_the_read :
  _recv_buf (connected_client [Chunk (b "garbage")] (fun _ => (fl 1000))) = []
  /\ check_ack (connected_client [Chunk (b "garbage")] (fun _ => (fl 1000)))
     = (Raise (ProtocolError (msg_not_ack (b "g"))),
        snd (check_ack (connected_client [Chunk (b "garbage")] (fun _ => (fl 1000)))))
  /\ _recv_buf (snd (check_ack (connected_client [Chunk (b "garbage")]
                                                 (fun _ => (fl 1000)))))
     = b "garbage"
  /\ b "garbage" <> [].
Proof.
  split; [reflexivity|].
  split; [vm_compute; reflexivity|].
  split; [vm_compute; reflexivity|].
  discriminate.
Qed.

(** C6, amended.  [check_ack] arms the window and reads one byte.  [+]: it
    returns; [-]: it raises the protocol error and the byte stays consumed;
    any other byte: it puts the byte back at the front of the buffer and
    raises the protocol error that reports it, and the buffer then holds
    what it held before the read followed by the chunks the read fetched
    (nothing was fetched when the buffer was not empty). *)
Theorem C6_check_ack_outcomes (s : Client) :
  _recv_time_start (armed s) = clock s (clock_reads s)
  /\ match _recv_byte (armed s) with
     | (Raise e, s1) => check_ack s = (Raise e, s1)
     | (Ok r, s1) =>
         exists c chunks,
           r = [c]
           /\ rx_of s = map Chunk chunks ++ rx_of s1
           /\ c :: _recv_buf s1 = _recv_buf s ++ concat chunks
           /\ (_recv_buf s <> [] -> chunks = [])
           /\ (c = "+" -> check_ack s = (Ok tt, s1))
           /\ (c = "-" -> check_ack s = (Raise (ProtocolError msg_nack), s1))
           /\ (c <> "+" -> c <> "-" ->
               check_ack s
               = (Raise (ProtocolError (msg_not_ack [c])),
                  with_recv_buf s1 (_recv_buf s ++ concat chunks)))
     end.
Proof.
  split; [reflexivity|].
  rewrite check_ack_unfold.
  destruct (_recv_byte (armed s)) as [[r|e] s1] eqn:Hr; [|reflexivity].
  unfold _recv_byte in Hr.
  apply recv_bytes_sound in Hr as (_ & _ & buf' & Hfill & Hr & Hbuf & Hlen & _).
  destruct (length_one r Hlen) as [c ->].
  apply fill_spec in Hfill as (_ & chunks & Hrx & Hcat & Hneed).
  exists c, chunks.
  assert (c :: _recv_buf s1 = _recv_buf s ++ concat chunks) as Hall.
  { change (c :: _recv_buf s1) with ([c] ++ _recv_buf s1).
    rewrite Hr, Hbuf, firstn_skipn. exact Hcat. }
  split; [reflexivity|]. split; [exact Hrx|]. split; [exact Hall|].
  split.
  { intros Hne. destruct chunks as [|d chunks]; [reflexivity|].
    specialize (Hneed 0 (Nat.lt_0_succ _)). simpl in Hneed.
    rewrite app_nil_r in Hneed. change (_recv_buf (armed s)) with (_recv_buf s) in Hneed.
    destruct (_recv_buf s); [contradiction | simpl in Hneed; lia]. }
  change (b "+") with ["+"]. change (b "-") with ["-"].
  simpl bytes_eqb. rewrite !andb_true_r.
  split; [intros ->; reflexivity|].
  split; [intros ->; reflexivity|].
  intros Hp Hm. apply byte_eqb_neq in Hp, Hm. rewrite Hp, Hm.
  cbn [app]. now rewrite Hall.
Qed.

(** *** The timeout policy *)

(** What [_get_recv_time_left] answers, by the remaining time it computes. *)
Lemma get_recv_time_left_policy s :
  fltb (fl 0) (_recv_time_start s) = true ->
  let time_left := time_left_at s (clock s (clock_reads s)) in
  let s1 := with_clock_reads s (S (clock_reads s)) in
  (fltb time_left (fl 0) = true -> _get_recv_time_left s = (Ok (fl 0), s1))
  /\ (fltb (fl 0) time_left = true -> fltb time_left (fl 1) = true ->
      _get_recv_time_left s = (Ok (fl 1), s1))
  /\ (fleb (fl 1) time_left = true -> _get_recv_time_left s = (Ok time_left, s1))
  /\ (feqb time_left (fl 0) = true ->
      _get_recv_time_left s = (Raise AssertionError, s1)).
Proof.
  intros Hstart time_left s1. rewrite get_recv_time_left_run.
  rewrite Hstart. cbv zeta.
  fold time_left. fold s1.
  split; [|split; [|split]].
  - intros H. now rewrite H.
  - intros H0 H1. now rewrite (float_positive _ H0), H0, H1.
  - intros H. destruct (float_one_or_more _ H) as (Hneg & _ & Hone).
    now rewrite Hneg, Hone, andb_false_r, H.
  - intros H. destruct (float_zero _ H) as (Hneg & Hpos & Hone).
    now rewrite Hneg, Hpos, Hone.
Qed.

(** A read that needs the transport when the window has run out: the
    timeout error, and no call on the socket. *)
Lemma recv_bytes_expired s n :
  _socket s <> None -> 0 < n -> length (_recv_buf s) < n ->
  fltb (fl 0) (_recv_time_start s) = true ->
  fltb (time_left_at s (clock s (clock_reads s))) (fl 0) = true ->
  _recv_bytes n s
  = (Raise (RecvTimeoutError (msg_timeout (_recv_timeout s))),
     with_clock_reads s (S (clock_reads s))).
Proof.
  intros Hconn Hn Hbuf Hstart Hleft.
  destruct (get_recv_time_left_policy s Hstart) as (Hneg & _).
  rewrite recv_bytes_unfold.
  apply Nat.ltb_lt in Hn. rewrite Hn.
  destruct (_socket s) as [sock|]; [|contradiction].
  rewrite recv_bytes_loop_unfold.
  apply Nat.ltb_lt in Hbuf. rewrite Hbuf.
  rewrite (Hneg Hleft). reflexivity.
Qed.

(** A read that needs the transport when less than one unit remains: the
    bound of the blocking read is exactly one unit. *)
Lemma recv_bytes_rounds_up s n fuel :
  length (_recv_buf s) < n ->
  fltb (fl 0) (_recv_time_start s) = true ->
  fltb (fl 0) (time_left_at s (clock s (clock_reads s))) = true ->
  fltb (time_left_at s (clock s (clock_reads s))) (fl 1) = true ->
  recv_bytes_loop (S fuel) n s
  = match sock_recv RECV_BLOCK_SIZE
            (with_calls (with_clock_reads s (S (clock_reads s)))
                        (calls s ++ [CallSetTimeout (fl 1)])) with
    | (Ok data, s2) =>
        recv_bytes_loop fuel n (with_recv_buf s2 (_recv_buf s2 ++ data))
    | (Raise e, s2) =>
        if is_socket_timeout e
        then (Raise (RecvTimeoutError (msg_timeout (_recv_timeout s))), s2)
        else (Raise e, s2)
    end.
Proof.
  intros Hbuf Hstart H0 H1.
  destruct (get_recv_time_left_policy s Hstart) as (_ & Hround & _).
  rewrite recv_bytes_loop_unfold.
  apply Nat.ltb_lt in Hbuf. rewrite Hbuf.
  rewrite (Hround H0 H1). reflexivity.
Qed.

(** C2. A read that needs the transport when the remaining time is exactly
    zero: the specification has it fail with the timeout error; the code
    raises [AssertionError], because [_get_recv_time_left] tests
    [time_left < 0] and so reaches [assert time_left >= 1.0].  The remaining
    time is the one the code computes, in binary64. *)
Theorem C2_zero_remaining_time_asserts (s : Client) (n : nat) :
  _socket s <> None -> 0 < n -> length (_recv_buf s) < n ->
  fltb (fl 0) (_recv_time_start s) = true ->
  feqb (time_left_at s (clock s (clock_reads s))) (fl 0) = true ->
  _recv_bytes n s
  = (Raise AssertionError, with_clock_reads s (S (clock_reads s))).
Proof.
  intros Hconn Hn Hbuf Hstart Hleft.
  destruct (get_recv_time_left_policy s Hstart) as (_ & _ & _ & Hzero).
  rewrite recv_bytes_unfold.
  apply Nat.ltb_lt in Hn. rewrite Hn.
  destruct (_socket s) as [sock|]; [|contradiction].
  rewrite recv_bytes_loop_unfold.
  apply Nat.ltb_lt in Hbuf. rewrite Hbuf.
  rewrite (Hzero Hleft). reflexivity.
Qed.

Lemma C2_zero_remaining_time_asserts_witness :
  _recv_bytes 1
    (armed (connected_client [Chunk (b "+")]
                             (fun k => fl (1000 + 5 * Z.of_nat k))))
  = (Raise AssertionError,
     with_clock_reads
       (armed (connected_client [Chunk (b "+")]
                                (fun k => fl (1000 + 5 * Z.of_nat k))))
       2).
Proof.
  apply (C2_zero_remaining_time_asserts
           (armed (connected_client [Chunk (b "+")]
                                    (fun k => fl (1000 + 5 * Z.of_nat k))))
           1).
  - discriminate.
  - lia.
  - simpl. lia.
  - vm_compute. reflexivity.
  - vm_compute. reflexivity.
Defined.

(** The same on readings that are no integers: a window started at [0.1]
    and read at [5.1] with the timeout [5.0].  Of the window, about
    [3.6e-16] remains; the code computes [5.1 - 0.1] as [5.0] and the
    remaining time as [0.0]. *)
Example zero_remaining_time_by_rounding :
  fsub f5_1 f0_1 = fl 5
  /\ time_left_at
       (armed (connected_client [Chunk (b "+")]
                 (fun k => match k with O => f0_1 | _ => f5_1 end)))
       f5_1
     = fl 0
  /\ fst (check_ack (connected_client [Chunk (b "+")]
                       (fun k => match k with O => f0_1 | _ => f5_1 end)))
     = Raise AssertionError.
Proof. repeat split; vm_compute; reflexivity. Qed.

(* ================================================================= *)
(** * The repository's tests, run on the model *)

Example fresh_client_init rx clk :
  init 3333 clk (plain_socket rx) = Ok (fresh_client rx clk).
Proof. reflexivity. Qed.

Example init_rejects_port_zero rx clk :
  init 0 clk (plain_socket rx) = Raise (ValueError msg_bad_port).
Proof. reflexivity. Qed.

Example test_decode_packet_data_plain :
  decode_packet_data [] = Ok []
  /\ decode_packet_data (b "abc") = Ok (b "abc")
  /\ decode_packet_data (b "def" ++ [x8f]) = Ok (b "def" ++ [x8f]).
Proof. repeat split; reflexivity. Qed.

Example test_decode_packet_data_escape :
  decode_packet_data (b "jkl}d") = Ok (b "jklD")
  /\ decode_packet_data (b "abc}ddef") = Ok (b "abcDdef")
  /\ decode_packet_data ["}"; x03] = Ok (b "#")
  /\ decode_packet_data ["}"; x04] = Ok (b "$")
  /\ decode_packet_data ["}"; x0a] = Ok (b "*")
  /\ decode_packet_data (b "}]") = Ok (b "}")
  /\ decode_packet_data (b "abc}")
     = Raise (PacketFormatError msg_missing_after_escape).
Proof. repeat split; reflexivity. Qed.

Example test_decode_packet_data_run_length :
  decode_packet_data (b "a* ") = Ok (b "aaaa")
  /\ decode_packet_data (b "EFGa*!HIJ") = Ok (b "EFGaaaaaHIJ")
  /\ decode_packet_data (b "pqr*")
     = Raise (PacketFormatError msg_missing_after_star)
  /\ decode_packet_data (b "a*#") = Raise (PacketFormatError msg_bad_count_byte)
  /\ decode_packet_data (b "a*$") = Raise (PacketFormatError msg_bad_count_byte)
  /\ decode_packet_data ["a"; "*"; x1f]
     = Raise (PacketFormatError msg_count_out_of_range)
  /\ decode_packet_data ["a"; "*"; x7f]
     = Raise (PacketFormatError msg_count_out_of_range).
Proof. repeat split; reflexivity. Qed.

Example test_encode_packet_data :
  encode_packet_data [] = Ok []
  /\ encode_packet_data (b "abc") = Ok (b "abc")
  /\ encode_packet_data (b "}$#*") = Ok ["}"; "]"; "}"; x04; "}"; x03; "*"].
Proof. repeat split; reflexivity. Qed.

Example test_compute_checksum :
  compute_checksum [] = b "00"
  /\ compute_checksum (b " ") = b "20"
  /\ compute_checksum [x40; x40] = b "80"
  /\ compute_checksum (b "abc") = b "26".
Proof. repeat split; reflexivity. Qed.

Example test_create_packet :
  create_packet [] None = Ok (b "$#00")
  /\ create_packet (b "abc") None = Ok (b "$abc#26")
  /\ create_packet (b "abc") (Some (b "11")) = Ok (b "$abc#11")
  /\ create_packet (b "abc") (Some (b "xx")) = Raise (ValueError msg_bad_custom_checksum)
  /\ create_packet (b "abc") (Some (b "2")) = Raise (ValueError msg_bad_custom_checksum)
  /\ create_packet (b "abc") (Some (b "def")) = Raise (ValueError msg_bad_custom_checksum).
Proof. repeat split; reflexivity. Qed.

Example test_split_packet :
  split_packet (b "#$00") = (b "#", [], b "$", b "00")
  /\ split_packet (b "#abc$26") = (b "#", b "abc", b "$", b "26").
Proof. repeat split; reflexivity. Qed.

Example test_validate_packet_special_characters :
  validate_packet (b "$##ab") = Raise (PacketFormatError msg_hash_in_data)
  /\ validate_packet (b "$$#cd") = Raise (PacketFormatError msg_dollar_in_data).
Proof. repeat split; reflexivity. Qed.

Example test_connect_disconnect rx clk :
  calls (connected_client rx clk) = [CallConnect; CallSetNoDelay]
  /\ fst (connect (connected_client rx clk))
     = Raise (RuntimeError msg_already_connected)
  /\ fst (disconnect (connected_client rx clk)) = Ok tt
  /\ calls (snd (disconnect (connected_client rx clk)))
     = [CallConnect; CallSetNoDelay; CallShutdown; CallClose]
  /\ _socket (snd (disconnect (connected_client rx clk))) = None.
Proof. repeat split; reflexivity. Qed.

Example test_send_packet clk :
  send_packet (b "abc") None false (connected_client [] clk)
  = (Ok tt, with_calls (connected_client [] clk)
                       [CallConnect; CallSetNoDelay; CallSend (b "$abc#26")])
  /\ fst (send_packet (b "abc") (Some (b "12")) false (connected_client [] clk))
     = Ok tt
  /\ calls (snd (send_packet (b "abc") (Some (b "12")) false
                             (connected_client [] clk)))
     = [CallConnect; CallSetNoDelay; CallSend (b "$abc#12")].
Proof. repeat split; reflexivity. Qed.

Example test_check_ack :
  fst (check_ack (connected_client [Chunk (b "+")] (fun _ => (fl 1000)))) = Ok tt
  /\ fst (check_ack (connected_client [Chunk (b "-")] (fun _ => (fl 1000))))
     = Raise (ProtocolError msg_nack)
  /\ fst (check_ack (connected_client [Chunk (b "garbage")] (fun _ => (fl 1000))))
     = Raise (ProtocolError (msg_not_ack (b "g"))).
Proof. repeat split; vm_compute; reflexivity. Qed.

Example test_recv_packet :
  fst (recv_packet true
         (connected_client
            [Chunk (b "$ab"); Chunk (b "c#"); Chunk (b "2"); Chunk (b "6garbage");
             Chunk (b "another_mess")]
            (fun _ => (fl 1000))))
  = Ok (b "$abc#26")
  /\ calls (snd (recv_packet true
         (connected_client
            [Chunk (b "$ab"); Chunk (b "c#"); Chunk (b "2"); Chunk (b "6garbage");
             Chunk (b "another_mess")]
            (fun _ => (fl 1000)))))
     = [CallConnect; CallSetNoDelay;
        CallSetTimeout (fl 5); CallRecv 1024; CallSetTimeout (fl 5); CallRecv 1024;
        CallSetTimeout (fl 5); CallRecv 1024; CallSetTimeout (fl 5); CallRecv 1024;
        CallSend (b "+")].
Proof. split; vm_compute; reflexivity. Qed.

Example test_recv_packet_no_timeout :
  fst (recv_packet true
         (connected_client [Chunk (b "$a"); Chunk (b "bc"); Chunk (b "#26")]
                           (test_clock [1000; 1001; 1002; 1003]%Z)))
  = Ok (b "$abc#26").
Proof. vm_compute. reflexivity. Qed.

Example test_recv_packet_timeout_reached :
  fst (recv_packet true
         (connected_client [Chunk (b "$a"); Chunk (b "bc"); Chunk (b "#26")]
                           (test_clock [1000; 1002; 1004; 1006]%Z)))
  = Raise (RecvTimeoutError (msg_timeout (fl 5))).
Proof. vm_compute. reflexivity. Qed.

Example test_recv_packet_garbage :
  fst (recv_packet true
         (connected_client [Chunk (b "garbage$abc#26")] (fun _ => (fl 1000))))
  = Raise (ProtocolError (msg_bad_start (b "g"))).
Proof. vm_compute. reflexivity. Qed.

Example test_recv_and_decode_packet_data :
  fst (recv_and_decode_packet_data
         (connected_client [Chunk (b "$ab}C"); Chunk (b "d#"); Chunk (b "e7")]
                           (fun _ => (fl 1000))))
  = Ok (b "abcd").
Proof. vm_compute. reflexivity. Qed.

(* ================================================================= *)
(** * Further properties of the codec *)

(** *** The checksum *)

Lemma hex_digit_value d :
  (d < 16)%N ->
  digit_value (ord (hex_digit d)) = Some d
  /\ In (hex_digit d) (b "0123456789abcdef").
Proof.
  intros H. unfold hex_digit.
  assert (d = N.of_nat (N.to_nat d)) as Hd by lia.
  assert (N.to_nat d < 16) as Hn by lia.
  rewrite Hd at 2. clear Hd H.
  generalize dependent (N.to_nat d). intros n Hn.
  do 16 (destruct n as [|n]; [split; [reflexivity | simpl; tauto]|]). lia.
Qed.

(** X1. [compute_checksum] always answers two lower-case hexadecimal
    digits, they pass [_check_checksum_syntax], and read as a number they
    are the sum of the bytes modulo 256. *)
Theorem checksum_is_two_lowercase_digits (data : bytes) :
  exists h l,
    compute_checksum data = [h; l]
    /\ In h (b "0123456789abcdef") /\ In l (b "0123456789abcdef")
    /\ _check_checksum_syntax (compute_checksum data) = true
    /\ checksum_value (compute_checksum data) = Some (sum_bytes data mod 256)%N.
Proof.
  unfold compute_checksum, format_02x.
  set (v := (sum_bytes data mod 256)%N).
  assert (v < 256)%N as Hv by (apply N.mod_lt; discriminate).
  assert (v / 16 < 16)%N as Hhi
    by (apply N.Div0.div_lt_upper_bound; exact Hv).
  assert (v mod 16 < 16)%N as Hlo by (apply N.mod_lt; discriminate).
  destruct (hex_digit_value _ Hhi) as [Vhi Ihi].
  destruct (hex_digit_value _ Hlo) as [Vlo Ilo].
  exists (hex_digit (v / 16)), (hex_digit (v mod 16)).
  split; [reflexivity|]. split; [exact Ihi|]. split; [exact Ilo|].
  split; [apply compute_checksum_syntax|].
  unfold checksum_value. rewrite Vhi, Vlo. f_equal.
  rewrite (N.div_mod v 16) at 3 by discriminate. reflexivity.
Qed.

Lemma sum_bytes_fold data : forall acc,
  fold_left (fun a x => (a + ord x)%N) data acc = (acc + sum_bytes data)%N.
Proof.
  unfold sum_bytes. induction data as [|c data IH]; intros acc; simpl.
  - lia.
  - rewrite IH, (IH (ord c)). lia.
Qed.

Lemma sum_bytes_cons c data : sum_bytes (c :: data) = (ord c + sum_bytes data)%N.
Proof.
  unfold sum_bytes at 1. simpl. now rewrite sum_bytes_fold.
Qed.

Lemma sum_bytes_perm x y : Permutation x y -> sum_bytes x = sum_bytes y.
Proof.
  induction 1 as [|c x y _ IH|c d x|x y z _ IH1 _ IH2].
  - reflexivity.
  - now rewrite !sum_bytes_cons, IH.
  - rewrite !sum_bytes_cons. lia.
  - congruence.
Qed.

(** X2. The checksum does not see the order of the bytes: payloads that are
    rearrangements of one another have the same checksum. *)
Theorem checksum_blind_to_order (x y : bytes) :
  Permutation x y -> compute_checksum x = compute_checksum y.
Proof.
  intros H. unfold compute_checksum. now rewrite (sum_bytes_perm x y H).
Qed.

Lemma checksum_blind_to_order_witness :
  compute_checksum (b "qRcmd") = compute_checksum (rev (b "qRcmd")).
Proof.
  apply (checksum_blind_to_order (b "qRcmd") (rev (b "qRcmd"))).
  apply Permutation_rev.
Defined.

(** *** The encoder *)

Lemma escape_one_length c :
  length (escape_one c) = if special c then 2 else 1.
Proof. unfold escape_one. now destruct (special c). Qed.

Lemma encode_spec_length data :
  length (encode_spec data) = length data + length (filter special data).
Proof.
  induction data as [|c data IH]; [reflexivity|].
  rewrite encode_spec_cons, length_app, escape_one_length, IH. simpl.
  destruct (special c); simpl; lia.
Qed.

(** X3. The encoder always returns; its output holds neither [$] nor [#],
    is one byte longer than the payload for each [}], [$], [#] in it, and so
    at most twice as long. *)
Theorem encode_output_shape (data : bytes) :
  exists enc,
    encode_packet_data data = Ok enc
    /\ ~ In "$" enc /\ ~ In "#" enc
    /\ length enc = length data + length (filter special data)
    /\ length data <= length enc <= 2 * length data.
Proof.
  exists (encode_spec data).
  split; [apply encode_packet_data_spec|].
  destruct (encode_spec_framing data) as [Hd Hh].
  split; [exact Hd|]. split; [exact Hh|].
  pose proof (encode_spec_length data) as Hlen.
  pose proof (filter_length_le special data).
  split; [exact Hlen | lia].
Qed.

Lemma xor20_injective c d : xor20 c = xor20 d -> c = d.
Proof.
  intros H. apply (f_equal ord) in H. rewrite !xor20_ord in H.
  apply (f_equal (fun n => N.lxor n 32)) in H.
  rewrite !N.lxor_assoc, N.lxor_nilpotent, !N.lxor_0_r in H.
  apply (f_equal Byte.of_N) in H. unfold ord in H.
  rewrite !Byte.of_to_N in H. congruence.
Qed.

Lemma encode_spec_injective x : forall y,
  encode_spec x = encode_spec y -> x = y.
Proof.
  induction x as [|c x IH]; intros [|d y] H.
  - reflexivity.
  - rewrite encode_spec_cons in H. unfold escape_one in H.
    destruct (special d); discriminate.
  - rewrite encode_spec_cons in H. unfold escape_one in H.
    destruct (special c); discriminate.
  - rewrite !encode_spec_cons in H. unfold escape_one in H.
    destruct (special c) eqn:Hc, (special d) eqn:Hd; cbn [app] in H.
    + injection H as Hx H. apply xor20_injective in Hx. subst d.
      f_equal. now apply IH.
    + injection H as Hx _. subst d. discriminate.
    + injection H as Hx _. subst c. discriminate.
    + injection H as -> H. f_equal. now apply IH.
Qed.

(** X4. The encoding is unambiguous: two payloads with the same encoding
    are the same payload. *)
Theorem encode_injective (x y enc : bytes) :
  encode_packet_data x = Ok enc -> encode_packet_data y = Ok enc -> x = y.
Proof.
  rewrite !encode_packet_data_spec. intros Hx Hy.
  apply encode_spec_injective. congruence.
Qed.

Lemma encode_injective_witness : b "a}$" = b "a}$".
Proof.
  apply (encode_injective (b "a}$") (b "a}$") ["a"; "}"; "]"; "}"; x04]);
    reflexivity.
Defined.

(** X5. Encoding goes through concatenation: the encoding of two payloads
    put together is their encodings put together. *)
Theorem encode_concatenation (x y : bytes) :
  exists ex ey,
    encode_packet_data x = Ok ex /\ encode_packet_data y = Ok ey
    /\ encode_packet_data (x ++ y) = Ok (ex ++ ey).
Proof.
  exists (encode_spec x), (encode_spec y).
  rewrite !encode_packet_data_spec. repeat split.
  unfold encode_spec. now rewrite flat_map_app.
Qed.

(** *** The decoder *)

Lemma expand_one_bounds c0 c2 e :
  expand_one c0 c2 = Ok e -> 4 <= length e <= 98.
Proof.
  unfold expand_one. destruct (_ || _); [discriminate|].
  destruct (N.leb_spec 32 (ord c2)) as [Hlo|]; [|discriminate].
  destruct (N.leb_spec (ord c2) 126) as [Hhi|]; [|discriminate]. simpl.
  intros H. injection H as <-. rewrite repeat_length. lia.
Qed.

Lemma unescape_one_length c u : unescape_one c = Ok u -> length u = 1.
Proof.
  unfold unescape_one. destruct (_ <? _)%N; [|discriminate].
  intros H. now injection H as <-.
Qed.

Lemma decode_spec_bounds n : forall t r,
  length t <= n -> decode_spec t = Ok r ->
  length t <= 2 * length r /\ 3 * length r <= 98 * length t.
Proof.
  induction n as [|n IH]; intros t r Hn H.
  - destruct t; [|simpl in Hn; lia]. injection H as <-. simpl. lia.
  - destruct t as [|c0 [|c1 t2]].
    + injection H as <-. simpl. lia.
    + simpl in H. destruct (Byte.eqb c0 "}"); [discriminate|].
      injection H as <-. simpl. lia.
    + destruct (Byte.eqb c0 "}") eqn:Hesc.
      { apply byte_eqb_eq in Hesc. subst c0. rewrite decode_spec_escape in H.
        destruct (unescape_one c1) as [u|] eqn:Hu; [|discriminate].
        apply unescape_one_length in Hu. cbn [bind_result] in H.
        destruct (decode_spec t2) as [r2|] eqn:H2; [|discriminate].
        injection H as <-. apply IH in H2; [|simpl in Hn; lia].
        rewrite length_app, Hu. simpl length. lia. }
      apply byte_eqb_neq in Hesc.
      destruct (Byte.eqb c1 "*") eqn:Hstar.
      * apply byte_eqb_eq in Hstar. subst c1.
        destruct t2 as [|c2 t3].
        { cbn [decode_spec] in H. apply byte_eqb_neq in Hesc. rewrite Hesc in H.
          discriminate. }
        rewrite decode_spec_run in H by assumption.
        destruct (expand_one c0 c2) as [e|] eqn:He; [|discriminate].
        apply expand_one_bounds in He. cbn [bind_result] in H.
        destruct (decode_spec t3) as [r3|] eqn:H3; [|discriminate].
        injection H as <-. apply IH in H3; [|simpl in Hn; lia].
        rewrite length_app. simpl length. lia.
      * apply byte_eqb_neq in Hstar.
        rewrite decode_spec_plain in H by assumption.
        destruct (decode_spec (c1 :: t2)) as [r1|] eqn:H1; [|discriminate].
        injection H as <-. apply IH in H1; [|simpl in Hn; simpl; lia].
        simpl length in *. lia.
Qed.

(** X6. What the decoder returns is at least half as long as its input and
    less than 33 times as long: three bytes of input give at most 98 bytes
    of output. *)
Theorem decode_length_bounds (data r : bytes) :
  decode_packet_data data = Ok r ->
  length data <= 2 * length r /\ 3 * length r <= 98 * length data.
Proof.
  rewrite decode_packet_data_spec. apply (decode_spec_bounds (length data)). lia.
Qed.

Lemma decode_length_bounds_witness :
  length (b "a*~") <= 2 * length (repeat "a" 98)
  /\ 3 * length (repeat "a" 98) <= 98 * length (b "a*~").
Proof.
  apply (decode_length_bounds (b "a*~") (repeat "a" 98)). reflexivity.
Defined.

Lemma unescape_one_seven_bit c :
  (ord c < 128)%N -> unescape_one c = Ok [xor20 c].
Proof.
  intros H. unfold unescape_one.
  assert ((N.lxor (ord c) 32 <? 128)%N = true) as ->; [|reflexivity].
  revert H. destruct c; cbv; congruence.
Qed.

Lemma decode_spec_seven_bit n : forall t e,
  length t <= n -> Forall (fun c => (ord c < 128)%N) t ->
  decode_spec t = Raise e -> exists msg, e = PacketFormatError msg.
Proof.
  induction n as [|n IH]; intros t e Hn Hall H.
  - destruct t; [discriminate | simpl in Hn; lia].
  - destruct t as [|c0 [|c1 t2]].
    + discriminate.
    + simpl in H. destruct (Byte.eqb c0 "}"); inversion H; eauto.
    + simpl in Hn. inversion Hall as [|? ? _ Hall1]; subst.
      inversion Hall1 as [|? ? Hc1 Hall2]; subst.
      destruct (Byte.eqb c0 "}") eqn:Hesc.
      { apply byte_eqb_eq in Hesc. subst c0. rewrite decode_spec_escape in H.
        rewrite (unescape_one_seven_bit c1 Hc1) in H. cbn [bind_result] in H.
        destruct (decode_spec t2) eqn:E2; cbn [bind_result] in H; [discriminate|].
        inversion H; subst. apply (IH t2); [lia | assumption | assumption]. }
      apply byte_eqb_neq in Hesc.
      destruct (Byte.eqb c1 "*") eqn:Hstar.
      { apply byte_eqb_eq in Hstar. subst c1.
        destruct t2 as [|c2 t3].
        - cbn [decode_spec] in H. apply byte_eqb_neq in Hesc. rewrite Hesc in H.
          simpl in H. inversion H; eauto.
        - rewrite decode_spec_run in H by assumption. unfold expand_one in H.
          destruct (_ || _); [inversion H; eauto|].
          destruct (negb _); [inversion H; eauto|].
          cbn [bind_result] in H.
          destruct (decode_spec t3) eqn:E3; cbn [bind_result] in H; [discriminate|].
          inversion H; subst. inversion Hall2; subst.
          apply (IH t3); [simpl in Hn; lia | assumption | assumption]. }
      apply byte_eqb_neq in Hstar.
      rewrite decode_spec_plain in H by assumption.
      destruct (decode_spec (c1 :: t2)) eqn:E1; cbn [bind_result] in H; [discriminate|].
      inversion H; subst. apply (IH (c1 :: t2)); [simpl; lia | assumption | assumption].
Qed.

(** X7. On input made of 7-bit bytes only, the decoder raises nothing but
    [PacketFormatError]. *)
Theorem decode_seven_bit_failures (data : bytes) (e : exn) :
  Forall (fun c => (ord c < 128)%N) data ->
  decode_packet_data data = Raise e ->
  exists msg, e = PacketFormatError msg.
Proof.
  rewrite decode_packet_data_spec. apply (decode_spec_seven_bit (length data)). lia.
Qed.

Lemma decode_seven_bit_failures_witness :
  exists msg, PacketFormatError msg_missing_after_star = PacketFormatError msg.
Proof.
  apply (decode_seven_bit_failures (b "pqr*")).
  - repeat constructor.
  - reflexivity.
Defined.

(** *** Packets *)

Lemma split_parts_cat (packet : bytes) :
  4 <= length packet ->
  [nth 0 packet x00] ++ firstn (length packet - 4) (skipn 1 packet)
    ++ [nth (length packet - 3) packet x00] ++ skipn (length packet - 2) packet
  = packet.
Proof.
  intros Hn.
  assert ([nth 0 packet x00] = firstn 1 packet) as ->
    by (symmetry; apply (firstn_1_skipn packet 0); lia).
  assert ([nth (length packet - 3) packet x00]
          = firstn 1 (skipn (length packet - 3) packet)) as ->
    by (symmetry; apply firstn_1_skipn; lia).
  assert (skipn (length packet - 2) packet
          = skipn 1 (skipn (length packet - 3) packet)) as ->
    by (rewrite skipn_skipn; f_equal; lia).
  assert (skipn (length packet - 3) packet
          = skipn (length packet - 4) (skipn 1 packet)) as ->
    by (rewrite skipn_skipn; f_equal; lia).
  now rewrite !firstn_skipn.
Qed.

(** X8. On a packet of four bytes or more [split_packet] loses nothing and
    repeats nothing: its four parts, of 1, [len - 4], 1 and 2 bytes, put
    together are the packet. *)
Theorem split_packet_partition (packet : bytes) :
  4 <= length packet ->
  exists first data delim checksum,
    split_packet packet = (first, data, delim, checksum)
    /\ first ++ data ++ delim ++ checksum = packet
    /\ length first = 1 /\ length data = length packet - 4
    /\ length delim = 1 /\ length checksum = 2.
Proof.
  intros Hn. rewrite split_packet_long by assumption.
  do 4 eexists. split; [reflexivity|].
  split; [now apply split_parts_cat|].
  repeat split; try reflexivity.
  - rewrite length_firstn, length_skipn. lia.
  - rewrite length_skipn. lia.
Qed.

Lemma split_packet_partition_witness :
  exists first data delim checksum,
    split_packet (b "#abc$26") = (first, data, delim, checksum)
    /\ first ++ data ++ delim ++ checksum = b "#abc$26"
    /\ length first = 1 /\ length data = length (b "#abc$26") - 4
    /\ length delim = 1 /\ length checksum = 2.
Proof.
  apply (split_packet_partition (b "#abc$26")). simpl. lia.
Defined.

Lemma validate_framed data cs :
  ~ In "$" data -> ~ In "#" data -> length cs = 2 ->
  validate_packet ("$" :: data ++ "#" :: cs)
  = if negb (_check_checksum_syntax cs) then
      Raise (PacketFormatError (msg_checksum_syntax cs))
    else if negb (bytes_eqb cs (compute_checksum data)) then
      Raise (PacketFormatError (msg_checksum_mismatch (compute_checksum data) cs))
    else Ok tt.
Proof.
  intros Hd Hh Hcs. unfold validate_packet.
  rewrite (split_packet_framed "$" data "#" cs Hcs).
  assert ((length ("$" :: data ++ "#" :: cs) <? 4) = false) as ->.
  { apply Nat.ltb_ge. simpl. rewrite length_app. simpl. lia. }
  change (b "$") with ["$"]. change (b "#") with ["#"].
  rewrite !bytes_eqb_refl, !bytes_in_single. cbn [negb].
  apply not_existsb_eqb in Hd, Hh. now rewrite Hd, Hh.
Qed.

Lemma checksum_syntax_length cs : _check_checksum_syntax cs = true -> length cs = 2.
Proof.
  unfold _check_checksum_syntax.
  destruct (Nat.eqb_spec (length cs) 2); [auto | discriminate].
Qed.

(** X9. [create_packet] with a custom checksum raises [ValueError] exactly
    when the checksum is not two hexadecimal digits.  Otherwise the packet
    carries the custom checksum as given, and [validate_packet] accepts it
    exactly when the custom checksum is the computed one: a right checksum
    spelled in upper case is refused as a mismatch. *)
Theorem create_packet_custom_checksum (p cs : bytes) :
  (_check_checksum_syntax cs = false ->
   create_packet p (Some cs) = Raise (ValueError msg_bad_custom_checksum))
  /\ (_check_checksum_syntax cs = true ->
      exists enc pkt,
        encode_packet_data p = Ok enc
        /\ create_packet p (Some cs) = Ok pkt
        /\ split_packet pkt = (b "$", enc, b "#", cs)
        /\ (validate_packet pkt = Ok tt <-> cs = compute_checksum enc)
        /\ (cs <> compute_checksum enc ->
            validate_packet pkt
            = Raise (PacketFormatError
                       (msg_checksum_mismatch (compute_checksum enc) cs))))
  /\ create_packet (b "z") (Some (b "7A")) = Ok (b "$z#7A")
  /\ compute_checksum (b "z") = b "7a"
  /\ validate_packet (b "$z#7A")
     = Raise (PacketFormatError (msg_checksum_mismatch (b "7a") (b "7A"))).
Proof.
  split.
  { intros H. rewrite create_packet_run, H. reflexivity. }
  split; [|repeat split; reflexivity].
  intros H. pose proof (checksum_syntax_length cs H) as Hlen.
  exists (encode_spec p), ("$" :: encode_spec p ++ "#" :: cs).
  split; [apply encode_packet_data_spec|].
  split; [rewrite create_packet_run, H; reflexivity|].
  split; [now apply split_packet_framed|].
  destruct (encode_spec_framing p) as [Hd Hh].
  rewrite (validate_framed _ cs Hd Hh Hlen), H. cbn [negb].
  destruct (bytes_eqb cs (compute_checksum (encode_spec p))) eqn:E; cbn [negb].
  - apply bytes_eqb_eq in E. split; [tauto | contradiction].
  - apply bytes_eqb_neq in E. split; [|reflexivity].
    split; [discriminate | contradiction].
Qed.

(** X10. The packets [validate_packet] accepts are exactly those of the form
    [$], payload, [#], checksum of the payload, with a payload that holds
    neither [$] nor [#]. *)
Theorem validate_packet_accepts_exactly (packet : bytes) :
  validate_packet packet = Ok tt
  <-> exists data,
        ~ In "$" data /\ ~ In "#" data
        /\ packet = b "$" ++ data ++ b "#" ++ compute_checksum data.
Proof.
  split.
  - intros H. rewrite validate_packet_spec in H.
    apply validate_spec_ok in H as (Hn & Hf & Hh & Hd1 & Hd2 & _ & Hcs).
    exists (firstn (length packet - 4) (skipn 1 packet)).
    split; [assumption|]. split; [assumption|].
    pose proof (split_parts_cat packet Hn) as Hcat.
    rewrite Hf, Hh, Hcs in Hcat. symmetry. exact Hcat.
  - intros (data & Hd & Hh & ->).
    change (b "$" ++ data ++ b "#" ++ compute_checksum data)
      with ("$" :: data ++ "#" :: compute_checksum data).
    rewrite (validate_framed _ _ Hd Hh (compute_checksum_length data)),
      compute_checksum_syntax.
    now rewrite bytes_eqb_refl.
Qed.

(** *** [ascii_from_hex] *)

Lemma hex_digit_not_space d : (d < 16)%N -> is_space (ord (hex_digit d)) = false.
Proof.
  intros H. unfold hex_digit.
  assert (N.to_nat d < 16) as Hn by lia. clear H.
  generalize dependent (N.to_nat d). intros n Hn.
  do 16 (destruct n as [|n]; [reflexivity|]). lia.
Qed.

Lemma ord_byte_of_N c : (c < 256)%N -> ord (byte_of_N c) = c.
Proof.
  intros H. unfold byte_of_N, ord.
  destruct (Byte.of_N c) as [x|] eqn:E.
  - now apply Byte.to_of_N.
  - apply Byte.of_N_None_iff in E. lia.
Qed.

Lemma hexlify_cons c t :
  hexlify (c :: t)
  = ord (hex_digit (c / 16)) :: ord (hex_digit (c mod 16)) :: hexlify t.
Proof. reflexivity. Qed.

Lemma hexlify_length t : length (hexlify t) = 2 * length t.
Proof.
  induction t as [|c t IH]; [reflexivity|].
  rewrite hexlify_cons. simpl length. lia.
Qed.

Lemma fromhex_hexlify t :
  Forall (fun c => (c < 128)%N) t -> fromhex (hexlify t) = Done (map byte_of_N t).
Proof.
  induction 1 as [|c t Hc _ IH]; [reflexivity|].
  rewrite hexlify_cons.
  assert (c / 16 < 16)%N as Hhi by (apply N.Div0.div_lt_upper_bound; lia).
  assert (c mod 16 < 16)%N as Hlo by (apply N.mod_lt; discriminate).
  cbn [fromhex].
  rewrite (hex_digit_not_space _ Hhi).
  rewrite (proj1 (hex_digit_value _ Hhi)), (proj1 (hex_digit_value _ Hlo)).
  rewrite IH. cbn [bind_outcome map].
  now rewrite <- (N.div_mod c 16) by discriminate.
Qed.

Lemma decode_ascii_of_ascii t :
  Forall (fun c => (c < 128)%N) t -> decode_ascii (map byte_of_N t) = Done t.
Proof.
  intros H. unfold decode_ascii.
  assert (map ord (map byte_of_N t) = t) as Hmap.
  { induction H as [|c t Hc _ IH]; [reflexivity|].
    simpl. rewrite IH, ord_byte_of_N by lia. reflexivity. }
  assert (forallb (fun c => (ord c <? 128)%N) (map byte_of_N t) = true) as ->.
  { apply forallb_forall. intros x Hx. apply in_map_iff in Hx as [c [<- Hin]].
    rewrite Forall_forall in H. specialize (H c Hin).
    rewrite ord_byte_of_N by lia. now apply N.ltb_lt. }
  now rewrite Hmap.
Qed.

Lemma ascii_from_hex_of_hexlify t :
  Forall (fun c => (c < 128)%N) t -> ascii_from_hex (hexlify t) = Done t.
Proof.
  intros H. unfold ascii_from_hex.
  rewrite hexlify_length.
  replace (2 * length t) with (length t * 2) by lia.
  rewrite Nat.Div0.mod_mul. cbn [Nat.eqb negb].
  rewrite (fromhex_hexlify t H). cbn [bind_outcome].
  now apply decode_ascii_of_ascii.
Qed.

(** X11. [ascii_from_hex] reads back what was written as two lower-case
    hexadecimal digits per character: for every ASCII text [t],
    [ascii_from_hex(hexlify(t)) == t]. *)
Theorem ascii_from_hex_hexlify (t : str) :
  Forall (fun c => (c < 128)%N) t -> ascii_from_hex (hexlify t) = Done t.
Proof. exact (ascii_from_hex_of_hexlify t). Qed.

Lemma ascii_from_hex_hexlify_witness :
  ascii_from_hex (hexlify (text "a b c")) = Done (text "a b c").
Proof.
  apply (ascii_from_hex_hexlify (text "a b c")).
  repeat constructor.
Defined.

Lemma fromhex_length n : forall t bs,
  length t <= n -> fromhex t = Done bs -> 2 * length bs <= length t.
Proof.
  induction n as [|n IH]; intros t bs Hn H.
  - destruct t; [|simpl in Hn; lia]. injection H as <-. simpl. lia.
  - destruct t as [|c t1]; [injection H as <-; simpl; lia|].
    cbn [fromhex] in H. simpl in Hn.
    destruct (is_space c).
    + apply IH in H; [simpl; lia | lia].
    + destruct (digit_value c); [|discriminate].
      destruct t1 as [|d t2]; [discriminate|].
      destruct (digit_value d); [|discriminate].
      destruct (fromhex t2) as [r|] eqn:E; [|discriminate].
      injection H as <-. apply IH in E; [|simpl in Hn; lia].
      simpl length. lia.
Qed.

Lemma fromhex_failure n : forall t e,
  length t <= n -> fromhex t = Fail e -> e = Below (ValueError msg_fromhex).
Proof.
  induction n as [|n IH]; intros t e Hn H.
  - destruct t; [discriminate | simpl in Hn; lia].
  - destruct t as [|c t1]; [discriminate|].
    cbn [fromhex] in H. simpl in Hn.
    destruct (is_space c).
    + apply IH in H; [assumption | lia].
    + destruct (digit_value c); [|now injection H as <-].
      destruct t1 as [|d t2]; [now injection H as <-|].
      destruct (digit_value d); [|now injection H as <-].
      destruct (fromhex t2) as [r|e2] eqn:E; [discriminate|].
      injection H as <-. apply IH in E; [assumption | simpl in Hn; lia].
Qed.

(** X12. [ascii_from_hex] refuses a text of odd length before it looks at
    the digits; what it returns is ASCII and at most half as long as the
    text; and it raises nothing but the two [ValueError]s and
    [UnicodeDecodeError].  Whitespace around pairs of digits is accepted
    when the length stays even; a pair that reads 0x80 or more is not
    ASCII. *)
Theorem ascii_from_hex_outcomes (t : str) :
  (Nat.even (length t) = false ->
   ascii_from_hex t = Fail (Below (ValueError msg_odd_hex)))
  /\ (forall r, ascii_from_hex t = Done r ->
        Nat.even (length t) = true /\ 2 * length r <= length t
        /\ Forall (fun c => (c < 128)%N) r)
  /\ (forall e, ascii_from_hex t = Fail e ->
        e = Below (ValueError msg_odd_hex)
        \/ e = Below (ValueError msg_fromhex)
        \/ e = UnicodeDecodeError)
  /\ ascii_from_hex (text "202") = Fail (Below (ValueError msg_odd_hex))
  /\ ascii_from_hex (text " 20 ") = Done (text " ")
  /\ ascii_from_hex (text "2 0 ") = Fail (Below (ValueError msg_fromhex))
  /\ ascii_from_hex (text "e0") = Fail UnicodeDecodeError.
Proof.
  assert (Nat.even (length t) = (length t mod 2 =? 0)) as Heven.
  { destruct (Nat.even (length t)) eqn:E.
    - apply Nat.even_spec in E. destruct E as [k ->].
      rewrite Nat.mul_comm, Nat.Div0.mod_mul. reflexivity.
    - symmetry. apply Nat.eqb_neq. intros Hm.
      apply Nat.Div0.mod_divides in Hm as [k Hk].
      assert (Nat.even (length t) = true) as E'
        by (apply Nat.even_spec; exists k; exact Hk).
      congruence. }
  unfold ascii_from_hex. rewrite <- Heven.
  split; [intros ->; reflexivity|].
  split.
  { intros r. destruct (Nat.even (length t)); [|discriminate]. cbn [negb].
    destruct (fromhex t) as [bs|] eqn:E; [|discriminate]. cbn [bind_outcome].
    unfold decode_ascii. destruct (forallb _ bs) eqn:Hall; [|discriminate].
    intros H. injection H as <-.
    split; [reflexivity|]. split.
    - rewrite length_map. apply (fromhex_length (length t)); [lia | exact E].
    - apply Forall_forall. intros c Hc. apply in_map_iff in Hc as [x [<- Hx]].
      rewrite forallb_forall in Hall. apply N.ltb_lt. now apply Hall. }
  split; [|repeat split; reflexivity].
  intros e. destruct (Nat.even (length t)); cbn [negb];
    [|intros H; injection H as <-; auto].
  destruct (fromhex t) as [bs|e'] eqn:E; cbn [bind_outcome].
  - unfold decode_ascii. destruct (forallb _ bs); [discriminate|].
    intros H. injection H as <-. auto.
  - intros H. injection H as <-.
    apply (fromhex_failure (length t)) in E; [auto | lia].
Qed.

(* ================================================================= *)
(** * Further properties of the connection and the transport *)





(** *** [connect] that fails *)

(** X13. When the connection is refused, [connect] raises the socket error
    and the client keeps the socket object it made: buffer and ACK mode are
    not reset, and a second [connect] raises "Already connected" without
    any call on a socket. *)
Theorem connect_refused_keeps_socket (s : Client) :
  _socket s = None -> connect_raises (new_socket s) = true ->
  exists s',
    connect s = (Raise SocketError, s')
    /\ _socket s' = Some (new_socket s)
    /\ _recv_buf s' = _recv_buf s
    /\ _no_ack_mode s' = _no_ack_mode s
    /\ calls s' = calls s ++ [CallConnect]
    /\ connect s' = (Raise (RuntimeError msg_already_connected), s').
Proof.
  intros Hs Hc. unfold connect at 1, bind, get. rewrite Hs.
  unfold sock_call, log, modify, bind, get, raise, ret. simpl. rewrite Hc.
  eexists. split; [reflexivity|]. simpl.
  repeat split.
Qed.

Lemma connect_refused_keeps_socket_witness :
  exists s',
    connect (client_on refusing_socket (fun _ => (fl 1000))) = (Raise SocketError, s')
    /\ _socket s' = Some refusing_socket
    /\ _recv_buf s' = []
    /\ _no_ack_mode s' = false
    /\ calls s' = [CallConnect]
    /\ connect s' = (Raise (RuntimeError msg_already_connected), s').
Proof.
  apply (connect_refused_keeps_socket (client_on refusing_socket (fun _ => (fl 1000))));
    reflexivity.
Defined.

(** *** Reads served from the buffer *)

Lemma recv_bytes_buffered s n :
  _socket s <> None -> 0 < n -> n <= length (_recv_buf s) ->
  _recv_bytes n s
  = (Ok (firstn n (_recv_buf s)), with_recv_buf s (skipn n (_recv_buf s))).
Proof.
  intros Hconn Hn Hbuf. rewrite recv_bytes_unfold.
  apply Nat.ltb_lt in Hn. rewrite Hn.
  destruct (_socket s) as [sock|]; [|contradiction].
  rewrite recv_bytes_loop_unfold.
  destruct (Nat.ltb_spec (length (_recv_buf s)) n); [lia | reflexivity].
Qed.

(** X14. A read the buffer can serve is local: it returns the front of the
    buffer and keeps the rest, with no reading of the clock and no call on
    the socket, whether or not a timeout window was ever started or has run
    out. *)
Theorem buffered_read_is_local (s : Client) (n : nat) :
  _socket s <> None -> 0 < n -> n <= length (_recv_buf s) ->
  exists s',
    _recv_bytes n s = (Ok (firstn n (_recv_buf s)), s')
    /\ _recv_buf s' = skipn n (_recv_buf s)
    /\ clock_reads s' = clock_reads s
    /\ calls s' = calls s
    /\ _socket s' = _socket s.
Proof.
  intros Hconn Hn Hbuf. rewrite recv_bytes_buffered by assumption.
  eexists. split; [reflexivity|]. simpl. auto.
Qed.

Lemma buffered_read_is_local_witness :
  exists s',
    _recv_bytes 2 (snd (_unrecv_bytes (b "abc") (connected_client [] (fun _ => (fl 0)))))
    = (Ok (b "ab"), s')
    /\ _recv_buf s' = b "c"
    /\ clock_reads s' = 0
    /\ calls s' = [CallConnect; CallSetNoDelay]
    /\ _socket s' = Some (plain_socket []).
Proof.
  apply (buffered_read_is_local
           (snd (_unrecv_bytes (b "abc") (connected_client [] (fun _ => (fl 0))))) 2).
  - discriminate.
  - lia.
  - simpl. lia.
Defined.

(** X15. [_unrecv_bytes] followed by a read of as many bytes gives the
    bytes back and leaves the client exactly as it was. *)
Theorem unrecv_then_recv (s : Client) (bs : bytes) :
  _socket s <> None -> bs <> [] ->
  (_unrecv_bytes bs;; _recv_bytes (length bs)) s = (Ok bs, s).
Proof.
  intros Hconn Hbs. unfold bind at 1, _unrecv_bytes, modify.
  rewrite recv_bytes_buffered.
  - simpl. rewrite firstn_app, firstn_all, Nat.sub_diag, firstn_O, app_nil_r.
    rewrite skipn_app, skipn_all, Nat.sub_diag, skipn_O. simpl.
    destruct s; reflexivity.
  - exact Hconn.
  - destruct bs; [contradiction | simpl; lia].
  - simpl. rewrite length_app. lia.
Qed.

Lemma unrecv_then_recv_witness :
  (_unrecv_bytes (b "x");; _recv_bytes (length (b "x")))
    (connected_client [Chunk (b "y")] (fun _ => (fl 1000)))
  = (Ok (b "x"), connected_client [Chunk (b "y")] (fun _ => (fl 1000))).
Proof.
  apply (unrecv_then_recv (connected_client [Chunk (b "y")] (fun _ => (fl 1000))) (b "x"));
    discriminate.
Defined.

(** *** What a receive does on the socket *)

Lemma only_reads_refl s : only_reads s s.
Proof. exists []. now rewrite app_nil_r. Qed.

Lemma only_reads_trans s1 s2 s3 :
  only_reads s1 s2 -> only_reads s2 s3 -> only_reads s1 s3.
Proof.
  intros [r1 [H1 F1]] [r2 [H2 F2]]. exists (r1 ++ r2).
  rewrite H2, H1, app_assoc, forallb_app, F1, F2. auto.
Qed.

Lemma get_recv_time_left_calls s :
  calls (snd (_get_recv_time_left s)) = calls s.
Proof.
  rewrite get_recv_time_left_run. cbv zeta.
  destruct (fltb (fl 0) (_recv_time_start s)); [|reflexivity].
  destruct (fltb _ (fl 0)); [reflexivity|].
  destruct (_ && _); [reflexivity|].
  destruct (fleb (fl 1) _); reflexivity.
Qed.

(** A bound [_get_recv_time_left] answers is zero, or one unit or more. *)
Lemma get_recv_time_left_bound s t s1 :
  _get_recv_time_left s = (Ok t, s1) -> fltb (fl 0) t = true -> fleb (fl 1) t = true.
Proof.
  rewrite get_recv_time_left_run. cbv zeta.
  destruct (fltb (fl 0) (_recv_time_start s)); [|discriminate].
  destruct (fltb _ (fl 0)).
  { intros H. injection H as <- _. discriminate. }
  destruct (_ && _).
  { intros H. injection H as <- _. reflexivity. }
  destruct (fleb (fl 1) _) eqn:E; [|discriminate].
  intros H. injection H as <- _. intros _. exact E.
Qed.

Lemma sock_recv_calls s n :
  calls (snd (sock_recv n s)) = calls s ++ [CallRecv n].
Proof.
  rewrite sock_recv_run. cbv zeta.
  destruct (_socket s) as [sock|]; [|reflexivity].
  destruct (sock_rx sock) as [|[d| |] rx']; reflexivity.
Qed.

Lemma recv_bytes_loop_reads fuel : forall n s,
  only_reads s (snd (recv_bytes_loop fuel n s)).
Proof.
  induction fuel as [|fuel IH]; intros n s; rewrite recv_bytes_loop_unfold;
    destruct (length (_recv_buf s) <? n); try apply only_reads_refl.
  pose proof (get_recv_time_left_calls s) as Hcalls.
  destruct (_get_recv_time_left s) as [[t|e] s1] eqn:Ht; simpl in Hcalls.
  2:{ exists []. simpl. now rewrite app_nil_r. }
  destruct (fltb (fl 0) t) eqn:Hpos.
  2:{ exists []. simpl. now rewrite app_nil_r. }
  pose proof (get_recv_time_left_bound s t s1 Ht Hpos) as Hone.
  set (s1' := with_calls s1 (calls s1 ++ [CallSetTimeout t])).
  pose proof (sock_recv_calls s1' RECV_BLOCK_SIZE) as Hrecv.
  assert (forall s2, calls s2 = calls s1' ++ [CallRecv RECV_BLOCK_SIZE] ->
                     only_reads s s2) as Hturn.
  { intros s2 H2. exists [CallSetTimeout t; CallRecv RECV_BLOCK_SIZE].
    rewrite H2. unfold s1'. cbn [calls with_calls]. rewrite Hcalls, <- app_assoc.
    split; [reflexivity|]. cbn [forallb is_read_call].
    now rewrite Hone, Nat.eqb_refl. }
  destruct (sock_recv RECV_BLOCK_SIZE s1') as [[d|e] s2]; simpl in Hrecv.
  - eapply only_reads_trans; [|apply IH]. apply Hturn. simpl. exact Hrecv.
  - destruct (is_socket_timeout e); simpl; now apply Hturn.
Qed.

Lemma recv_bytes_reads n s : only_reads s (snd (_recv_bytes n s)).
Proof.
  rewrite recv_bytes_unfold.
  destruct (0 <? n); [|apply only_reads_refl].
  destruct (_socket s) as [sock|]; [|apply only_reads_refl].
  pose proof (recv_bytes_loop_reads (S (length (sock_rx sock))) n s) as H.
  destruct (recv_bytes_loop _ n s) as [[[]|e] s1]; simpl in *; exact H.
Qed.

Lemma recv_packet_loop_reads fuel : forall packet s,
  only_reads s (snd (recv_packet_loop fuel packet s)).
Proof.
  induction fuel as [|fuel IH]; intros packet s; [apply only_reads_refl|].
  rewrite recv_packet_loop_unfold. unfold _recv_byte.
  pose proof (recv_bytes_reads 1 s) as H.
  destruct (_recv_bytes 1 s) as [[c|e] s1]; simpl in H; [|exact H].
  destruct (MAX_RECV_PACKET <? length (packet ++ c)); [exact H|].
  destruct (bytes_eqb c (b "#")); [exact H|].
  eapply only_reads_trans; [exact H | apply IH].
Qed.

(** *** What a receive takes from the stream *)

Lemma takes_nil s : takes s [] s.
Proof. exists []. simpl. now rewrite app_nil_r. Qed.

Lemma takes_trans s1 s2 s3 r1 r2 :
  takes s1 r1 s2 -> takes s2 r2 s3 -> takes s1 (r1 ++ r2) s3.
Proof.
  intros [c1 [Hrx1 Hb1]] [c2 [Hrx2 Hb2]]. exists (c1 ++ c2).
  rewrite Hrx1, Hrx2, map_app, concat_app, <- !app_assoc.
  split; [reflexivity|].
  rewrite app_assoc, Hb1, <- app_assoc, Hb2. reflexivity.
Qed.

Lemma recv_bytes_takes n s r s' :
  _recv_bytes n s = (Ok r, s') -> takes s r s'.
Proof.
  intros H.
  apply recv_bytes_sound in H as (_ & _ & buf' & Hfill & Hr & Hbuf & _).
  apply fill_spec in Hfill as (_ & chunks & Hrx & Hcat & _).
  exists chunks. split; [exact Hrx|].
  now rewrite Hr, Hbuf, firstn_skipn.
Qed.

Lemma stream_bytes_app chunks rx :
  stream_bytes (map Chunk chunks ++ rx) = length (concat chunks) + stream_bytes rx.
Proof.
  induction chunks as [|d chunks IH]; [reflexivity|].
  simpl. rewrite IH, length_app. lia.
Qed.

Lemma takes_pending s r s' : takes s r s' -> pending s = length r + pending s'.
Proof.
  intros [chunks [Hrx Hbuf]]. unfold pending.
  rewrite Hrx, stream_bytes_app.
  apply (f_equal (@length byte)) in Hbuf. rewrite !length_app in Hbuf. lia.
Qed.

Lemma recv_packet_loop_sound fuel : forall packet s pkt s',
  recv_packet_loop fuel packet s = (Ok pkt, s') ->
  exists body,
    pkt = packet ++ body ++ ["#"] /\ ~ In "#" body
    /\ takes s (body ++ ["#"]) s' /\ same_settings s s'.
Proof.
  induction fuel as [|fuel IH]; intros packet s pkt s' H; [discriminate|].
  rewrite recv_packet_loop_unfold in H. unfold _recv_byte in H.
  destruct (_recv_bytes 1 s) as [[c|e] s1] eqn:Hc; [|discriminate].
  pose proof (recv_bytes_takes _ _ _ _ Hc) as Htake.
  apply recv_bytes_sound in Hc as (_ & _ & _ & _ & _ & _ & Hlen & Hsame).
  destruct (length_one c Hlen) as [x ->].
  destruct (MAX_RECV_PACKET <? length (packet ++ [x])); [discriminate|].
  destruct (bytes_eqb [x] (b "#")) eqn:Hx.
  - injection H as <- <-. apply bytes_eqb_eq in Hx. injection Hx as ->.
    exists []. simpl. split; [reflexivity|]. split; [tauto|]. split; assumption.
  - apply IH in H as (body & -> & Hno & Htake' & Hsame').
    apply bytes_eqb_neq in Hx.
    exists (x :: body). rewrite <- app_assoc. simpl.
    split; [reflexivity|]. split.
    + intros [-> | Hin]; [now apply Hx | contradiction].
    + split; [|eapply same_settings_trans; eassumption].
      change (x :: body ++ ["#"]) with ([x] ++ body ++ ["#"]).
      eapply takes_trans; eassumption.
Qed.

(** What [recv_packet] did when it returns a packet. *)
Lemma recv_packet_sound v s pkt s' :
  recv_packet v s = (Ok pkt, s') ->
  exists body cs s3,
    pkt = "$" :: body ++ "#" :: cs /\ length cs = 2 /\ ~ In "#" body
    /\ takes s pkt s3 /\ same_settings (armed s) s3 /\ only_reads s s3
    /\ (v = true -> validate_packet pkt = Ok tt)
    /\ s' = (if v && negb (_no_ack_mode s) then after_send s3 (b "+") else s3).
Proof.
  rewrite recv_packet_unfold. unfold _recv_byte.
  pose proof (recv_bytes_reads 1 (armed s)) as Hr1.
  destruct (_recv_bytes 1 (armed s)) as [[c|e] s1] eqn:Hc; [|discriminate].
  pose proof (recv_bytes_takes _ _ _ _ Hc) as Ht1.
  apply recv_bytes_sound in Hc as (_ & Hconn & _ & _ & _ & _ & _ & Hs1).
  destruct (bytes_eqb c (b "$")) eqn:Hstart; [|discriminate]. cbn [negb].
  apply bytes_eqb_eq in Hstart. subst c.
  pose proof (recv_packet_loop_reads MAX_RECV_PACKET (b "$") s1) as Hr2.
  destruct (recv_packet_loop MAX_RECV_PACKET (b "$") s1) as [[packet|e] s2] eqn:Hloop;
    [|discriminate].
  apply recv_packet_loop_sound in Hloop as (body & -> & Hno & Ht2 & Hs2).
  pose proof (recv_bytes_reads 2 s2) as Hr3.
  destruct (_recv_bytes 2 s2) as [[cs|e] s3] eqn:Hcs; [|discriminate].
  pose proof (recv_bytes_takes _ _ _ _ Hcs) as Ht3.
  apply recv_bytes_sound in Hcs as (_ & _ & _ & _ & _ & _ & Hlen & Hs3).
  cbn [snd] in Hr1, Hr2, Hr3.
  assert (same_settings (armed s) s3) as Hs.
  { eapply same_settings_trans; [exact Hs1|].
    eapply same_settings_trans; eassumption. }
  assert (only_reads s s3) as Hr.
  { eapply only_reads_trans; [|exact Hr3].
    eapply only_reads_trans; [|exact Hr2]. exact Hr1. }
  assert ((b "$" ++ body ++ ["#"]) ++ cs = "$" :: body ++ "#" :: cs) as Hpkt.
  { simpl. now rewrite <- app_assoc. }
  rewrite Hpkt.
  assert (takes s ("$" :: body ++ "#" :: cs) s3) as Ht.
  { rewrite <- Hpkt.
    eapply takes_trans; [|exact Ht3]. eapply takes_trans; [|exact Ht2]. exact Ht1. }
  assert (_no_ack_mode s3 = _no_ack_mode s) as Hmode.
  { destruct Hs as (_ & _ & Hm & _). exact Hm. }
  assert (_socket s3 <> None) as Hconn3.
  { destruct Hs as (_ & _ & _ & _ & _ & _ & Hiff & _).
    intros Hnone. apply Hiff in Hnone. contradiction. }
  intros H. exists body, cs, s3.
  destruct v; cbn [andb].
  - destruct (validate_packet ("$" :: body ++ "#" :: cs)) as [[]|e] eqn:Hv;
      [|discriminate].
    rewrite Hmode in H. destruct (negb (_no_ack_mode s)).
    + rewrite send_ack_connected in H by assumption.
      destruct (send_outcome s3) as [[]|e]; [|discriminate]. injection H as <- <-.
      split; [reflexivity|]. do 5 (split; [assumption|]).
      split; [intros _; exact Hv | reflexivity].
    + injection H as <- <-.
      split; [reflexivity|]. do 5 (split; [assumption|]).
      split; [intros _; exact Hv | reflexivity].
  - injection H as <- <-.
    split; [reflexivity|]. do 5 (split; [assumption|]).
    split; [discriminate | reflexivity].
Qed.

Lemma send_outcome_raises s e :
  send_outcome s = Raise e -> e = SocketTimeout \/ e = SocketError.
Proof.
  unfold send_outcome. destruct (tx_of s) as [|[| |] tx']; try discriminate;
    intros H; injection H as <-; auto.
Qed.

(** A [recv_packet] that raises made reads only, unless what raised is the
    [send] of the acknowledgement. *)
Lemma recv_packet_failure_reads v s e s' :
  recv_packet v s = (Raise e, s') ->
  only_reads s s'
  \/ exists s3,
       only_reads s s3 /\ s' = after_send s3 (b "+")
       /\ v = true /\ _no_ack_mode s = false
       /\ (e = SocketTimeout \/ e = SocketError).
Proof.
  rewrite recv_packet_unfold. unfold _recv_byte.
  pose proof (recv_bytes_reads 1 (armed s)) as Hr1.
  destruct (_recv_bytes 1 (armed s)) as [[c|e1] s1] eqn:Hc; cbn [snd] in Hr1.
  2:{ intros H. injection H as _ <-. left. exact Hr1. }
  apply recv_bytes_sound in Hc as (_ & _ & _ & _ & _ & _ & _ & Hs1).
  destruct (negb (bytes_eqb c (b "$"))).
  { intros H. injection H as _ <-. left. exact Hr1. }
  pose proof (recv_packet_loop_reads MAX_RECV_PACKET c s1) as Hr2.
  destruct (recv_packet_loop MAX_RECV_PACKET c s1) as [[packet|e2] s2] eqn:Hloop;
    cbn [snd] in Hr2.
  2:{ intros H. injection H as _ <-. left. eapply only_reads_trans; eassumption. }
  apply recv_packet_loop_sound in Hloop as (_ & _ & _ & _ & Hs2).
  pose proof (recv_bytes_reads 2 s2) as Hr3.
  destruct (_recv_bytes 2 s2) as [[cs|e3] s3] eqn:Hcs; cbn [snd] in Hr3.
  all: assert (only_reads s s3) as Hr
      by (eapply only_reads_trans; [|exact Hr3];
          eapply only_reads_trans; eassumption).
  2:{ intros H. injection H as _ <-. left. exact Hr. }
  apply recv_bytes_sound in Hcs as (_ & _ & _ & _ & _ & _ & _ & Hs3).
  assert (_no_ack_mode s3 = _no_ack_mode s) as Hmode.
  { destruct Hs1 as (_ & _ & H1 & _). destruct Hs2 as (_ & _ & H2 & _).
    destruct Hs3 as (_ & _ & H3 & _). simpl in H1. congruence. }
  destruct v; [|discriminate].
  destruct (validate_packet (packet ++ cs)) as [[]|e4].
  2:{ intros H. injection H as _ <-. left. exact Hr. }
  destruct (negb (_no_ack_mode s3)) eqn:Hack; [|discriminate].
  unfold send_ack. rewrite send_bytes_run. simpl.
  destruct (_socket s3).
  2:{ intros H. injection H as _ <-. left. exact Hr. }
  destruct (send_outcome s3) as [[]|e5] eqn:Hsend; [discriminate|].
  intros H. injection H as <- <-. right. exists s3.
  split; [exact Hr|]. split; [reflexivity|]. split; [reflexivity|].
  split; [|now apply send_outcome_raises with (s := s3)].
  rewrite <- Hmode. now destruct (_no_ack_mode s3).
Qed.

(** X16. The calls [recv_packet] makes on the socket, whatever the
    outcome: [recv] calls of [RECV_BLOCK_SIZE] bytes and [settimeout] calls
    with a bound of [1.0] or more; and after them at most one [send], of the
    acknowledgement.  A call that returns made that [send] exactly when it
    was asked to validate and ACK mode is on.  A call that raises either
    sent nothing (a failed validation included), or was asked to validate in
    ACK mode and raises what the [send] of the acknowledgement raised, a
    socket timeout or another socket error. *)
Theorem receive_call_discipline (v : bool) (s : Client) :
  exists reads,
    forallb is_read_call reads = true
    /\ match recv_packet v s with
       | (Ok _, s') =>
           calls s' = calls s ++ reads
                      ++ (if v && negb (_no_ack_mode s)
                          then [CallSend (b "+")] else [])
       | (Raise e, s') =>
           calls s' = calls s ++ reads
           \/ (calls s' = calls s ++ reads ++ [CallSend (b "+")]
               /\ v = true /\ _no_ack_mode s = false
               /\ (e = SocketTimeout \/ e = SocketError))
       end.
Proof.
  destruct (recv_packet v s) as [[pkt|e] s'] eqn:Hrun.
  - apply recv_packet_sound in Hrun
      as (body & cs & s3 & _ & _ & _ & _ & _ & [reads [Hreads Hall]] & _ & ->).
    exists reads. split; [exact Hall|].
    destruct (v && negb (_no_ack_mode s)).
    + destruct (after_send_same s3 (b "+")) as (_ & _ & _ & _ & -> & _).
      now rewrite Hreads, <- app_assoc.
    + now rewrite app_nil_r.
  - apply recv_packet_failure_reads in Hrun
      as [[reads [Hreads Hall]] | (s3 & [reads [Hreads Hall]] & -> & Hv & Hm & He)].
    + exists reads. auto.
    + exists reads. split; [exact Hall|]. right.
      destruct (after_send_same s3 (b "+")) as (_ & _ & _ & _ & -> & _).
      rewrite Hreads, <- app_assoc. auto.
Qed.

(** X17. A packet [recv_packet] returns was at the front of the stream:
    the buffer followed by the chunks the call fetched is the packet
    followed by what is buffered afterwards, so nothing is skipped,
    reordered or lost; the packet is [$], a body without [#], [#] and two
    more bytes, and it passed [validate_packet] when validation was asked
    for. *)
Theorem recv_packet_takes_stream_front
    (v : bool) (s : Client) (pkt : bytes) (s' : Client) :
  recv_packet v s = (Ok pkt, s') ->
  exists body cs,
    pkt = "$" :: body ++ "#" :: cs /\ length cs = 2 /\ ~ In "#" body
    /\ takes s pkt s'
    /\ pending s = length pkt + pending s'
    /\ (v = true -> validate_packet pkt = Ok tt).
Proof.
  intros H.
  apply recv_packet_sound in H
    as (body & cs & s3 & Hpkt & Hcs & Hno & Ht & _ & _ & Hv & Hs').
  assert (takes s pkt s') as Ht'.
  { rewrite Hs'. destruct (v && negb (_no_ack_mode s)); [|exact Ht].
    destruct (after_send_same s3 (b "+")) as (_ & Hb & Hr & _).
    unfold takes. rewrite Hb, Hr. exact Ht. }
  exists body, cs. repeat split; try assumption.
  now apply takes_pending.
Qed.

Lemma recv_packet_takes_stream_front_witness :
  exists body cs,
    b "$abc#26" = "$" :: body ++ "#" :: cs /\ length cs = 2 /\ ~ In "#" body
    /\ takes (connected_client [Chunk (b "$ab"); Chunk (b "c#26$")] (fun _ => (fl 1000)))
             (b "$abc#26")
             (snd (recv_packet true
                     (connected_client [Chunk (b "$ab"); Chunk (b "c#26$")]
                                       (fun _ => (fl 1000)))))
    /\ pending (connected_client [Chunk (b "$ab"); Chunk (b "c#26$")] (fun _ => (fl 1000)))
       = length (b "$abc#26")
         + pending (snd (recv_packet true
                           (connected_client [Chunk (b "$ab"); Chunk (b "c#26$")]
                                             (fun _ => (fl 1000)))))
    /\ (true = true -> validate_packet (b "$abc#26") = Ok tt).
Proof.
  apply (recv_packet_takes_stream_front true
           (connected_client [Chunk (b "$ab"); Chunk (b "c#26$")] (fun _ => (fl 1000)))).
  vm_compute. reflexivity.
Defined.



(** *** A transport that falls silent *)





(** *** A packet followed by more of the stream *)





(** *** The exceptions of a receive *)

Lemma get_recv_time_left_raises s e s1 :
  _get_recv_time_left s = (Raise e, s1) -> e = AssertionError.
Proof.
  rewrite get_recv_time_left_run. cbv zeta.
  destruct (fltb (fl 0) (_recv_time_start s)); [|intros H; now injection H as <-].
  destruct (fltb _ (fl 0)); [discriminate|].
  destruct (_ && _); [discriminate|].
  destruct (fleb (fl 1) _); [discriminate | intros H; now injection H as <-].
Qed.

Lemma recv_bytes_loop_raises fuel : forall n s e s',
  recv_bytes_loop fuel n s = (Raise e, s') -> length (rx_of s) < fuel ->
  e = AssertionError \/ e = RecvTimeoutError (msg_timeout (_recv_timeout s))
  \/ e = SocketError.
Proof.
  induction fuel as [|fuel IH]; intros n s e s' H Hfuel; [lia|].
  rewrite recv_bytes_loop_unfold in H.
  destruct (length (_recv_buf s) <? n); [|discriminate].
  destruct (_get_recv_time_left s) as [[t|e1] s1] eqn:Ht.
  2:{ injection H as <- _. left. eapply get_recv_time_left_raises; eassumption. }
  apply get_recv_time_left_ok in Ht. subst s1.
  destruct (fltb (fl 0) t); [|injection H as <- _; right; now left].
  rewrite sock_recv_run in H. cbv zeta in H. simpl in H.
  unfold rx_of in Hfuel.
  destruct (_socket s) as [sock|] eqn:Hsock; [|injection H as <- _; right; now left].
  destruct (sock_rx sock) as [|[d| |] rx'] eqn:Hrx;
    try (injection H as <- _; right; (now left) || (now right)).
  apply IH in H; [exact H|].
  unfold rx_of. simpl. simpl in Hfuel. lia.
Qed.

Lemma recv_bytes_raises n s e s' :
  _recv_bytes n s = (Raise e, s') ->
  e = AssertionError
  \/ (e = RuntimeError msg_cant_recv /\ _socket s = None)
  \/ e = RecvTimeoutError (msg_timeout (_recv_timeout s))
  \/ e = SocketError.
Proof.
  rewrite recv_bytes_unfold.
  destruct (0 <? n); [|intros H; injection H as <- _; now left].
  destruct (_socket s) as [sock|] eqn:Hsock;
    [|intros H; injection H as <- _; right; left; auto].
  destruct (recv_bytes_loop _ n s) as [[[]|e1] s1] eqn:Hloop; [discriminate|].
  intros H. injection H as <- _.
  apply recv_bytes_loop_raises in Hloop as [-> | [-> | ->]]; auto.
  unfold rx_of. rewrite Hsock. lia.
Qed.




(* ================================================================= *)
(** * Further properties of the command layer *)

Local Open Scope gdb_scope.

(** *** Sending *)

Lemma send_packet_run p ack s :
  send_packet p None ack s
  = match _socket s with
    | None => (Raise (RuntimeError msg_cant_send), s)
    | Some _ =>
        let pkt := "$" :: encode_spec p ++ "#" :: compute_checksum (encode_spec p) in
        let s1 := after_send s pkt in
        match send_outcome s with
        | Ok _ => if ack && negb (_no_ack_mode s) then check_ack s1 else (Ok tt, s1)
        | Raise e => (Raise e, s1)
        end
    end.
Proof.
  unfold send_packet, bind at 1, lift. rewrite create_packet_run.
  change (b "$" ++ encode_spec p ++ b "#" ++ compute_checksum (encode_spec p))
    with ("$" :: encode_spec p ++ "#" :: compute_checksum (encode_spec p)).
  unfold bind at 1. rewrite send_bytes_run. cbn [length Nat.ltb Nat.leb].
  destruct (_socket s); [|reflexivity].
  cbv zeta. destruct (send_outcome s) as [[]|e]; [|reflexivity].
  unfold bind, get.
  destruct (after_send_same s
              ("$" :: encode_spec p ++ "#" :: compute_checksum (encode_spec p)))
    as ((_ & _ & -> & _) & _).
  destruct (ack && negb (_no_ack_mode s)); reflexivity.
Qed.



Lemma check_ack_raises s e s' :
  check_ack s = (Raise e, s') ->
  e = AssertionError
  \/ (e = RuntimeError msg_cant_recv /\ _socket s = None)
  \/ e = RecvTimeoutError (msg_timeout (_recv_timeout s))
  \/ e = SocketError
  \/ e = ProtocolError msg_nack
  \/ exists c, c <> "+" /\ c <> "-" /\ e = ProtocolError (msg_not_ack [c]).
Proof.
  rewrite check_ack_unfold. unfold _recv_byte.
  destruct (_recv_bytes 1 (armed s)) as [[c|e1] s1] eqn:Hc.
  2:{ intros H. injection H as <- _.
      apply recv_bytes_raises in Hc as [-> | [[-> Hnone] | [-> | ->]]]; auto 6. }
  apply recv_bytes_sound in Hc as (_ & _ & _ & _ & _ & _ & Hlen & _).
  destruct (length_one c Hlen) as [x ->].
  destruct (bytes_eqb [x] (b "+")) eqn:Hp; [discriminate|].
  destruct (bytes_eqb [x] (b "-")) eqn:Hm; intros H; injection H as <- _; [auto 6|].
  apply bytes_eqb_neq in Hp, Hm.
  do 5 right. exists x.
  split; [intros ->; now apply Hp|]. split; [intros ->; now apply Hm | reflexivity].
Qed.

(** *** [_do_send_cmd] *)

Lemma do_send_cmd_bytes p s :
  _do_send_cmd (CmdBytes p) s = base (send_packet p None true) s.
Proof. reflexivity. Qed.

Lemma do_send_cmd_str t s :
  _do_send_cmd (CmdStr t) s
  = if forallb (fun c => (c <? 128)%N) t
    then base (send_packet (map byte_of_N t) None true) s
    else (Fail (Below UnicodeEncodeError), s).
Proof.
  unfold _do_send_cmd, cbind, ctry, pure, encode_ascii.
  destruct (forallb _ t); reflexivity.
Qed.

Lemma base_send_packet_fails p s e s' :
  base (send_packet p None true) s = (Fail e, s') ->
  e = Below (RuntimeError msg_cant_send)
  \/ e = Below SocketTimeout
  \/ e = Below SocketError
  \/ e = Below AssertionError
  \/ e = Below (RecvTimeoutError (msg_timeout (_recv_timeout s)))
  \/ e = Below (ProtocolError msg_nack)
  \/ exists c, c <> "+" /\ c <> "-" /\ e = Below (ProtocolError (msg_not_ack [c])).
Proof.
  unfold base. rewrite send_packet_run.
  destruct (_socket s) as [sock|] eqn:Hsock.
  2:{ intros H. injection H as <- _. auto. }
  cbv zeta. cbn [andb].
  destruct (send_outcome s) as [[]|e0] eqn:Hso.
  2:{ intros H. injection H as <- _.
      apply send_outcome_raises in Hso as [-> | ->]; auto. }
  destruct (negb (_no_ack_mode s)); [|discriminate].
  destruct (check_ack _) as [[[]|e1] s1] eqn:Hack; [discriminate|].
  intros H. injection H as <- _.
  destruct (after_send_same s
              ("$" :: encode_spec p ++ "#" :: compute_checksum (encode_spec p)))
    as ((Ht & _ & _ & _ & _ & _ & Hiff & _) & _).
  apply check_ack_raises in Hack
    as [-> | [[_ Hnone] | [-> | [-> | [-> | [c (Hp & Hm & ->)]]]]]]; auto 8.
  - apply Hiff in Hnone. congruence.
  - rewrite <- Ht. auto 8.
  - do 6 right. eauto.
Qed.

(** X22. How [_do_send_cmd] treats its argument.  A [str] with a
    character outside ASCII makes [encode] raise [UnicodeEncodeError], which
    the [except UnicodeDecodeError] clause does not catch: that error
    escapes, nothing is sent, and the [ValueError] of the handler is never
    raised by any call.  A value that is neither [str] nor [bytes] raises
    [TypeError].  An ASCII [str] is sent as the [bytes] of its characters.
    On a socket whose [recv] and [send] return, time out or fail with a
    socket error, what a call raises is one of: these two errors, the
    invalid-operation error of a client that holds no socket, the timeout
    or the socket error of the [send], and what [check_ack] raises (a failed
    assertion, the receive timeout error, a socket error of [recv], the
    protocol error for a NACK or for another byte). *)
Theorem do_send_cmd_argument (c : cmd_text) (s : Client) :
  match c with
  | CmdBytes p => _do_send_cmd c s = base (send_packet p None true) s
  | CmdStr t =>
      if forallb (fun x => (x <? 128)%N) t
      then _do_send_cmd c s = _do_send_cmd (CmdBytes (map byte_of_N t)) s
      else _do_send_cmd c s = (Fail (Below UnicodeEncodeError), s)
  | CmdOther => _do_send_cmd c s = (Fail (TypeError msg_command_type), s)
  end
  /\ forall e s',
       _do_send_cmd c s = (Fail e, s') ->
       e <> Below (ValueError msg_non_ascii_command)
       /\ (e = TypeError msg_command_type
           \/ e = Below UnicodeEncodeError
           \/ e = Below (RuntimeError msg_cant_send)
           \/ e = Below SocketTimeout
           \/ e = Below SocketError
           \/ e = Below AssertionError
           \/ e = Below (RecvTimeoutError (msg_timeout (_recv_timeout s)))
           \/ e = Below (ProtocolError msg_nack)
           \/ exists x, x <> "+" /\ x <> "-"
                        /\ e = Below (ProtocolError (msg_not_ack [x]))).
Proof.
  split.
  - destruct c as [p|t|]; [reflexivity | | reflexivity].
    rewrite do_send_cmd_str. destruct (forallb _ t); reflexivity.
  - intros e s' H.
    assert (e = TypeError msg_command_type
            \/ e = Below UnicodeEncodeError
            \/ e = Below (RuntimeError msg_cant_send)
            \/ e = Below SocketTimeout
            \/ e = Below SocketError
            \/ e = Below AssertionError
            \/ e = Below (RecvTimeoutError (msg_timeout (_recv_timeout s)))
            \/ e = Below (ProtocolError msg_nack)
            \/ exists x, x <> "+" /\ x <> "-"
                         /\ e = Below (ProtocolError (msg_not_ack [x]))) as Hcases.
    { destruct c as [p|t|].
      - rewrite do_send_cmd_bytes in H.
        apply base_send_packet_fails in H as [-> | [-> | [-> | [-> | [-> | [-> | Hx]]]]]];
          auto 10.
      - rewrite do_send_cmd_str in H. destruct (forallb _ t).
        + apply base_send_packet_fails in H as [-> | [-> | [-> | [-> | [-> | [-> | Hx]]]]]];
            auto 10.
        + injection H as <- _. auto.
      - injection H as <- _. auto. }
    split; [|exact Hcases].
    destruct Hcases
      as [-> | [-> | [-> | [-> | [-> | [-> | [-> | [-> | [x (_ & _ & ->)]]]]]]]]];
      discriminate.
Qed.

(** *** [cmd_bin_reply] and [cmd] *)





(** *** [get_stop_reply] *)

Lemma get_stop_reply_loop_unfold fuel acc s :
  get_stop_reply_loop (S fuel) acc s
  = match recv_and_decode_packet_data s with
    | (Raise e, s1) => (Fail (Below e), s1)
    | (Ok reply, s1) =>
        match decode_ascii reply with
        | Fail e => (Fail e, s1)
        | Done reply_str =>
            if startswith reply_str (text "O") then
              match ascii_from_hex (slice_from reply_str 1) with
              | Fail e => (Fail e, s1)
              | Done shown => get_stop_reply_loop fuel (acc ++ shown) s1
              end
            else (Done (reply_str, acc), s1)
        end
    end.
Proof.
  cbn [get_stop_reply_loop]. unfold cbind at 1, base.
  destruct (recv_and_decode_packet_data s) as [[reply|e] s1]; [|reflexivity].
  cbn [from_result]. unfold cbind at 1, pure.
  destruct (decode_ascii reply) as [reply_str|e]; [|reflexivity].
  destruct (startswith reply_str (text "O")); [|reflexivity].
  unfold cbind at 1.
  destruct (ascii_from_hex _) as [shown|e]; reflexivity.
Qed.







Lemma created_packet_shape p pkt :
  create_packet p None = Ok pkt ->
  pkt = "$" :: encode_spec p ++ "#" :: compute_checksum (encode_spec p).
Proof. rewrite create_packet_run. intros H. now injection H as <-. Qed.







(** Every turn of the loop takes a whole packet off the stream. *)
Lemma recv_and_decode_pending s r s' :
  recv_and_decode_packet_data s = (Ok r, s') -> pending s' + 4 <= pending s.
Proof.
  unfold recv_and_decode_packet_data, bind at 1.
  destruct (recv_packet true s) as [[pkt|e] s1] eqn:Hrecv; [|discriminate].
  pose proof (recv_packet_bound _ _ _ _ Hrecv) as [Hlen _].
  apply recv_packet_sound in Hrecv
    as (_ & _ & s3 & _ & _ & _ & Ht & _ & _ & _ & Hs1).
  apply takes_pending in Ht.
  assert (pending s1 = pending s3) as Hp.
  { rewrite Hs1. destruct (true && negb (_no_ack_mode s)); [|reflexivity].
    destruct (after_send_same s3 (b "+")) as (_ & Hb & Hrx & _).
    unfold pending. now rewrite Hb, Hrx. }
  destruct (split_packet pkt) as [[[first data] delim] cs]. unfold lift.
  destruct (decode_packet_data data); [|discriminate].
  intros H. injection H as _ <-. lia.
Qed.

Lemma recv_and_decode_fuel s :
  fst (recv_and_decode_packet_data s) <> Raise OutOfFuel.
Proof.
  unfold recv_and_decode_packet_data, bind at 1.
  pose proof (recv_packet_fuel true s) as Hrecv.
  destruct (recv_packet true s) as [[pkt|e] s1]; [|exact Hrecv].
  destruct (split_packet pkt) as [[[first data] delim] cs]. unfold lift.
  apply decode_loop_fuel.
Qed.

Lemma decode_ascii_done bs t :
  decode_ascii bs = Done t -> t = map ord bs /\ Forall (fun c => (c < 128)%N) t.
Proof.
  unfold decode_ascii. destruct (forallb _ bs) eqn:Hall; [|discriminate].
  intros H. injection H as <-. split; [reflexivity|].
  apply Forall_forall. intros c Hc. apply in_map_iff in Hc as [x [<- Hx]].
  rewrite forallb_forall in Hall. apply N.ltb_lt. now apply Hall.
Qed.

Lemma ascii_from_hex_done t r :
  ascii_from_hex t = Done r -> Forall (fun c => (c < 128)%N) r.
Proof.
  unfold ascii_from_hex. destruct (negb _); [discriminate|].
  destruct (fromhex t) as [bs|]; [|discriminate]. cbn [bind_outcome].
  intros H. now apply decode_ascii_done in H.
Qed.

Lemma ascii_from_hex_fuel t : ascii_from_hex t <> Fail (Below OutOfFuel).
Proof.
  unfold ascii_from_hex. destruct (negb _); [discriminate|].
  destruct (fromhex t) as [bs|e] eqn:E; cbn [bind_outcome].
  - unfold decode_ascii. destruct (forallb _ bs); discriminate.
  - apply (fromhex_failure (length t)) in E; [subst e; discriminate | lia].
Qed.

(** The loop of [get_stop_reply] never runs out of turns. *)
Lemma get_stop_reply_loop_fuel fuel : forall acc s,
  pending s < fuel ->
  fst (get_stop_reply_loop fuel acc s) <> Fail (Below OutOfFuel).
Proof.
  induction fuel as [|fuel IH]; intros acc s Hfuel; [lia|].
  rewrite get_stop_reply_loop_unfold.
  pose proof (recv_and_decode_fuel s) as Hrecv.
  destruct (recv_and_decode_packet_data s) as [[reply|e] s1] eqn:Hrun.
  2:{ cbn [fst] in *. intros H. injection H as ->. now apply Hrecv. }
  apply recv_and_decode_pending in Hrun.
  unfold decode_ascii. destruct (forallb _ reply); [|discriminate].
  destruct (startswith _ _); [|discriminate].
  pose proof (ascii_from_hex_fuel (slice_from (map ord reply) 1)) as Hhex.
  destruct (ascii_from_hex _) as [shown|e].
  - apply IH. lia.
  - cbn [fst]. intros H. injection H as ->. now apply Hhex.
Qed.

Lemma get_stop_reply_fuel s : fst (get_stop_reply s) <> Fail (Below OutOfFuel).
Proof. unfold get_stop_reply. apply get_stop_reply_loop_fuel. unfold pending. lia. Qed.

Lemma get_stop_reply_loop_sound fuel : forall acc s reply console s',
  get_stop_reply_loop fuel acc s = (Done (reply, console), s') ->
  Forall (fun c => (c < 128)%N) acc ->
  startswith reply (text "O") = false
  /\ Forall (fun c => (c < 128)%N) reply
  /\ Forall (fun c => (c < 128)%N) console
  /\ pending s' + 4 <= pending s.
Proof.
  induction fuel as [|fuel IH]; intros acc s reply console s' H Hacc; [discriminate|].
  rewrite get_stop_reply_loop_unfold in H.
  destruct (recv_and_decode_packet_data s) as [[r|e] s1] eqn:Hrun; [|discriminate].
  apply recv_and_decode_pending in Hrun.
  destruct (decode_ascii r) as [reply_str|e] eqn:Hdec; [|discriminate].
  apply decode_ascii_done in Hdec as [_ Hascii].
  destruct (startswith reply_str (text "O")) eqn:Hstart.
  - destruct (ascii_from_hex _) as [shown|e] eqn:Hhex; [|discriminate].
    apply ascii_from_hex_done in Hhex.
    apply IH in H as (H1 & H2 & H3 & H4).
    + repeat split; try assumption. lia.
    + apply Forall_app. split; assumption.
  - injection H as <- <- <-. repeat split; assumption.
Qed.

(** X25. What [get_stop_reply] returns: the stop reply is ASCII and does
    not start with [O] (a reply that does is always taken for console
    output), the console text is ASCII, and at least one whole packet was
    taken off the stream.  A reply that starts with [O] and is not followed
    by whole pairs of hexadecimal digits, such as [OK], makes the call
    raise [ValueError]. *)
Theorem get_stop_reply_result (s : Client) :
  (forall reply console s',
     get_stop_reply s = (Done (reply, console), s') ->
     startswith reply (text "O") = false
     /\ Forall (fun c => (c < 128)%N) reply
     /\ Forall (fun c => (c < 128)%N) console
     /\ pending s' + 4 <= pending s)
  /\ (forall r s1 t,
        recv_and_decode_packet_data s = (Ok r, s1) ->
        decode_ascii r = Done (79%N :: t) ->
        Nat.even (length t) = false ->
        get_stop_reply s = (Fail (Below (ValueError msg_odd_hex)), s1)).
Proof.
  split.
  - intros reply console s' H. unfold get_stop_reply in H.
    apply get_stop_reply_loop_sound in H; [exact H | constructor].
  - intros r s1 t Hrun Hdec Hodd. unfold get_stop_reply.
    rewrite get_stop_reply_loop_unfold, Hrun, Hdec.
    assert (startswith (79%N :: t) (text "O") = true) as ->
      by (simpl; destruct t; reflexivity).
    change 1%Z with (Z.of_nat 1). rewrite slice_from_nat. cbn [skipn].
    unfold ascii_from_hex.
    assert ((length t mod 2 =? 0) = false) as ->; [|reflexivity].
    apply Nat.eqb_neq. intros Hm.
    apply Nat.Div0.mod_divides in Hm as [k Hk].
    assert (Nat.even (length t) = true) as E
      by (apply Nat.even_spec; exists k; exact Hk).
    congruence.
Qed.

(** *** [send_packet] sends once *)

Lemma check_ack_reads s : only_reads s (snd (check_ack s)).
Proof.
  rewrite check_ack_unfold. unfold _recv_byte.
  pose proof (recv_bytes_reads 1 (armed s)) as H.
  destruct (_recv_bytes 1 (armed s)) as [[c|e] s1]; cbn [snd] in *; [|exact H].
  destruct (bytes_eqb c (b "+")); [exact H|].
  destruct (bytes_eqb c (b "-")); exact H.
Qed.

(** X26. [send_packet] on a connected client makes one [send], of the
    packet [create_packet] builds, whatever happens afterwards: when the
    acknowledgement is negative, unexpected or late it raises, and does not
    send the packet again.  Everything it does on the socket after the
    send is reading, and it reads nothing when told not to check, in
    no-ACK mode, or when the [send] itself raised: the call then ends as the
    [send] did, returning when it returned. *)
Theorem send_packet_sends_once
    (s : Client) (p pkt : bytes) (do_check_ack : bool) :
  _socket s <> None -> create_packet p None = Ok pkt ->
  exists reads,
    calls (snd (send_packet p None do_check_ack s))
    = calls s ++ [CallSend pkt] ++ reads
    /\ forallb is_read_call reads = true
    /\ (do_check_ack && negb (_no_ack_mode s) = false \/ send_outcome s <> Ok tt ->
        reads = [] /\ fst (send_packet p None do_check_ack s) = send_outcome s)
    /\ (send_outcome s = Ok tt -> do_check_ack && negb (_no_ack_mode s) = false ->
        fst (send_packet p None do_check_ack s) = Ok tt).
Proof.
  intros Hconn Hpkt. apply created_packet_shape in Hpkt. subst pkt.
  rewrite send_packet_run.
  destruct (_socket s) as [sock|]; [|contradiction]. cbv zeta.
  destruct (after_send_same s
              ("$" :: encode_spec p ++ "#" :: compute_checksum (encode_spec p)))
    as (_ & _ & _ & _ & Hsent & _).
  destruct (send_outcome s) as [[]|e] eqn:Hout.
  - destruct (do_check_ack && negb (_no_ack_mode s)).
    + destruct (check_ack_reads
                  (after_send s ("$" :: encode_spec p ++ "#"
                                     :: compute_checksum (encode_spec p))))
        as [reads [Hcalls Hreads]].
      exists reads. rewrite Hcalls, Hsent.
      rewrite <- app_assoc. split; [reflexivity|]. split; [exact Hreads|].
      split; [|discriminate].
      intros [H | H]; [discriminate | now contradiction H].
    + exists []. cbn [snd fst]. rewrite Hsent.
      split; [reflexivity|]. split; [reflexivity|]. split; auto.
  - exists []. cbn [snd fst]. rewrite Hsent.
    split; [reflexivity|]. split; [reflexivity|]. split; [auto | discriminate].
Qed.

Lemma send_packet_sends_once_witness :
  exists reads,
    calls (snd (send_packet (b "abc") None true
                  (connected_client [Chunk (b "-")] (fun _ => (fl 1000)))))
    = [CallConnect; CallSetNoDelay] ++ [CallSend (b "$abc#26")] ++ reads
    /\ forallb is_read_call reads = true
    /\ (true && negb false = false
        \/ send_outcome (connected_client [Chunk (b "-")] (fun _ => (fl 1000))) <> Ok tt ->
        reads = []
        /\ fst (send_packet (b "abc") None true
                  (connected_client [Chunk (b "-")] (fun _ => (fl 1000))))
           = send_outcome (connected_client [Chunk (b "-")] (fun _ => (fl 1000))))
    /\ (send_outcome (connected_client [Chunk (b "-")] (fun _ => (fl 1000))) = Ok tt ->
        true && negb false = false ->
        fst (send_packet (b "abc") None true
               (connected_client [Chunk (b "-")] (fun _ => (fl 1000)))) = Ok tt).
Proof.
  apply (send_packet_sends_once
           (connected_client [Chunk (b "-")] (fun _ => (fl 1000)))
           (b "abc") (b "$abc#26") true).
  - discriminate.
  - reflexivity.
Defined.

(** *** Runs of the command layer *)

Example cmd_runs :
  fst (cmd (CmdStr (text "qSupported"))
         (connected_client [Chunk (b "+$OK#9a")] (fun _ => (fl 1000))))
  = Done (text "OK")
  /\ fst (cmd (CmdBytes [xff])
            (connected_client [Chunk (b "+$OK#9a")] (fun _ => (fl 1000))))
     = Done (text "OK")
  /\ fst (cmd (CmdStr [233%N])
            (connected_client [Chunk (b "+$OK#9a")] (fun _ => (fl 1000))))
     = Fail (Below UnicodeEncodeError)
  /\ fst (cmd CmdOther
            (connected_client [Chunk (b "+$OK#9a")] (fun _ => (fl 1000))))
     = Fail (TypeError msg_command_type).
Proof. repeat split; vm_compute; reflexivity. Qed.

Example get_stop_reply_runs :
  fst (get_stop_reply
         (connected_client [Chunk (b "$O6869#2c"); Chunk (b "$T05#b9")]
                           (fun _ => (fl 1000))))
  = Done (text "T05", text "hi")
  /\ fst (get_stop_reply
            (connected_client [Chunk (b "$OK#9a")] (fun _ => (fl 1000))))
     = Fail (Below (ValueError msg_odd_hex)).
Proof. split; vm_compute; reflexivity. Qed.
